(** * A reactive state engine: signals, derived cells and effects

    Shallow embedding of [src/lib/signal.js] (module [SignalJs]) and of
    [src/lib/reactive.js] (module [ReactiveJs]).

    Both engines call back into user code (effect bodies, cleanups, updaters).
    User code is represented by a small tree of engine requests with Rocq
    functions as continuations; the engine itself is a set of mutually
    recursive functions over an explicit store.  The JavaScript closures
    [read], [write], [execute] and [dispose] become functions of the handle
    of the object they close over. *)

From Stdlib Require Import ZArith String.
From stdpp Require Import base list.

Set Default Proof Using "Type".

(** ** JavaScript values that cells hold *)

Inductive value : Type :=
| VUndefined
| VNull
| VBool (b : bool)
| VNum (z : Z)
| VNaN
| VStr (s : string).

(** [a === b] on the values above; [NaN] is the one value that is not
    strictly equal to itself. *)
Definition strict_eq (a b : value) : bool :=
  match a, b with
  | VUndefined, VUndefined => true
  | VNull, VNull => true
  | VBool x, VBool y => Bool.eqb x y
  | VNum x, VNum y => Z.eqb x y
  | VStr x, VStr y => String.eqb x y
  | _, _ => false
  end.

(** [v ?? d] keeps [v] unless it is [null] or [undefined]. *)
Definition nullish (v : value) : bool :=
  match v with
  | VUndefined | VNull => true
  | _ => false
  end.

(** What the exported constructors hand back to their caller. *)
Inductive returned : Type :=
| Undefined
| Accessor (c : nat)
| Setter (c : nat)
| Disposer (x : nat)
| Pair (a b : returned).

(** ** Results of calls into an engine

    [OutOfFuel] is the model's bound on the depth of nested calls, and
    [Unsupported] marks what the model leaves out: a function stored as the
    value of a cell, and the use of a handle that no constructor returned. *)
Inductive outcome (S A : Type) : Type :=
| Normal (a : A) (s : S)
| Thrown (e : value) (s : S)
| OutOfFuel
| Unsupported.
Arguments Normal {S A} a s.
Arguments Thrown {S A} e s.
Arguments OutOfFuel {S A}.
Arguments Unsupported {S A}.

Definition bind {S A B} (m : outcome S A) (f : A → S → outcome S B) : outcome S B :=
  match m with
  | Normal a s => f a s
  | Thrown e s => Thrown e s
  | OutOfFuel => OutOfFuel
  | Unsupported => Unsupported
  end.

Notation "'let*' x , s <- m 'in' k" := (bind m (λ x s, k))
  (at level 10, x pattern, s name, m at level 100, k at level 200).

(** [try { m } finally { f }] *)
Definition finally {S A} (m : outcome S A) (f : S → S) : outcome S A :=
  match m with
  | Normal a s => Normal a (f s)
  | Thrown e s => Thrown e (f s)
  | OutOfFuel => OutOfFuel
  | Unsupported => Unsupported
  end.

(** [Array.prototype.forEach], over the elements present when it starts. *)
Fixpoint forEach {S A} (f : A → S → outcome S unit) (l : list A) (s : S)
  : outcome S unit :=
  match l with
  | [] => Normal tt s
  | x :: l' => let* _, s' <- f x s in forEach f l' s'
  end.

(** The state an outcome ends in, when it has one. *)
Definition final {S A} (o : outcome S A) : option S :=
  match o with
  | Normal _ s | Thrown _ s => Some s
  | _ => None
  end.

(** [Set.prototype.add]: insertion order is kept, a present element is not
    moved. *)
Definition set_add (x : nat) (l : list nat) : list nat :=
  if bool_decide (x ∈ l) then l else l ++ [x].

(** [Set.prototype.delete]. *)
Definition set_delete (x : nat) (l : list nat) : list nat :=
  filter (λ y, y ≠ x) l.

(** * [src/lib/signal.js] *)
Module SignalJs.

Abbreviation cell_id := nat.
Abbreviation ctx_id := nat.

(** User code.  A node is one interaction of a function body with the
    engine, and the continuation receives what the call returned.
    [Return v] is [return v] (falling off the end is [Return VUndefined]),
    [ReturnFn p] returns the closure [() => { p }].  In [Try] the two blocks
    run to their end, their own return value is dropped. *)
Inductive prog : Type :=
| Return (v : value)
| ReturnFn (cleanup : prog)
| Throw (e : value)
| Read (c : cell_id) (k : value → prog)
| Write (c : cell_id) (v : value) (k : prog)
| Update (c : cell_id) (updater : value → prog) (k : prog)
| NewSignal (v : value) (k : cell_id → prog)
| NewEffect (fn : ctx_id → prog) (k : prog)
| NewComputed (fn : prog) (k : cell_id → prog)
| CallDispose (d : ctx_id) (k : prog)
| Try (body : prog) (handler : value → prog) (k : prog).

(** What a user function returned. *)
Inductive ret : Type :=
| RVal (v : value)
| RFn (p : prog).

(** The argument of [write]: a new value, or a function of the old one. *)
Inductive write_arg : Type :=
| Literal (v : value)
| Updater (f : value → prog).

(** [p] followed by [f] applied to what [p] returns. *)
Fixpoint seq (p : prog) (f : ret → prog) : prog :=
  match p with
  | Return v => f (RVal v)
  | ReturnFn q => f (RFn q)
  | Throw e => Throw e
  | Read c k => Read c (λ v, seq (k v) f)
  | Write c v k => Write c v (seq k f)
  | Update c u k => Update c u (seq k f)
  | NewSignal v k => NewSignal v (λ c, seq (k c) f)
  | NewEffect g k => NewEffect g (seq k f)
  | NewComputed g k => NewComputed g (λ c, seq (k c) f)
  | CallDispose d k => CallDispose d (seq k f)
  | Try b h k => Try b h (seq k f)
  end.

(** An entry of [context.disposables]: whatever [fn(dispose) ?? (() => {})]
    evaluated to. *)
Inductive disposable : Type :=
| DCall (p : prog)
| DValue (v : value).

(** [const subscriptions = new Set(); let data = value;] *)
Record cell : Type := Cell {
  data : value;
  cell_subscriptions : list ctx_id;
}.

(** The [Context] object together with what its two closures capture
    ([fn], [parentContext]).  [dependencies] lists the cells whose
    subscriber set was pushed.  [disposables_obj] names the array object
    that [context.disposables] currently refers to: [dispose] installs a
    fresh array, and a [push] that was started on the previous one is lost. *)
Record context : Type := Context {
  fn : ctx_id → prog;
  parentContext : option ctx_id;
  dependencies : list cell_id;
  subscriptions : list ctx_id;
  disposables : list disposable;
  disposables_obj : nat;
}.

(** History of the engine, kept beside the program state: [Ran x] when
    [execute] calls the [fn] of context [x], [ReadBy x c] when [read] of
    cell [c] subscribes the active context [x], [Disposed x] when [dispose]
    of [x] starts. *)
Inductive event : Type :=
| Ran (x : ctx_id)
| ReadBy (x : ctx_id) (c : cell_id)
| Disposed (x : ctx_id).

#[export] Instance event_eq_dec : EqDecision event.
Proof. solve_decision. Defined.

(** The module state: the tracking stack (top first), the two heaps, and
    the history (oldest first). *)
Record state : Type := State {
  stack : list ctx_id;
  cells : list cell;
  contexts : list context;
  trace : list event;
}.

Definition empty_cell : cell := Cell VUndefined [].
Definition empty_context : context := Context (λ _, Return VUndefined) None [] [] [] 0.
Definition initial : state := State [] [] [] [].

Definition cell_at (s : state) (c : cell_id) : cell := default empty_cell (cells s !! c).
Definition context_at (s : state) (x : ctx_id) : context :=
  default empty_context (contexts s !! x).

Definition with_stack (f : list ctx_id → list ctx_id) (s : state) : state :=
  State (f (stack s)) (cells s) (contexts s) (trace s).
Definition with_cell (c : cell_id) (f : cell → cell) (s : state) : state :=
  State (stack s) (alter f c (cells s)) (contexts s) (trace s).
Definition with_context (x : ctx_id) (f : context → context) (s : state) : state :=
  State (stack s) (cells s) (alter f x (contexts s)) (trace s).
Definition record (e : event) (s : state) : state :=
  State (stack s) (cells s) (contexts s) (trace s ++ [e]).

Definition set_data (v : value) (c : cell) : cell := Cell v (cell_subscriptions c).
Definition map_cell_subscriptions (f : list ctx_id → list ctx_id) (c : cell) : cell :=
  Cell (data c) (f (cell_subscriptions c)).
Definition map_dependencies (f : list cell_id → list cell_id) (x : context) : context :=
  Context (fn x) (parentContext x) (f (dependencies x)) (subscriptions x)
          (disposables x) (disposables_obj x).
Definition map_subscriptions (f : list ctx_id → list ctx_id) (x : context) : context :=
  Context (fn x) (parentContext x) (dependencies x) (f (subscriptions x))
          (disposables x) (disposables_obj x).
Definition map_disposables (f : list disposable → list disposable) (x : context) : context :=
  Context (fn x) (parentContext x) (dependencies x) (subscriptions x)
          (f (disposables x)) (disposables_obj x).
(** [context.disposables = []] *)
Definition fresh_disposables (x : context) : context :=
  Context (fn x) (parentContext x) (dependencies x) (subscriptions x)
          [] (S (disposables_obj x)).

Definition getCurrentContext (s : state) : option ctx_id := head (stack s).
Definition startTracking (x : ctx_id) : state → state := with_stack (cons x).
Definition stopTracking : state → state := with_stack tail.

(** [signal(value)] *)
Definition signal (v : value) (s : state) : cell_id * state :=
  (length (cells s),
   State (stack s) (cells s ++ [Cell v []]) (contexts s) (trace s)).
Definition signal_returns (c : cell_id) : returned := Pair (Accessor c) (Setter c).

(** [read()] of cell [c] *)
Definition read (c : cell_id) (s : state) : value * state :=
  let s' :=
    match getCurrentContext s with
    | Some x =>
        with_context x (map_dependencies (λ d, d ++ [c]))
          (with_cell c (map_cell_subscriptions (set_add x)) (record (ReadBy x c) s))
    | None => s
    end in
  (data (cell_at s' c), s').

(** [dep.delete(context)] for every entry of [context.dependencies] *)
Definition detach (x : ctx_id) (deps : list cell_id) (s : state) : state :=
  foldl (λ s c, with_cell c (map_cell_subscriptions (set_delete x)) s) s deps.

(** [fn(dispose) ?? (() => { })] *)
Definition as_disposable (r : ret) : disposable :=
  match r with
  | RVal v => if nullish v then DCall (Return VUndefined) else DValue v
  | RFn p => DCall p
  end.

(** [array.push(d)] where [array] is the object [obj] that
    [context.disposables] referred to before [fn] was called. *)
Definition push_disposable (x : ctx_id) (obj : nat) (d : disposable) (s : state) : state :=
  if decide (disposables_obj (context_at s x) = obj)
  then with_context x (map_disposables (λ l, l ++ [d])) s
  else s.

Definition type_error : value := VStr "TypeError".

(** The rest of [() => write(fn())] once [fn()] has returned [r]. *)
Definition write_result (c : cell_id) (r : ret) : prog :=
  match r with
  | RVal v => Write c v (Return VUndefined)
  | RFn q => Update c (λ _, q) (Return VUndefined)
  end.

Definition known_cell (s : state) (c : cell_id) : bool :=
  bool_decide (c < length (cells s)).
Definition known_context (s : state) (x : ctx_id) : bool :=
  bool_decide (x < length (contexts s)).

Abbreviation result := (outcome state).

Fixpoint run (n : nat) (p : prog) (s : state) {struct n} : result ret :=
  match n with
  | 0 => OutOfFuel
  | S n =>
      match p with
      | Return v => Normal (RVal v) s
      | ReturnFn q => Normal (RFn q) s
      | Throw e => Thrown e s
      | Read c k =>
          if known_cell s c
          then let '(v, s') := read c s in run n (k v) s'
          else Unsupported
      | Write c v k =>
          if known_cell s c
          then let* _, s' <- write n c (Literal v) s in run n k s'
          else Unsupported
      | Update c f k =>
          if known_cell s c
          then let* _, s' <- write n c (Updater f) s in run n k s'
          else Unsupported
      | NewSignal v k => let '(c, s') := signal v s in run n (k c) s'
      | NewEffect f k => let* _, s' <- effect n f s in run n k s'
      | NewComputed f k =>
          let* r, s' <- computed n f s in
          match r with
          | Accessor c => run n (k c) s'
          | _ => Unsupported
          end
      | CallDispose d k =>
          if known_context s d
          then let* _, s' <- dispose n d s in run n k s'
          else Unsupported
      | Try b h k =>
          match run n b s with
          | Normal _ s' => run n k s'
          | Thrown e s' => let* _, s'' <- run n (h e) s' in run n k s''
          | OutOfFuel => OutOfFuel
          | Unsupported => Unsupported
          end
      end
  end

(** [write(value)] of cell [c] *)
with write (n : nat) (c : cell_id) (a : write_arg) (s : state) {struct n}
  : result unit :=
  match n with
  | 0 => OutOfFuel
  | S n =>
      let* r, s <-
        match a with
        | Updater f => run n (f (data (cell_at s c))) s
        | Literal v => Normal (RVal v) s
        end in
      match r with
      | RFn _ => Unsupported
      | RVal nextValue =>
          if negb (strict_eq nextValue (data (cell_at s c))) then
            let s := with_cell c (set_data nextValue) s in
            forEach (execute n) (cell_subscriptions (cell_at s c)) s
          else Normal tt s
      end
  end

(** [execute()] of context [x] *)
with execute (n : nat) (x : ctx_id) (s : state) {struct n} : result unit :=
  match n with
  | 0 => OutOfFuel
  | S n =>
      finally
        (let* _, s <- dispose n x s in
         let s :=
           match parentContext (context_at s x) with
           | Some p => with_context p (map_subscriptions (λ l, l ++ [x])) s
           | None => s
           end in
         let s := startTracking x s in
         let obj := disposables_obj (context_at s x) in
         let* r, s <- run n (fn (context_at s x) x) (record (Ran x) s) in
         Normal tt (push_disposable x obj (as_disposable r) s))
        stopTracking
  end

(** [dispose()] of context [x] *)
with dispose (n : nat) (x : ctx_id) (s : state) {struct n} : result unit :=
  match n with
  | 0 => OutOfFuel
  | S n =>
      let s := record (Disposed x) s in
      let s := detach x (dependencies (context_at s x)) s in
      let s := with_context x (map_dependencies (λ _, [])) s in
      let* _, s <- forEach (dispose n) (subscriptions (context_at s x)) s in
      let s := with_context x (map_subscriptions (λ _, [])) s in
      let* _, s <-
        forEach (λ d s,
                   match d with
                   | DCall p => let* _, s <- run n p s in Normal tt s
                   | DValue _ => Thrown type_error s
                   end)
                (disposables (context_at s x)) s in
      Normal tt (with_context x fresh_disposables s)
  end

(** [effect(fn)] *)
with effect (n : nat) (f : ctx_id → prog) (s : state) {struct n} : result returned :=
  match n with
  | 0 => OutOfFuel
  | S n =>
      let x := length (contexts s) in
      let context := Context f (getCurrentContext s) [] [] [] 0 in
      let s := State (stack s) (cells s) (contexts s ++ [context]) (trace s) in
      let* _, s <- execute n x s in
      Normal Undefined s
  end

(** [computed(fn)] *)
with computed (n : nat) (f : prog) (s : state) {struct n} : result returned :=
  match n with
  | 0 => OutOfFuel
  | S n =>
      let '(c, s) := signal VUndefined s in
      let* _, s <- effect n (λ _, seq f (write_result c)) s in
      Normal (Accessor c) s
  end.

End SignalJs.

(** * [src/lib/reactive.js] *)
Module ReactiveJs.

Abbreviation getter_id := nat.
Abbreviation inst_id := nat.

(** User code of this engine.  A function object passed to [computed] or
    [effect] is a name and a body: two function values are the same object
    exactly when their names agree.  [structuredClone] is the identity on
    the values of type [value]. *)
Inductive prog : Type :=
| Return (v : value)
| Throw (e : value)
| CallGetter (g : getter_id) (k : value → prog)
| CallSetter (g : getter_id) (f : value → prog) (k : prog)
| NewRef (v : value) (k : getter_id → prog)
| NewRefFrom (init : prog) (k : getter_id → prog)
| NewComputed (name : nat) (fn : value → prog) (k : getter_id → inst_id → prog)
| NewEffect (name : nat) (fn : value → prog) (refs : option (list getter_id))
    (k : inst_id → prog)
| CallClear (i : inst_id) (k : prog).

(** A member of a [watchlist] set: the [effect] closure of one call of
    [effect], the [update] closure of one call of [computed], or a user
    function watched in lazy mode. *)
Inductive callback : Type :=
| CbEffect (i : inst_id)
| CbUpdate (i : inst_id)
| CbFn (name : nat) (body : value → prog).

(** Identity of function objects. *)
Definition same_fn (a b : callback) : bool :=
  match a, b with
  | CbEffect i, CbEffect j => bool_decide (i = j)
  | CbUpdate i, CbUpdate j => bool_decide (i = j)
  | CbFn n _, CbFn m _ => bool_decide (n = m)
  | _, _ => false
  end.

Definition cb_add (f : callback) (l : list callback) : list callback :=
  if existsb (same_fn f) l then l else l ++ [f].
Definition cb_delete (f : callback) (l : list callback) : list callback :=
  filter (λ g, same_fn f g = false) l.

(** One [ref]: its [data] and [watchlist.get(getter)], [None] while the
    weak map has no entry for the getter. *)
Record ref_cell : Type := RefCell {
  data : value;
  callbacks : option (list callback);
}.

(** The closure [() => callbacks.delete(fn)] returned by [watch]. *)
Definition unwatch : Type := (getter_id * callback)%type.

(** What one call of [computed] or [effect] closes over: the user function,
    the getter of the internal ref (for [computed]), and [deps]. *)
Record instance : Type := Instance {
  inst_name : nat;
  inst_fn : value → prog;
  inst_getter : option getter_id;
  deps : list unwatch;
}.

(** The module state: [tracklist] (top first), the refs with their
    [watchlist] entry, the closures of the constructor calls, and the names
    of the user functions the engine invoked (oldest first). *)
Record state : Type := State {
  tracklist : list (list getter_id);
  refs : list ref_cell;
  instances : list instance;
  trace : list nat;
}.

Definition initial : state := State [] [] [] [].
Definition empty_ref : ref_cell := RefCell VUndefined None.
Definition empty_instance : instance := Instance 0 (λ _, Return VUndefined) None [].
Definition ref_at (s : state) (g : getter_id) : ref_cell := default empty_ref (refs s !! g).
Definition instance_at (s : state) (i : inst_id) : instance :=
  default empty_instance (instances s !! i).

Definition with_tracklist (f : list (list getter_id) → list (list getter_id)) (s : state)
  : state := State (f (tracklist s)) (refs s) (instances s) (trace s).
Definition with_ref (g : getter_id) (f : ref_cell → ref_cell) (s : state) : state :=
  State (tracklist s) (alter f g (refs s)) (instances s) (trace s).
Definition with_instance (i : inst_id) (f : instance → instance) (s : state) : state :=
  State (tracklist s) (refs s) (alter f i (instances s)) (trace s).
Definition record (name : nat) (s : state) : state :=
  State (tracklist s) (refs s) (instances s) (trace s ++ [name]).

Definition set_data (v : value) (r : ref_cell) : ref_cell := RefCell v (callbacks r).
Definition set_deps (d : list unwatch) (i : instance) : instance :=
  Instance (inst_name i) (inst_fn i) (inst_getter i) d.

(** [track(target)]: [tracklist[tracklist.length - 1]?.add(target)] *)
Definition track (g : getter_id) : state → state :=
  with_tracklist (λ t, match t with
                       | [] => []
                       | top :: rest => set_add g top :: rest
                       end).
Definition startTracking : state → state := with_tracklist (cons []).
(** [tracklist.pop() || new Set()] *)
Definition stopTracking (s : state) : list getter_id * state :=
  (default [] (head (tracklist s)), with_tracklist tail s).

(** [watch(target, fn)], followed by [deps.add] of the closure it returns *)
Definition watch (i : inst_id) (f : callback) (s : state) (g : getter_id) : state :=
  with_instance i (λ x, set_deps (deps x ++ [(g, f)]) x)
    (with_ref g (λ r, RefCell (data r) (Some (cb_add f (default [] (callbacks r))))) s).

(** [deps.forEach(fn => fn()); deps.clear()] *)
Definition clear (i : inst_id) (s : state) : state :=
  with_instance i (set_deps [])
    (foldl (λ s u, with_ref u.1 (λ r, RefCell (data r) (cb_delete u.2 <$> callbacks r)) s)
           s (deps (instance_at s i))).

(** [ref(value)] for a value that is not a function *)
Definition ref (v : value) (s : state) : getter_id * state :=
  (length (refs s),
   State (tracklist s) (refs s ++ [RefCell v None]) (instances s) (trace s)).

(** [getter()] *)
Definition getter (g : getter_id) (s : state) : value * state :=
  (data (ref_at s g), track g s).

Definition known_ref (s : state) (g : getter_id) : bool :=
  bool_decide (g < length (refs s)).
Definition known_instance (s : state) (i : inst_id) : bool :=
  bool_decide (i < length (instances s)).

Abbreviation result := (outcome state).

Fixpoint run (n : nat) (p : prog) (s : state) {struct n} : result value :=
  match n with
  | 0 => OutOfFuel
  | S n =>
      match p with
      | Return v => Normal v s
      | Throw e => Thrown e s
      | CallGetter g k =>
          if known_ref s g
          then let '(v, s') := getter g s in run n (k v) s'
          else Unsupported
      | CallSetter g f k =>
          if known_ref s g
          then let* _, s' <- setter n g f s in run n k s'
          else Unsupported
      | NewRef v k => let '(g, s') := ref v s in run n (k g) s'
      | NewRefFrom init k =>
          let* v, s' <- run n init s in
          let '(g, s'') := ref v s' in run n (k g) s''
      | NewComputed name f k =>
          let* r, s' <- computed n name f s in
          match r with
          | Pair (Accessor g) (Disposer i) => run n (k g i) s'
          | _ => Unsupported
          end
      | NewEffect name f rs k =>
          if forallb (known_ref s) (default [] rs) then
            let* r, s' <- effect n name f rs s in
            match r with
            | Disposer i => run n (k i) s'
            | _ => Unsupported
            end
          else Unsupported
      | CallClear i k =>
          if known_instance s i then run n k (clear i s) else Unsupported
      end
  end

(** [setter(fn)] of ref [g] *)
with setter (n : nat) (g : getter_id) (f : value → prog) (s : state) {struct n}
  : result unit :=
  match n with
  | 0 => OutOfFuel
  | S n =>
      let* v, s <- run n (f (data (ref_at s g))) s in
      let s := with_ref g (set_data v) s in
      dispatch n g v s
  end

(** [dispatch(target, value)] *)
with dispatch (n : nat) (target : getter_id) (v : value) (s : state) {struct n}
  : result unit :=
  match n with
  | 0 => OutOfFuel
  | S n =>
      match callbacks (ref_at s target) with
      | None => Normal tt s
      | Some l =>
          forEach (λ fn s,
                     match fn with
                     | CbEffect i => effect_run n i s
                     | CbUpdate i => update n i s
                     | CbFn name body =>
                         let* _, s <- run n (body v) (record name s) in Normal tt s
                     end) l s
      end
  end

(** the closure [effect] inside [effect(fn, refs)], for instance [i] *)
with effect_run (n : nat) (i : inst_id) (s : state) {struct n} : result unit :=
  match n with
  | 0 => OutOfFuel
  | S n =>
      let s := startTracking (clear i s) in
      let x := instance_at s i in
      let* _, s <- run n (inst_fn x VUndefined) (record (inst_name x) s) in
      let '(tracked, s) := stopTracking s in
      Normal tt (foldl (watch i (CbEffect i)) s tracked)
  end

(** the closure [update] inside [computed(fn)], for instance [i] *)
with update (n : nat) (i : inst_id) (s : state) {struct n} : result unit :=
  match n with
  | 0 => OutOfFuel
  | S n =>
      let s := startTracking (clear i s) in
      let x := instance_at s i in
      match inst_getter x with
      | None => Unsupported
      | Some g =>
          let* _, s <- setter n g (λ _, inst_fn x VUndefined) (record (inst_name x) s) in
          let '(tracked, s) := stopTracking s in
          Normal tt (foldl (watch i (CbUpdate i)) s tracked)
      end
  end

(** [effect(fn, refs)] *)
with effect (n : nat) (name : nat) (f : value → prog) (rs : option (list getter_id))
    (s : state) {struct n} : result returned :=
  match n with
  | 0 => OutOfFuel
  | S n =>
      let i := length (instances s) in
      let s := State (tracklist s) (refs s) (instances s ++ [Instance name f None []])
                     (trace s) in
      match rs with
      | Some (r :: rs') =>
          Normal (Disposer i) (foldl (watch i (CbFn name f)) s (r :: rs'))
      | _ =>
          let* _, s <- effect_run n i s in
          Normal (Disposer i) s
      end
  end

(** [computed(fn)] *)
with computed (n : nat) (name : nat) (f : value → prog) (s : state) {struct n}
  : result returned :=
  match n with
  | 0 => OutOfFuel
  | S n =>
      let '(g, s) := ref VUndefined s in
      let i := length (instances s) in
      let s := State (tracklist s) (refs s) (instances s ++ [Instance name f (Some g) []])
                     (trace s) in
      let* _, s <- update n i s in
      Normal (Pair (Accessor g) (Disposer i)) s
  end.

End ReactiveJs.

(** * Properties of [src/lib/signal.js] *)
Module SignalSpec.
Import SignalJs.

Definition subs (s : state) (c : cell_id) : list ctx_id := cell_subscriptions (cell_at s c).
Definition deps (s : state) (x : ctx_id) : list cell_id := dependencies (context_at s x).

(** Whether context [x] has read cell [c] since [x] was last disposed,
    according to a history. *)
Definition advance (x : ctx_id) (c : cell_id) (b : bool) (e : event) : bool :=
  match e with
  | Disposed y => if decide (y = x) then false else b
  | ReadBy y c' => if decide (y = x ∧ c' = c) then true else b
  | Ran _ => b
  end.
Definition live (x : ctx_id) (c : cell_id) (tr : list event) : bool :=
  foldl (advance x c) false tr.

(** How many times [fn] of [x] was called, and [x] was disposed, in a
    history. *)
Definition runs (x : ctx_id) (d : list event) : nat := count_occ event_eq_dec d (Ran x).
Definition disposals (x : ctx_id) (d : list event) : nat :=
  count_occ event_eq_dec d (Disposed x).

(** The states the engine moves between: the stack and the subscriber sets
    hold created contexts only, a context is in the subscriber set of
    exactly the cells it read since it was last disposed, and each of these
    cells is listed in its [dependencies]. *)
Record consistent (s : state) : Prop := Consistent {
  consistent_stack : ∀ x, x ∈ stack s → x < length (contexts s);
  consistent_live : ∀ c x, x ∈ subs s c ↔ live x c (trace s) = true;
  consistent_known : ∀ c x, x ∈ subs s c → x < length (contexts s);
  consistent_deps : ∀ c x, x ∈ subs s c → c ∈ deps s x;
}.

(** [s'] is reached from [s] with the events [d]. *)
Record step (s s' : state) (d : list event) : Prop := Step {
  step_consistent : consistent s';
  step_contexts : length (contexts s) ≤ length (contexts s');
  step_cells : length (cells s) ≤ length (cells s');
  step_trace : trace s' = trace s ++ d;
  step_fn : ∀ x, x < length (contexts s) → fn (context_at s' x) = fn (context_at s x);
}.

(** The state after the first part of [dispose]: the event, the loop over
    [context.dependencies], and [context.dependencies = []]. *)
Definition released (x : ctx_id) (s : state) : state :=
  let s := record (Disposed x) s in
  let s := detach x (dependencies (context_at s x)) s in
  with_context x (map_dependencies (λ _, [])) s.

(** No context ran more often than it was disposed. *)
Definition balanced (d : list event) : Prop := ∀ x, runs x d ≤ disposals x d.

(** What a call of the engine started in [s] guarantees when it ends, by
    returning or by raising: the final state is reached by a step whose
    events satisfy [P] ([P true] on return). *)
Definition post {A} (P : bool → list event → Prop) (s : state) (o : result A) : Prop :=
  match o with
  | Normal _ s' => ∃ d, step s s' d ∧ P true d
  | Thrown _ s' => ∃ d, step s s' d ∧ P false d
  | _ => True
  end.

Definition any_call : bool → list event → Prop := λ _ d, balanced d.
Definition dispose_call (x : ctx_id) : bool → list event → Prop :=
  λ _ d, ∃ d', d = Disposed x :: d' ∧ balanced d'.
Definition execute_call (x : ctx_id) : bool → list event → Prop :=
  λ b d, ∃ d', d = Disposed x :: d' ∧ balanced d ∧ (b = true → Ran x ∈ d').
Definition effect_call (x : ctx_id) : bool → list event → Prop :=
  λ b d, balanced d ∧ (b = true → Ran x ∈ d).

(** [value instanceof Function ? value(data) : value] in [write] *)
Definition next_value (n : nat) (c : cell_id) (a : write_arg) (s : state) : result ret :=
  match a with
  | Updater f => run n (f (data (cell_at s c))) s
  | Literal v => Normal (RVal v) s
  end.

(** [execute] returns for each context of [l] in turn, leading from [s] to
    [s']. *)
Inductive notified (n : nat) : list ctx_id → state → state → Prop :=
| notified_nil s : notified n [] s s
| notified_cons x l s s1 s2 :
    execute n x s = Normal tt s1 → notified n l s1 s2 → notified n (x :: l) s s2.

(** The events of one completed run of [x]. *)
Definition run_of (x : ctx_id) (d : list event) : Prop :=
  ∃ d', d = Disposed x :: d' ∧ Ran x ∈ d'.

(** [fn()] for an entry [fn] of [context.disposables] *)
Definition invoke (n : nat) (d : disposable) (s : state) : result unit :=
  match d with
  | DCall p => let* _, s <- run n p s in Normal tt s
  | DValue _ => Thrown type_error s
  end.

(** The three steps of a [dispose] that returns, as a derivation: the
    dependency edges are released, every child is torn down in the same
    way, the cleanups are invoked, and each list is cleared in its turn. *)
Inductive teardown : nat → ctx_id → state → state → Prop :=
| teardown_context n x s s1 s2 :
    teardown_each n (subscriptions (context_at (released x s) x)) (released x s) s1 →
    (let s1 := with_context x (map_subscriptions (λ _, [])) s1 in
     forEach (invoke n) (disposables (context_at s1 x)) s1 = Normal tt s2) →
    teardown (S n) x s (with_context x fresh_disposables s2)
with teardown_each : nat → list ctx_id → state → state → Prop :=
| teardown_nil n s : teardown_each n [] s s
| teardown_cons n y l s s1 s2 :
    teardown n y s s1 → teardown_each n l s1 s2 → teardown_each n (y :: l) s s2.

(** Functions that only read cells and return a value. *)
Inductive reads_only : prog → Prop :=
| reads_only_return v : reads_only (Return v)
| reads_only_read c k : (∀ v, reads_only (k v)) → reads_only (Read c k).

(** The values of the cells; for such a function, the number of nodes it
    goes through, the value it returns, and whether the cells it reads are
    among the first [b]. *)
Definition values (s : state) : list value := data <$> cells s.
Definition value_at (vs : list value) (c : cell_id) : value := default VUndefined (vs !! c).
Fixpoint steps (p : prog) (vs : list value) : nat :=
  match p with
  | Read c k => S (steps (k (value_at vs c)) vs)
  | _ => 0
  end.
Fixpoint value_of (p : prog) (vs : list value) : value :=
  match p with
  | Read c k => value_of (k (value_at vs c)) vs
  | Return v => v
  | _ => VUndefined
  end.
Fixpoint reads_below (p : prog) (vs : list value) (b : nat) : Prop :=
  match p with
  | Read c k => c < b ∧ reads_below (k (value_at vs c)) vs b
  | _ => True
  end.
(** The cells such a function reads, in order, and the events of these
    reads when the top of the stack is [top]. *)
Fixpoint reads (p : prog) (vs : list value) : list cell_id :=
  match p with
  | Read c k => c :: reads (k (value_at vs c)) vs
  | _ => []
  end.
Definition read_events (top : option ctx_id) (cs : list cell_id) : list event :=
  match top with
  | Some x => ReadBy x <$> cs
  | None => []
  end.

(** The state in which the script [p] leaves the freshly loaded module. *)
Definition state_after (n : nat) (p : prog) : state :=
  default initial (final (run n p initial)).
Definition state_of {A} (o : result A) : state := default initial (final o).

(** The scenarios of [signal.test.js].  A counter of the test is a cell
    that the body updates with [n => n + 1], which does not subscribe. *)
Definition increment (counter : cell_id) (k : prog) : prog :=
  Update counter (λ v, Return match v with VNum z => VNum (z + 1) | _ => VNaN end) k.
Definition data_after (n : nat) (p : prog) : list value := values (state_after n p).

(** "effects react to signal changes" *)
Definition test_react (k : cell_id → prog) : prog :=
  NewSignal (VNum 0) (λ calls, NewSignal (VNum 0) (λ value,
  NewEffect (λ _, increment calls (Read value (λ _, Return VUndefined))) (k value))).
(** "effects can be nested" and, with a cleanup that resets the counter,
    "nested effects auto dispose" *)
Definition test_nested (cleanup : cell_id → ret) (k : cell_id → prog) : prog :=
  NewSignal (VNum 0) (λ outer, NewSignal (VNum 0) (λ inner, NewSignal (VNum 0) (λ value,
  NewEffect (λ _, increment outer (Read value (λ _,
               NewEffect (λ _, increment inner
                                 match cleanup inner with
                                 | RVal v => Return v
                                 | RFn p => ReturnFn p
                                 end)
                 (Return VUndefined))))
    (k value)))).
(** "nested effects react to signal changes independent of parent" *)
Definition test_independent (k : cell_id → prog) : prog :=
  NewSignal (VNum 0) (λ outer, NewSignal (VNum 0) (λ inner, NewSignal (VNum 0) (λ value,
  NewEffect (λ _, increment outer
               (NewEffect (λ _, increment inner (Read value (λ _, Return VUndefined)))
                  (Return VUndefined)))
    (k value)))).
(** "computed updates with dependencies" *)
Definition test_computed (k : cell_id → cell_id → prog) : prog :=
  NewSignal (VStr "foo") (λ value,
  NewComputed (Read value (λ v, Return v)) (λ computedValue, k value computedValue)).

(** A subscriber that reads [A] or [B] depending on [C]. *)
Definition branch_body (A B C : cell_id) : ctx_id → prog :=
  λ _, Read C (λ v, match v with
                    | VBool true => Read A (λ _, Return VUndefined)
                    | _ => Read B (λ _, Return VUndefined)
                    end).
Definition branch_setup (a b : value) (k : prog) : prog :=
  NewSignal a (λ A, NewSignal b (λ B, NewSignal (VBool true) (λ C,
  NewEffect (branch_body A B C) k))).
(** The state once [C] has been switched. *)
Definition switched (a b : value) : state :=
  state_after 11 (branch_setup a b (Write 2 (VBool false) (Return VUndefined))).
(** [C] is switched, then the cell that is no longer read is written. *)
Definition rediscovery_program (a b a' : value) : prog :=
  branch_setup a b (Write 2 (VBool false) (Write 0 a' (Return VUndefined))).

(** A subscriber that writes the cell it has just read. *)
Definition self_triggering (A : cell_id) : ctx_id → prog :=
  λ _, Read A (λ v, if strict_eq v (VNum 0)
                    then Write A (VNum 1) (Return VUndefined)
                    else Return VUndefined).

(** A subscriber that reads [A] and then calls the [dispose] it was given. *)
Definition self_disposing (A : cell_id) : ctx_id → prog :=
  λ dispose, Read A (λ _, CallDispose dispose (Return VUndefined)).

(** A subscriber of [s] whose cleanup raises; then a subscriber that
    catches what the construction of a nested one raises, and reads [t]. *)
Definition corrupting_program (cleanup : prog) : prog :=
  NewSignal (VNum 0) (λ s, NewSignal (VNum 0) (λ t,
  NewEffect (λ _, Read s (λ _, ReturnFn cleanup))
    (NewEffect (λ _,
       Try (NewEffect (λ _, Write s (VNum 1) (Return VUndefined)) (Return VUndefined))
           (λ _, Return VUndefined)
           (Read t (λ _, Return VUndefined)))
       (Return VUndefined)))).

(** Two subscribers of one cell; the first one, given the value 1, disposes
    the second (context 1) before the engine gets to it. *)
Definition fan_out_program : prog :=
  NewSignal (VNum 0) (λ c,
  NewEffect (λ _, Read c (λ v, if strict_eq v (VNum 1)
                               then CallDispose 1 (Return VUndefined)
                               else Return VUndefined))
    (NewEffect (λ _, Read c (λ _, Return VUndefined)) (Return VUndefined))).

(** Three nested subscribers, each reading the cell. *)
Definition nested_program : prog :=
  NewSignal (VNum 0) (λ c,
  NewEffect (λ _, Read c (λ _,
    NewEffect (λ _, Read c (λ _,
      NewEffect (λ _, Read c (λ _, Return VUndefined)) (Return VUndefined)))
    (Return VUndefined)))
  (Return VUndefined)).

(** ** Contexts that nothing runs *)

(** The events [d] leave context [y] alone: its function is not called and
    no read subscribes it. *)
Definition quiet (y : ctx_id) (d : list event) : Prop :=
  (Ran y ∉ d) ∧ ∀ c, ReadBy y c ∉ d.

(** A created context that is not on the stack and in no subscriber set. *)
Definition inert (s : state) (y : ctx_id) : Prop :=
  y < length (contexts s) ∧ (y ∉ stack s) ∧ ∀ c, y ∉ subs s c.

(** What a call started in [s] guarantees when it ends, by returning or by
    raising: the stack it leaves is a suffix of the stack it found, no
    context is lost, and every inert context among [X] is still inert and
    was left alone. *)
Definition contained {A} (X : ctx_id → Prop) (s : state) (o : result A) : Prop :=
  match o with
  | Normal _ s' | Thrown _ s' =>
      stack s' `suffix_of` stack s ∧
      length (contexts s) ≤ length (contexts s') ∧
      ∃ d, trace s' = trace s ++ d ∧
           ∀ y, inert s y → X y → inert s' y ∧ quiet y d
  | _ => True
  end.
Definition any_context : ctx_id → Prop := λ _, True.

(** The state in which the script [p], started in [s], ends. *)
Definition state_after_from (s : state) (n : nat) (p : prog) : state :=
  default s (final (run n p s)).

(** The state after the scripts of [l], each given its fuel, run one after
    the other from [s]; a script that does not end within its fuel is left
    out. *)
Fixpoint after_scripts (s : state) (l : list (nat * prog)) : state :=
  match l with
  | [] => s
  | (n, p) :: l' => after_scripts (state_after_from s n p) l'
  end.

(** ** Derived cells *)

(** What [execute] stores when the function returned [undefined]. *)
Definition no_cleanup : disposable := DCall (Return VUndefined).

(** The context [x] of the derived cell [c] of [f] between two runs, when
    nobody has subscribed to [c]: it has no child and no cleanup that does
    anything. *)
Definition derived (s : state) (x : ctx_id) (c : cell_id) (f : prog) : Prop :=
  x < length (contexts s) ∧ c < length (cells s) ∧
  fn (context_at s x) = (λ _, seq f (write_result c)) ∧
  parentContext (context_at s x) ≠ Some x ∧
  subscriptions (context_at s x) = [] ∧
  Forall (λ d, d = no_cleanup) (disposables (context_at s x)) ∧
  subs s c = [].

(** Three subscribers of one cell; the second raises when it reads 1. *)
Definition raising_program : prog :=
  NewSignal (VNum 0) (λ c,
  NewEffect (λ _, Read c (λ _, Return VUndefined))
    (NewEffect (λ _, Read c (λ v, if strict_eq v (VNum 1)
                                  then Throw (VStr "boom")
                                  else Return VUndefined))
       (NewEffect (λ _, Read c (λ _, Return VUndefined)) (Return VUndefined)))).

(** ** The calls a call makes *)

(** A call of one of the functions of the engine: its fuel, its arguments,
    and the state it starts in. *)
Inductive call : Type :=
| CRun (n : nat) (p : prog) (s : state)
| CWrite (n : nat) (c : cell_id) (a : write_arg) (s : state)
| CExecute (n : nat) (x : ctx_id) (s : state)
| CDispose (n : nat) (x : ctx_id) (s : state)
| CEffect (n : nat) (f : ctx_id → prog) (s : state)
| CComputed (n : nat) (f : prog) (s : state).

(** [subcall C C']: the call [C] makes the call [C'], one constructor for
    each place of the engine where a call is made.  A call after another
    one is made in the state the earlier one returned in; the calls of a
    [forEach] are made as long as the earlier ones return. *)
Inductive subcall : call → call → Prop :=
| sub_read n c k s :
    known_cell s c = true →
    subcall (CRun (S n) (Read c k) s) (CRun n (k (read c s).1) (read c s).2)
| sub_write n c v k s :
    known_cell s c = true →
    subcall (CRun (S n) (Write c v k) s) (CWrite n c (Literal v) s)
| sub_write_then n c v k s s' :
    known_cell s c = true → write n c (Literal v) s = Normal tt s' →
    subcall (CRun (S n) (Write c v k) s) (CRun n k s')
| sub_update n c f k s :
    known_cell s c = true →
    subcall (CRun (S n) (Update c f k) s) (CWrite n c (Updater f) s)
| sub_update_then n c f k s s' :
    known_cell s c = true → write n c (Updater f) s = Normal tt s' →
    subcall (CRun (S n) (Update c f k) s) (CRun n k s')
| sub_signal n v k s :
    subcall (CRun (S n) (NewSignal v k) s) (CRun n (k (signal v s).1) (signal v s).2)
| sub_effect n f k s :
    subcall (CRun (S n) (NewEffect f k) s) (CEffect n f s)
| sub_effect_then n f k s r s' :
    effect n f s = Normal r s' →
    subcall (CRun (S n) (NewEffect f k) s) (CRun n k s')
| sub_computed n f k s :
    subcall (CRun (S n) (NewComputed f k) s) (CComputed n f s)
| sub_computed_then n f k s c s' :
    computed n f s = Normal (Accessor c) s' →
    subcall (CRun (S n) (NewComputed f k) s) (CRun n (k c) s')
| sub_dispose n d k s :
    known_context s d = true →
    subcall (CRun (S n) (CallDispose d k) s) (CDispose n d s)
| sub_dispose_then n d k s s' :
    known_context s d = true → dispose n d s = Normal tt s' →
    subcall (CRun (S n) (CallDispose d k) s) (CRun n k s')
| sub_try n b h k s :
    subcall (CRun (S n) (Try b h k) s) (CRun n b s)
| sub_try_then n b h k s r s' :
    run n b s = Normal r s' →
    subcall (CRun (S n) (Try b h k) s) (CRun n k s')
| sub_try_catch n b h k s e s' :
    run n b s = Thrown e s' →
    subcall (CRun (S n) (Try b h k) s) (CRun n (h e) s')
| sub_try_caught n b h k s e s' r s'' :
    run n b s = Thrown e s' → run n (h e) s' = Normal r s'' →
    subcall (CRun (S n) (Try b h k) s) (CRun n k s'')
| sub_updater n c f s :
    subcall (CWrite (S n) c (Updater f) s) (CRun n (f (data (cell_at s c))) s)
| sub_fan_out n c a s v s1 l1 x l2 t :
    next_value n c a s = Normal (RVal v) s1 →
    strict_eq v (data (cell_at s1 c)) = false →
    subs s1 c = l1 ++ x :: l2 →
    forEach (execute n) l1 (with_cell c (set_data v) s1) = Normal tt t →
    subcall (CWrite (S n) c a s) (CExecute n x t)
| sub_execute_dispose n x s :
    subcall (CExecute (S n) x s) (CDispose n x s)
| sub_execute_run n x s s1 :
    dispose n x s = Normal tt s1 →
    let s2 := match parentContext (context_at s1 x) with
              | Some p => with_context p (map_subscriptions (λ l, l ++ [x])) s1
              | None => s1
              end in
    let s3 := startTracking x s2 in
    subcall (CExecute (S n) x s) (CRun n (fn (context_at s3 x) x) (record (Ran x) s3))
| sub_dispose_child n x s l1 y l2 t :
    subscriptions (context_at (released x s) x) = l1 ++ y :: l2 →
    forEach (dispose n) l1 (released x s) = Normal tt t →
    subcall (CDispose (S n) x s) (CDispose n y t)
| sub_dispose_cleanup n x s s1 l1 p l2 t :
    forEach (dispose n) (subscriptions (context_at (released x s) x)) (released x s)
    = Normal tt s1 →
    let s1' := with_context x (map_subscriptions (λ _, [])) s1 in
    disposables (context_at s1' x) = l1 ++ DCall p :: l2 →
    forEach (invoke n) l1 s1' = Normal tt t →
    subcall (CDispose (S n) x s) (CRun n p t)
| sub_construct n f s :
    subcall (CEffect (S n) f s)
      (CExecute n (length (contexts s))
         (State (stack s) (cells s)
            (contexts s ++ [Context f (getCurrentContext s) [] [] [] 0]) (trace s)))
| sub_derive n f s :
    subcall (CComputed (S n) f s)
      (CEffect n (λ _, seq f (write_result (signal VUndefined s).1)) (signal VUndefined s).2).

(** The calls made in the course of a call. *)
Inductive reaches : call → call → Prop :=
| reaches_here C : reaches C C
| reaches_step C C' C'' : subcall C C' → reaches C' C'' → reaches C C''.

(** The call is a write that stores a new value and finds [x] among the
    subscribers of the cell: the fan-out of the write runs [x]. *)
Definition fans_out_to (x : ctx_id) (C : call) : Prop :=
  match C with
  | CWrite (S n) c a s =>
      ∃ v s1, next_value n c a s = Normal (RVal v) s1 ∧
              strict_eq v (data (cell_at s1 c)) = false ∧ x ∈ subs s1 c
  | _ => False
  end.

(** In the course of the call, a write fans out to [x]. *)
Definition retriggers (x : ctx_id) (C : call) : Prop :=
  ∃ C', reaches C C' ∧ fans_out_to x C'.

(** The state in which the construction of a subscriber with function [f],
    started in [s], calls [f]: the context is created, disposed a first
    time, added to the children of its parent and pushed, and its run is
    recorded. *)
Definition entered (f : ctx_id → prog) (s : state) : state :=
  let x := length (contexts s) in
  let sb := State (stack s) (cells s)
              (contexts s ++ [Context f (getCurrentContext s) [] [] [] 0]) (trace s) in
  let s1 := with_context x fresh_disposables
              (with_context x (map_subscriptions (λ _, [])) (released x sb)) in
  let s2 := match parentContext (context_at s1 x) with
            | Some p => with_context p (map_subscriptions (λ l, l ++ [x])) s1
            | None => s1
            end in
  record (Ran x) (startTracking x s2).

(** What a call started in [s] has done when it ends, by returning or by
    raising, and did not run [x]: no context is lost, and the history has
    grown by events other than a run of [x]. *)
Definition spared {A} (x : ctx_id) (s : state) (o : result A) : Prop :=
  match o with
  | Normal _ s' | Thrown _ s' =>
      length (contexts s) ≤ length (contexts s') ∧
      ∃ d, trace s' = trace s ++ d ∧ Ran x ∉ d
  | _ => True
  end.

(** A function that reads [a], writes [b], constructs a subscriber of [a],
    and goes on with [k]; with [k] returning a cleanup it is the function
    of a subscriber, with [k] returning the value read that of a derived
    cell. *)
Definition busy_body (a b : cell_id) (k : value → prog) : prog :=
  Read a (λ v, Write b (VNum 1)
    (NewEffect (λ _, Read a (λ _, Return VUndefined)) (k v))).

End SignalSpec.

(** * Properties of [src/lib/reactive.js] *)
Module ReactiveSpec.
Import ReactiveJs.

(** Whether the function object [cb] is in [watchlist.get(getter)]. *)
Definition watches (s : state) (g : getter_id) (cb : callback) : bool :=
  existsb (same_fn cb) (default [] (callbacks (ref_at s g))).

(** Functions that only call getters and return a value. *)
Inductive reads_only : prog → Prop :=
| reads_only_return v : reads_only (Return v)
| reads_only_getter g k : (∀ v, reads_only (k v)) → reads_only (CallGetter g k).

(** The number of nodes such a function goes through, the value it
    returns, and whether the getters it calls exist, for given refs. *)
Fixpoint steps (p : prog) (rs : list ref_cell) : nat :=
  match p with
  | CallGetter g k => S (steps (k (data (default empty_ref (rs !! g)))) rs)
  | _ => 1
  end.
Fixpoint value_of (p : prog) (rs : list ref_cell) : value :=
  match p with
  | CallGetter g k => value_of (k (data (default empty_ref (rs !! g)))) rs
  | Return v => v
  | _ => VUndefined
  end.
Fixpoint getters_known (p : prog) (rs : list ref_cell) : Prop :=
  match p with
  | CallGetter g k => g < length rs ∧ getters_known (k (data (default empty_ref (rs !! g)))) rs
  | _ => True
  end.

(** A watcher that is a user function which only reads, when it is called
    with [v] on the refs [rs] with fuel [n]; and the name of such a
    function. *)
Definition lazy_reader (n : nat) (v : value) (rs : list ref_cell) (cb : callback) : Prop :=
  match cb with
  | CbFn _ body => reads_only (body v) ∧ getters_known (body v) rs ∧ steps (body v) rs ≤ n
  | _ => False
  end.
Definition fn_name (cb : callback) : nat :=
  match cb with
  | CbFn name _ => name
  | CbEffect i | CbUpdate i => i
  end.

Definition state_after (n : nat) (p : prog) : state :=
  default initial (final (run n p initial)).
Definition state_of {A} (o : result A) : state := default initial (final o).

(** The scenario "reactive values are watchable" of the test suite: the
    four subscribers are the functions 1 to 4, the function of the derived
    ref is 10. *)
Definition test_watchable (k : getter_id → prog) : prog :=
  NewRef (VStr "foo") (λ r,
  NewComputed 10 (λ _, CallGetter r (λ v, Return v)) (λ c _,
  NewEffect 1 (λ _, CallGetter r (λ _, Return VUndefined)) None (λ _,
  NewEffect 2 (λ _, Return VUndefined) (Some [r]) (λ _,
  NewEffect 3 (λ _, CallGetter c (λ _, Return VUndefined)) None (λ _,
  NewEffect 4 (λ _, Return VUndefined) (Some [c]) (λ _, k r)))))).

(** A ref, a tracking subscriber that reads it, and a setter call that
    stores the value the ref already holds. *)
Definition same_value_program : prog :=
  NewRef (VNum 0) (λ r,
  NewEffect 1 (λ _, CallGetter r (λ _, Return VUndefined)) None (λ _,
  CallSetter r (λ v, Return v) (Return VUndefined))).

(** Two refs and a lazy subscriber of the first, whose function reads the
    second. *)
Definition lazy_program (k : prog) : prog :=
  NewRef (VNum 0) (λ x, NewRef (VNum 7) (λ y,
  NewEffect 1 (λ _, CallGetter y (λ _, Return VUndefined)) (Some [x]) (λ _, k))).

(** ** Tracking *)

(** The getters a function that only reads calls, in order, and the set a
    tracking frame holds after these calls. *)
Fixpoint getters (p : prog) (rs : list ref_cell) : list getter_id :=
  match p with
  | CallGetter g k => g :: getters (k (data (default empty_ref (rs !! g)))) rs
  | _ => []
  end.
Definition tracked_set (frame : list getter_id) (l : list getter_id) : list getter_id :=
  foldl (λ acc g, set_add g acc) frame l.

(** Functions that call getters and then raise [e]. *)
Inductive reads_then_throws (e : value) : prog → Prop :=
| reads_then_throws_throw : reads_then_throws e (Throw e)
| reads_then_throws_getter g k :
    (∀ v, reads_then_throws e (k v)) → reads_then_throws e (CallGetter g k).

(** The state in which the script [p], started in [s], ends. *)
Definition state_after_from (s : state) (n : nat) (p : prog) : state :=
  default s (final (run n p s)).

(** ** Dispatch *)

(** What [dispatch] does for one watcher: [fn(value)]. *)
Definition call_watcher (n : nat) (v : value) (cb : callback) (s : state) : result unit :=
  match cb with
  | CbEffect i => effect_run n i s
  | CbUpdate i => update n i s
  | CbFn name body => let* _, s <- run n (body v) (record name s) in Normal tt s
  end.

(** The getters a watched user function calls when it is called with
    [v]. *)
Definition fn_getters (v : value) (rs : list ref_cell) (cb : callback) : list getter_id :=
  match cb with
  | CbFn _ body => getters (body v) rs
  | _ => []
  end.

(** The tracking frames once the getters of [l] were called: [track] adds
    them to the innermost frame, when there is one. *)
Definition tracked (l : list getter_id) (frames : list (list getter_id))
  : list (list getter_id) :=
  match frames with
  | [] => []
  | top :: rest => tracked_set top l :: rest
  end.

(** The refs and the lazy subscriber of [lazy_program], followed by a
    tracking subscriber whose function sets the first ref. *)
Definition lazy_inside_tracking : prog :=
  lazy_program
    (NewEffect 2 (λ _, CallSetter 0 (λ _, Return (VNum 1)) (Return VUndefined)) None
       (λ _, Return VUndefined)).

(** Code that never names the getter or the setter of ref [g]: the refs it
    names are others, among them the ones it creates. *)
Inductive avoids (g : getter_id) : prog → Prop :=
| avoids_return v : avoids g (Return v)
| avoids_throw e : avoids g (Throw e)
| avoids_getter g' k :
    g' ≠ g → (∀ v, avoids g (k v)) → avoids g (CallGetter g' k)
| avoids_setter g' f k :
    g' ≠ g → (∀ v, avoids g (f v)) → avoids g k → avoids g (CallSetter g' f k)
| avoids_ref v k :
    (∀ g', g' ≠ g → avoids g (k g')) → avoids g (NewRef v k)
| avoids_ref_from init k :
    avoids g init → (∀ g', g' ≠ g → avoids g (k g')) → avoids g (NewRefFrom init k)
| avoids_computed name f k :
    (∀ v, avoids g (f v)) → (∀ g' i, g' ≠ g → avoids g (k g' i)) →
    avoids g (NewComputed name f k)
| avoids_effect name f rs k :
    (∀ v, avoids g (f v)) → g ∉ default [] rs → (∀ i, avoids g (k i)) →
    avoids g (NewEffect name f rs k)
| avoids_clear i k : avoids g k → avoids g (CallClear i k).

(** ** Derived refs *)

(** The getters that [p] calls on the refs [rs] are among the first [b]. *)
Definition reads_below (p : prog) (rs : list ref_cell) (b : nat) : Prop :=
  Forall (λ g, g < b) (getters p rs).

(** The closure [update] of the derived ref [gi] of the function [name],
    instance [i], between two updates, when nobody watches [gi]. *)
Definition derived_ref (s : state) (i : inst_id) (gi : getter_id) (name : nat)
    (f : value → prog) : Prop :=
  i < length (instances s) ∧ gi < length (refs s) ∧
  inst_fn (instance_at s i) = f ∧ inst_name (instance_at s i) = name ∧
  inst_getter (instance_at s i) = Some gi ∧
  default [] (callbacks (ref_at s gi)) = [] ∧
  gi ∉ (deps (instance_at s i)).*1.

End ReactiveSpec.

(** * [html.js]: paths into a template

    [src/unnamed/part_001] is [html.js] over [signal.js].  A template is
    parsed once; each gap is recorded as a token with the path of its node,
    and the path is resolved again in every copy of the template.  The path
    functions are embedded over the part of the document they read. *)
Module HtmlJs.

Abbreviation node_id := nat.
Abbreviation attr_id := nat.

(** What the two functions use of a DOM node: [parentNode] ([None] for
    [null]), [childNodes], and the [Attr] objects of [attributes]. *)
Record dom_node : Type := DomNode {
  parentNode : option node_id;
  childNodes : list node_id;
  attributes : list attr_id;
}.

(** The nodes of the document, by handle. *)
Definition dom : Type := list dom_node.
Definition orphan : dom_node := DomNode None [] [].
Definition node_at (d : dom) (n : node_id) : dom_node := default orphan (d !! n).

(** [TokenType] *)
Inductive token_type : Type := Attribute | Element | Text.

(** [Token] *)
Record token : Type := Token {
  type : token_type;
  indecies : list nat;
  path : list Z;
}.

(** [array.indexOf(x)]: the first index of [x], or [-1]. *)
Definition indexOf (l : list nat) (x : nat) : Z :=
  match list_find (λ y, y = x) l with
  | Some (i, _) => Z.of_nat i
  | None => (-1)%Z
  end.

(** [list[i]] for a number [i]: [None] is [undefined]. *)
Definition item {A} (l : list A) (i : Z) : option A :=
  if (0 <=? i)%Z then l !! Z.to_nat i else None.

(** The loop of [createPath]; [None] when [n] iterations do not reach a
    node without parent. *)
Fixpoint createPath_loop (n : nat) (d : dom) (node : node_id) (path : list Z)
  : option (list Z) :=
  match n with
  | 0 => None
  | S n =>
      match parentNode (node_at d node) with
      | Some p =>
          createPath_loop n d p (path ++ [indexOf (childNodes (node_at d p)) node])
      | None => Some path
      end
  end.

(** [createPath(node, index = -1)] *)
Definition createPath (n : nat) (d : dom) (node : node_id) (index : Z) : option (list Z) :=
  createPath_loop n d node (if (0 <=? index)%Z then [index] else []).

(** What [getNodeByToken] evaluates to: a node, an [Attr], [undefined], or
    the [TypeError] of reading a property of [undefined]. *)
Inductive found : Type :=
| FNode (n : node_id)
| FAttr (a : attr_id)
| FUndefined
| FTypeError.

(** [(childNode, i) => childNode.childNodes[i]] *)
Definition child (d : dom) (i : Z) (childNode : found) : found :=
  match childNode with
  | FNode n =>
      match item (childNodes (node_at d n)) i with
      | Some c => FNode c
      | None => FUndefined
      end
  | _ => FTypeError
  end.

(** [getNodeByToken(root, token)] *)
Definition getNodeByToken (d : dom) (root : node_id) (t : token) : found :=
  let p := match type t with Attribute => drop 1 (path t) | _ => path t end in
  let node := foldr (child d) (FNode root) p in
  match type t with
  | Attribute =>
      match node with
      | FNode n =>
          match path t with
          | i :: _ =>
              match item (attributes (node_at d n)) i with
              | Some a => FAttr a
              | None => FUndefined
              end
          | [] => FUndefined
          end
      | _ => FTypeError
      end
  | _ => node
  end.

(** Every node is among the [childNodes] of its [parentNode]. *)
Definition linked (d : dom) : Prop :=
  ∀ n p, parentNode (node_at d n) = Some p → n ∈ childNodes (node_at d p).

(** [root] is [k] parents above [node] and has no parent. *)
Fixpoint below (d : dom) (k : nat) (node root : node_id) : Prop :=
  match k with
  | 0 => node = root ∧ parentNode (node_at d root) = None
  | S k => ∃ p, parentNode (node_at d node) = Some p ∧ below d k p root
  end.

(** [f] and [g] take the nodes under [root] and their attributes to a deep
    copy, as [document.importNode(content, true)] makes one: the copy of a
    node has the copies of its children and of its attributes, in order. *)
Definition copied (d : dom) (root : node_id) (f : node_id → node_id)
    (g : attr_id → attr_id) : Prop :=
  ∀ n k, below d k n root →
         childNodes (node_at d (f n)) = f <$> childNodes (node_at d n) ∧
         attributes (node_at d (f n)) = g <$> attributes (node_at d n).

(** A document of four nodes: node 0 has the children 1 and 2, node 2 has
    the child 3, and node 3 has the attributes 7 and 8. *)
Definition sample : dom :=
  [DomNode None [1; 2] []; DomNode (Some 0) [] []; DomNode (Some 0) [3] [];
   DomNode (Some 2) [] [7; 8]].

(** The same document followed by a deep copy of it: node [n + 4] is the
    copy of node [n], attribute [a + 10] the copy of attribute [a]. *)
Definition sample_with_copy : dom :=
  sample ++
  [DomNode None [5; 6] []; DomNode (Some 4) [] []; DomNode (Some 4) [7] [];
   DomNode (Some 6) [] [17; 18]].

End HtmlJs.

(** * The earlier [html.js]

    [src/unnamed/part_000] is [html.js] over [reactive.js]: [zip], and the
    two functions that [html] calls for every element to bind its event
    attributes and to collect it in [refs]. *)
Module HtmlReactiveJs.

(** The loop of [zip]; an item is [None] where the array holds
    [undefined], and the result is [None] when [n] iterations do not end
    the loop. *)
Fixpoint zip_loop {A} (n : nat) (left right : list A) (len i : nat)
    (items : list (option A)) : option (nat * list (option A)) :=
  match n with
  | 0 => None
  | S n =>
      if bool_decide (i < len)
      then zip_loop n left right len (i + 1) (items ++ [left !! i; right !! i])
      else Some (i, items)
  end.

(** [zip(left, right)] *)
Definition zip {A} (left right : list A) : option (list (option A)) :=
  let len := length left `min` length right in
  '(i, items) ← zip_loop (S len) left right len 0 [];
  Some (items ++ [left !! i]).

(** An [Attr], as its name and its value. *)
Abbreviation attr := (string * string)%type.

(** An element, as [processEvents] and [processRefs] use it: its handle,
    the live [attributes] in their order, and the listeners added so far,
    [(type, key)] for [addEventListener(type, tokens[key])]. *)
Record element : Type := Element {
  handle : nat;
  attributes : list attr;
  listeners : list (string * string);
}.

(** [name.startsWith('@')] and [name.substring(1)] *)
Definition is_event (name : string) : bool := String.prefix "@" name.
Definition substring1 (name : string) : string :=
  match name with
  | String _ rest => rest
  | EmptyString => EmptyString
  end.

(** [node.removeAttribute(name)]: the first attribute of that name goes. *)
Fixpoint remove_named (name : string) (l : list attr) : list attr :=
  match l with
  | [] => []
  | a :: l' => if String.eqb a.1 name then l' else a :: remove_named name l'
  end.
Definition removeAttribute (name : string) (node : element) : element :=
  Element (handle node) (remove_named name (attributes node)) (listeners node).
Definition addEventListener (type key : string) (node : element) : element :=
  Element (handle node) (attributes node) (listeners node ++ [(type, key)]).

(** The loop [for (const attribute of node.attributes)] of [processEvents]:
    the iterator of the live collection is at index [i], and ends when
    that is no index of the collection as it is then.  [None] when [n]
    iterations do not end the loop. *)
Fixpoint processEvents_loop (n : nat) (i : nat) (node : element) : option element :=
  match n with
  | 0 => None
  | S n =>
      match attributes node !! i with
      | None => Some node
      | Some attribute =>
          processEvents_loop n (i + 1)
            (if is_event attribute.1
             then addEventListener (substring1 attribute.1) attribute.2
                    (removeAttribute attribute.1 node)
             else node)
      end
  end.

(** [processEvents(node, tokens)] *)
Definition processEvents (n : nat) (node : element) : option element :=
  processEvents_loop n 0 node.

(** [node.getAttribute(name)]: [None] is [null]. *)
Definition getAttribute (name : string) (node : element) : option string :=
  snd <$> find (λ a : attr, String.eqb a.1 name) (attributes node).

(** What [refs] holds under a key: an element, by its handle, or what
    [Object.prototype] holds under a name; or an array of these. *)
Inductive member : Type :=
| MElement (n : nat)
| MInherited (key : string).
Inductive ref_entry : Type :=
| One (m : member)
| Many (l : list member).

(** The own properties of the object [refs], in the order of their
    creation. *)
Definition refs_obj : Type := list (string * ref_entry).
Definition get_own (refs : refs_obj) (key : string) : option ref_entry :=
  snd <$> find (λ p : string * ref_entry, String.eqb p.1 key) refs.

(** The property names of [Object.prototype], which [refs = {}] inherits. *)
Definition object_prototype_keys : list string :=
  ["constructor"; "__defineGetter__"; "__defineSetter__"; "hasOwnProperty";
   "__lookupGetter__"; "__lookupSetter__"; "isPrototypeOf"; "propertyIsEnumerable";
   "toString"; "valueOf"; "__proto__"; "toLocaleString"]%string.
Definition inherited (key : string) : bool :=
  existsb (String.eqb key) object_prototype_keys.

(** [refs[key] = entry] for an own property, or for a name that is not
    [__proto__]. *)
Fixpoint set_own (key : string) (entry : ref_entry) (refs : refs_obj) : refs_obj :=
  match refs with
  | [] => [(key, entry)]
  | p :: refs' =>
      if String.eqb p.1 key then (key, entry) :: refs' else p :: set_own key entry refs'
  end.

(** [processRefs(node, refs)].  [None] marks what is left out: the key
    [__proto__] while it is no own property, where the assignment replaces
    the prototype of [refs]. *)
Definition processRefs (node : element) (refs : refs_obj) : option (element * refs_obj) :=
  match getAttribute "ref" node with
  | None => Some (node, refs)
  | Some refKey =>
      let node := removeAttribute "ref" node in
      match get_own refs refKey with
      | Some (Many l) => Some (node, set_own refKey (Many (l ++ [MElement (handle node)])) refs)
      | Some (One m) => Some (node, set_own refKey (Many [m; MElement (handle node)]) refs)
      | None =>
          if inherited refKey then
            if String.eqb refKey "__proto__" then None
            else Some (node, set_own refKey
                               (Many [MInherited refKey; MElement (handle node)]) refs)
          else Some (node, set_own refKey (One (MElement (handle node))) refs)
      end
  end.

(** The calls of [processRefs] that [html] makes, one for each element in
    the order of the tree walker. *)
Fixpoint processRefs_each (nodes : list element) (refs : refs_obj)
  : option (list element * refs_obj) :=
  match nodes with
  | [] => Some ([], refs)
  | node :: nodes' =>
      '(node', refs') ← processRefs node refs;
      '(nodes'', refs'') ← processRefs_each nodes' refs';
      Some (node' :: nodes'', refs'')
  end.

(** What [refs] holds under a key once the elements with the handles [ns]
    have been given this key. *)
Definition collected (ns : list nat) : option ref_entry :=
  match ns with
  | [] => None
  | [n] => Some (One (MElement n))
  | _ => Some (Many (MElement <$> ns))
  end.

(** The handles of the elements of [nodes] whose attribute [ref] is [key],
    in their order. *)
Definition has_ref (key : string) (node : element) : bool :=
  match getAttribute "ref" node with
  | Some k => String.eqb k key
  | None => false
  end.
Definition handles_with_ref (key : string) (nodes : list element) : list nat :=
  handle <$> List.filter (has_ref key) nodes.

(** The attributes of [<button class="x" @click=${f} @focus=${g}>] once
    [html] has put the tokens in. *)
Definition class_attribute : attr := ("class", "x")%string.
Definition click_attribute : attr := ("@click", "$$t0$$")%string.
Definition focus_attribute : attr := ("@focus", "$$t1$$")%string.

Definition ref_item : attr := ("ref", "item")%string.
Definition ref_title : attr := ("ref", "title")%string.

End HtmlReactiveJs.

(** * Proofs about [src/lib/signal.js] *)
Module SignalProofs.
Import SignalJs SignalSpec.

(** ** The scenarios of the test suite

    The values of the cells when the script has run: first the counters,
    then the signal. *)

Example effects_react_to_signal_changes :
  data_after 20 (test_react (λ _, Return VUndefined)) = [VNum 1; VNum 0] ∧
  data_after 20 (test_react (λ value, Write value (VNum 1) (Return VUndefined)))
  = [VNum 2; VNum 1].
Proof. vm_compute. done. Qed.

Example effects_can_be_nested :
  data_after 20 (test_nested (λ _, RVal VUndefined) (λ _, Return VUndefined))
  = [VNum 1; VNum 1; VNum 0] ∧
  data_after 20 (test_nested (λ _, RVal VUndefined)
                   (λ value, Write value (VNum 1) (Return VUndefined)))
  = [VNum 2; VNum 2; VNum 1].
Proof. vm_compute. done. Qed.

Example nested_effects_auto_dispose :
  let reset inner := RFn (Write inner (VNum 0) (Return VUndefined)) in
  data_after 20 (test_nested reset (λ _, Return VUndefined)) = [VNum 1; VNum 1; VNum 0] ∧
  data_after 20 (test_nested reset (λ value, Write value (VNum 1) (Return VUndefined)))
  = [VNum 2; VNum 1; VNum 1].
Proof. vm_compute. done. Qed.

Example nested_effects_react_independent_of_parent :
  data_after 20 (test_independent (λ _, Return VUndefined)) = [VNum 1; VNum 1; VNum 0] ∧
  data_after 20 (test_independent (λ value, Write value (VNum 1) (Return VUndefined)))
  = [VNum 1; VNum 2; VNum 1].
Proof. vm_compute. done. Qed.

Example computed_updates_with_dependencies :
  ∃ s, run 20 (test_computed (λ value computedValue,
                 Write value (VStr "bar") (Read computedValue (λ v, Return v)))) initial
       = Normal (RVal (VStr "bar")) s.
Proof. eexists. vm_compute. reflexivity. Qed.

(** ** Sets as lists *)

Lemma elem_of_set_add (x y : nat) l : y ∈ set_add x l ↔ y = x ∨ y ∈ l.
Proof.
  unfold set_add. case_bool_decide as H.
  - split; [auto | intros [->|]; auto].
  - rewrite elem_of_app, list_elem_of_singleton. tauto.
Qed.

Lemma elem_of_set_delete (x y : nat) l : y ∈ set_delete x l ↔ y ≠ x ∧ y ∈ l.
Proof. unfold set_delete. by rewrite list_elem_of_filter. Qed.

Lemma set_delete_idemp (x : nat) l : set_delete x (set_delete x l) = set_delete x l.
Proof.
  unfold set_delete. induction l as [|y l IH]; [done|].
  rewrite filter_cons. case_decide; [|done].
  rewrite filter_cons. case_decide; [|done]. by rewrite IH.
Qed.

(** ** Reading the heaps through updates *)

Lemma cell_at_with_cell s c f c' :
  cell_at (with_cell c f s) c' =
  if decide (c = c' ∧ c < length (cells s)) then f (cell_at s c') else cell_at s c'.
Proof.
  unfold cell_at, with_cell; simpl. case_decide as H.
  - destruct H as [<- H]. rewrite list_lookup_alter_eq.
    destruct (lookup_lt_is_Some_2 _ _ H) as [y Hy]. by rewrite Hy.
  - destruct (decide (c = c')) as [<-|Hne].
    + rewrite list_lookup_alter_eq.
      rewrite (lookup_ge_None_2 (cells s) c); [done|lia].
    + by rewrite list_lookup_alter_ne.
Qed.

Lemma context_at_with_context s x f x' :
  context_at (with_context x f s) x' =
  if decide (x = x' ∧ x < length (contexts s)) then f (context_at s x') else context_at s x'.
Proof.
  unfold context_at, with_context; simpl. case_decide as H.
  - destruct H as [<- H]. rewrite list_lookup_alter_eq.
    destruct (lookup_lt_is_Some_2 _ _ H) as [y Hy]. by rewrite Hy.
  - destruct (decide (x = x')) as [<-|Hne].
    + rewrite list_lookup_alter_eq.
      rewrite (lookup_ge_None_2 (contexts s) x); [done|lia].
    + by rewrite list_lookup_alter_ne.
Qed.

Lemma subs_with_cell s c g c' :
  g [] = [] →
  subs (with_cell c (map_cell_subscriptions g) s) c' =
  if decide (c' = c) then g (subs s c') else subs s c'.
Proof.
  intros Hg. unfold subs. rewrite cell_at_with_cell.
  case_decide as H.
  - destruct H as [<- _]. by rewrite decide_True.
  - case_decide as H'; [|done]. subst c'.
    assert (length (cells s) ≤ c) as Hc by (destruct (decide (c < length (cells s))); [tauto|lia]).
    unfold cell_at. rewrite (lookup_ge_None_2 _ _ Hc). simpl. by rewrite Hg.
Qed.

Lemma subs_with_cell_known s c g c' :
  c < length (cells s) →
  subs (with_cell c (map_cell_subscriptions g) s) c' =
  if decide (c' = c) then g (subs s c') else subs s c'.
Proof.
  intros Hc. unfold subs. rewrite cell_at_with_cell.
  destruct (decide (c' = c)) as [->|Hne].
  - by rewrite decide_True.
  - rewrite decide_False; [done|]. intros [? _]. done.
Qed.

Lemma subs_detach x l s c :
  subs (detach x l s) c = if decide (c ∈ l) then set_delete x (subs s c) else subs s c.
Proof.
  unfold detach. revert s. induction l as [|c0 l IH]; intros s; simpl.
  - done.
  - rewrite IH. rewrite subs_with_cell by done.
    destruct (decide (c = c0)) as [->|Hne].
    + rewrite (decide_True (P := c0 ∈ c0 :: l)) by (by left).
      case_decide; [by rewrite set_delete_idemp | done].
    + destruct (decide (c ∈ l)) as [Hin|Hin].
      * rewrite decide_True; [done | by right].
      * rewrite decide_False; [done|]. rewrite elem_of_cons. tauto.
Qed.

Lemma detach_frame x l s :
  stack (detach x l s) = stack s ∧ contexts (detach x l s) = contexts s ∧
  trace (detach x l s) = trace s ∧ length (cells (detach x l s)) = length (cells s).
Proof.
  unfold detach. revert s. induction l as [|c l IH]; intros s; simpl; [done|].
  destruct (IH (with_cell c (map_cell_subscriptions (set_delete x)) s)) as (-> & -> & -> & ->).
  simpl. by rewrite length_alter.
Qed.

Lemma deps_with_context s x f x' :
  (∀ y, dependencies (f y) = dependencies y) →
  deps (with_context x f s) x' = deps s x'.
Proof.
  intros Hf. unfold deps. rewrite context_at_with_context. case_decide; [apply Hf | done].
Qed.

(** ** The history *)

Lemma live_snoc x c tr e : live x c (tr ++ [e]) = advance x c (live x c tr) e.
Proof. unfold live. by rewrite foldl_app. Qed.

Lemma live_app_disposed x c tr d :
  live x c (tr ++ Disposed x :: d) = live x c (Disposed x :: d).
Proof.
  unfold live. rewrite foldl_app. simpl. by destruct (decide (x = x)).
Qed.

Lemma foldl_advance_read x c b d :
  foldl (advance x c) b d = true → b = true ∨ ReadBy x c ∈ d.
Proof.
  revert b. induction d as [|e d IH]; intros b; simpl; [auto|].
  intros [Hb|Hin]%IH; [|right; by right].
  destruct e as [y|y c'|y]; simpl in Hb; auto.
  - destruct (decide (y = x ∧ c' = c)) as [[-> ->]|]; [right; by left | auto].
  - destruct (decide (y = x)); [done | auto].
Qed.

Lemma foldl_advance_undisposed x c b d :
  Disposed x ∉ d →
  foldl (advance x c) b d = true ↔ b = true ∨ ReadBy x c ∈ d.
Proof.
  intros Hd. split; [apply foldl_advance_read|].
  revert b. induction d as [|e d IH]; intros b; simpl.
  - intros [|H]; [done | by apply not_elem_of_nil in H].
  - apply not_elem_of_cons in Hd as [Hne Hd]. intros H. apply IH; [done|].
    destruct H as [->|[<-|Hin]%elem_of_cons]; [| |by right].
    + left. destruct e as [y|y c'|y]; simpl; [done| |].
      * by destruct (decide (y = x ∧ c' = c)).
      * destruct (decide (y = x)); [congruence | done].
    + left. simpl. destruct (decide (x = x ∧ c = c)); [done | tauto].
Qed.

Lemma live_read x c d : live x c d = true → ReadBy x c ∈ d.
Proof. intros [?|?]%foldl_advance_read; done. Qed.

Lemma live_after_disposed x c d :
  Disposed x ∉ d → live x c (Disposed x :: d) = true ↔ ReadBy x c ∈ d.
Proof.
  intros Hd. unfold live. simpl. destruct (decide (x = x)); [|done].
  rewrite foldl_advance_undisposed by done. split; [by intros [?|?]|by right].
Qed.

(** ** Primitive moves keep the state consistent *)

Lemma consistent_ext s s' :
  stack s' = stack s → length (contexts s') = length (contexts s) →
  (∀ c, subs s' c = subs s c) → (∀ x, deps s' x = deps s x) →
  trace s' = trace s → consistent s → consistent s'.
Proof.
  intros Hst Hlen Hsubs Hdeps Htr [H1 H2 H3 H4]. split.
  - intros x. rewrite Hst, Hlen. apply H1.
  - intros c x. rewrite Hsubs, Htr. apply H2.
  - intros c x. rewrite Hsubs, Hlen. apply H3.
  - intros c x. rewrite Hsubs, Hdeps. apply H4.
Qed.

Lemma step_refl s : consistent s → step s s [].
Proof. intros. split; [done|lia|lia|by rewrite app_nil_r|done]. Qed.

Lemma step_trans s s1 s2 d1 d2 : step s s1 d1 → step s1 s2 d2 → step s s2 (d1 ++ d2).
Proof.
  intros [_ ? ? E1 F1] [? ? ? E2 F2]. split; [done|lia|lia| |].
  - by rewrite E2, E1, <-app_assoc.
  - intros x Hx. rewrite F2 by lia. by apply F1.
Qed.

Lemma step_quiet s s' :
  stack s' = stack s → length (contexts s') = length (contexts s) →
  length (cells s) ≤ length (cells s') →
  (∀ c, subs s' c = subs s c) → (∀ x, deps s' x = deps s x) →
  (∀ x, fn (context_at s' x) = fn (context_at s x)) →
  trace s' = trace s → consistent s → step s s' [].
Proof.
  intros Hst Hlen Hc Hsubs Hdeps Hfn Htr Hs. split.
  - by eapply consistent_ext.
  - lia.
  - done.
  - by rewrite Htr, app_nil_r.
  - auto.
Qed.

Lemma fn_with_context s x f y :
  (∀ z, fn (f z) = fn z) → fn (context_at (with_context x f s) y) = fn (context_at s y).
Proof. intros Hf. rewrite context_at_with_context. case_decide; [apply Hf | done]. Qed.

Lemma step_set_data s c v : consistent s → step s (with_cell c (set_data v) s) [].
Proof.
  intros. apply step_quiet; try done.
  - simpl. by rewrite length_alter.
  - intros c'. unfold subs. rewrite cell_at_with_cell. by case_decide.
Qed.

Lemma step_with_context s x f :
  (∀ y, dependencies (f y) = dependencies y) → (∀ y, fn (f y) = fn y) →
  consistent s → step s (with_context x f s) [].
Proof.
  intros Hf Hfn ?. apply step_quiet; try done.
  - simpl. by rewrite length_alter.
  - intros x'. by apply deps_with_context.
  - intros y. by apply fn_with_context.
Qed.

Lemma step_push_disposable s x obj d :
  consistent s → step s (push_disposable x obj d s) [].
Proof.
  intros. unfold push_disposable. case_decide; [|by apply step_refl].
  by apply step_with_context.
Qed.

Lemma step_signal s v : consistent s → step s (signal v s).2 [].
Proof.
  intros. apply step_quiet; try done.
  - simpl. rewrite length_app. lia.
  - intros c. unfold subs, cell_at; simpl.
    destruct (decide (c < length (cells s))) as [Hc|Hc].
    + by rewrite lookup_app_l.
    + rewrite lookup_app_r by lia. rewrite (lookup_ge_None_2 (cells s)) by lia.
      by destruct (c - length (cells s)) as [|[|?]].
Qed.

Lemma step_new_context s f p :
  consistent s →
  step s (State (stack s) (cells s) (contexts s ++ [Context f p [] [] [] 0]) (trace s)) [].
Proof.
  intros [H1 H2 H3 H4].
  assert (∀ x, deps (State (stack s) (cells s) (contexts s ++ [Context f p [] [] [] 0])
                            (trace s)) x = deps s x) as Hdeps.
  { intros x. unfold deps, context_at; simpl.
    destruct (decide (x < length (contexts s))) as [Hc|Hc].
    + by rewrite lookup_app_l.
    + rewrite lookup_app_r by lia. rewrite (lookup_ge_None_2 (contexts s)) by lia.
      by destruct (x - length (contexts s)) as [|[|?]]. }
  split; [split|..]; simpl; rewrite ?length_app; simpl.
  - intros x Hx. apply H1 in Hx. lia.
  - done.
  - intros c x Hx. apply (H3 c) in Hx. lia.
  - intros c x Hx. rewrite Hdeps. by apply H4.
  - lia.
  - lia.
  - by rewrite app_nil_r.
  - intros x Hx. unfold context_at; simpl. by rewrite lookup_app_l.
Qed.

Lemma step_record_ran s x : consistent s → step s (record (Ran x) s) [Ran x].
Proof.
  intros [H1 H2 H3 H4]. split; [split|..]; simpl; try done.
  intros c y. rewrite live_snoc. simpl. apply H2.
Qed.

Lemma step_start s x :
  x < length (contexts s) → consistent s → step s (startTracking x s) [].
Proof.
  intros Hx [H1 H2 H3 H4]. split; [split|..]; simpl; try done.
  - intros y [->|Hy]%elem_of_cons; auto.
  - by rewrite app_nil_r.
Qed.

Lemma step_stop s : consistent s → step s (stopTracking s) [].
Proof.
  intros [H1 H2 H3 H4]. split; [split|..]; simpl; try done.
  - intros y Hy. apply H1. destruct (stack s); [done|]. by right.
  - by rewrite app_nil_r.
Qed.

Lemma step_read s c :
  c < length (cells s) → consistent s →
  step s (read c s).2
       match getCurrentContext s with Some x => [ReadBy x c] | None => [] end.
Proof.
  intros Hc Hs. unfold read, getCurrentContext. simpl.
  destruct (stack s) as [|x st] eqn:Hst; simpl; [by apply step_refl|].
  destruct Hs as [H1 H2 H3 H4].
  assert (x < length (contexts s)) as Hx by (apply H1; rewrite Hst; by left).
  set (s1 := with_cell c (map_cell_subscriptions (set_add x)) (record (ReadBy x c) s)).
  assert (∀ c', subs s1 c' = if decide (c' = c) then set_add x (subs s c') else subs s c')
    as Hsubs.
  { intros c'. unfold s1. rewrite subs_with_cell_known by done. done. }
  assert (∀ y, deps (with_context x (map_dependencies (λ d, d ++ [c])) s1) y =
               if decide (y = x) then deps s y ++ [c] else deps s y) as Hdeps.
  { intros y. unfold deps. rewrite context_at_with_context. simpl.
    destruct (decide (y = x)) as [->|Hne].
    - by rewrite decide_True.
    - rewrite decide_False; [done|]. intros [? _]; congruence. }
  split; [split|..]; simpl; rewrite ?length_alter; try done;
    [| | |intros y _; by rewrite fn_with_context].
  - intros c' y. change (y ∈ subs s1 c' ↔ live y c' (trace s ++ [ReadBy x c]) = true).
    rewrite Hsubs, live_snoc. simpl. specialize (H2 c' y).
    destruct (decide (c' = c)) as [->|Hne].
    + rewrite elem_of_set_add. destruct (decide (x = y ∧ c = c)) as [[-> _]|Hn].
      * tauto.
      * rewrite <-H2. split; [intros [->|]; [tauto|done] | auto].
    + rewrite decide_False by (intros [_ ?]; congruence). done.
  - intros c' y. change (y ∈ subs s1 c' → y < length (contexts s)).
    rewrite Hsubs. case_decide; [|apply H3].
    intros [->|Hy]%elem_of_set_add; [done | by eapply H3].
  - intros c' y. change (y ∈ subs s1 c' →
      c' ∈ deps (with_context x (map_dependencies (λ d, d ++ [c])) s1) y).
    rewrite Hsubs, Hdeps.
    destruct (decide (c' = c)) as [->|Hne].
    + intros [->|Hy]%elem_of_set_add.
      * rewrite decide_True by done. apply elem_of_app. right. by left.
      * apply H4 in Hy. case_decide; [apply elem_of_app; by left | done].
    + intros Hy%H4. case_decide; [apply elem_of_app; by left | done].
Qed.

Lemma subs_released x s c :
  consistent s → ∀ y, y ∈ subs (released x s) c ↔ y ≠ x ∧ y ∈ subs s c.
Proof.
  intros [H1 H2 H3 H4] y. unfold released.
  change (subs (with_context x _ ?t) c) with (subs t c).
  rewrite subs_detach.
  change (subs (record _ s) c) with (subs s c).
  change (context_at (record _ s) x) with (context_at s x).
  case_decide as Hin; [apply elem_of_set_delete|].
  split; [|tauto]. intros Hy. split; [|done]. intros ->. by apply H4 in Hy.
Qed.

Lemma context_at_detach x l s y : context_at (detach x l s) y = context_at s y.
Proof.
  unfold context_at. by destruct (detach_frame x l s) as (_ & -> & _ & _).
Qed.

Lemma deps_released x s y :
  deps (released x s) y = if decide (y = x) then [] else deps s y.
Proof.
  unfold released, deps. rewrite context_at_with_context, context_at_detach.
  change (context_at (record _ s) y) with (context_at s y).
  destruct (decide (y = x)) as [->|Hne].
  - case_decide as H; [done|].
    destruct (detach_frame x (dependencies (context_at (record (Disposed x) s) x))
              (record (Disposed x) s)) as (_ & Hctx & _ & _).
    rewrite Hctx in H. simpl in H. unfold context_at.
    rewrite lookup_ge_None_2; [done|]. destruct (decide (x < length (contexts s))); [tauto|lia].
  - rewrite decide_False; [done|]. intros [? _]; congruence.
Qed.

Lemma step_released x s : consistent s → step s (released x s) [Disposed x].
Proof.
  intros Hs. pose proof (subs_released x s) as Hsubs.
  pose proof (deps_released x s) as Hdeps.
  destruct (detach_frame x (dependencies (context_at (record (Disposed x) s) x))
              (record (Disposed x) s)) as (Hst & Hctx & Htr & Hlen).
  assert (stack (released x s) = stack s) as Hst' by (unfold released; simpl; by rewrite Hst).
  assert (length (contexts (released x s)) = length (contexts s)) as Hc'.
  { unfold released; simpl. by rewrite length_alter, Hctx. }
  assert (trace (released x s) = trace s ++ [Disposed x]) as Htr'.
  { unfold released; simpl. by rewrite Htr. }
  assert (length (cells (released x s)) = length (cells s)) as Hl'.
  { unfold released; simpl. by rewrite Hlen. }
  destruct Hs as [H1 H2 H3 H4].
  split; [split|..]; rewrite ?Hst', ?Hc', ?Htr', ?Hl'; try done;
    [| | |intros y _; unfold released; by rewrite fn_with_context, context_at_detach].
  - intros c y. rewrite Hsubs by done. rewrite live_snoc. simpl.
    destruct (decide (x = y)) as [->|Hne]; [split; [tauto|done]|].
    rewrite <-H2. split; [tauto | intros; split; [congruence|done]].
  - intros c y [_ Hy]%Hsubs; [|done]. by eapply H3.
  - intros c y [Hne Hy]%Hsubs; [|done]. rewrite Hdeps, decide_False by done. by apply H4.
Qed.

Lemma released_clears x s c : consistent s → x ∉ subs (released x s) c.
Proof. intros Hs [Hne _]%subs_released; done. Qed.

(** ** Counting runs and disposals; composing calls *)

Lemma runs_cons x e d :
  runs x (e :: d) = (if decide (e = Ran x) then 1 else 0) + runs x d.
Proof.
  unfold runs. case_decide as H.
  - by rewrite count_occ_cons_eq.
  - by rewrite count_occ_cons_neq.
Qed.

Lemma disposals_cons x e d :
  disposals x (e :: d) = (if decide (e = Disposed x) then 1 else 0) + disposals x d.
Proof.
  unfold disposals. case_decide as H.
  - by rewrite count_occ_cons_eq.
  - by rewrite count_occ_cons_neq.
Qed.

Lemma runs_app x d1 d2 : runs x (d1 ++ d2) = runs x d1 + runs x d2.
Proof. apply count_occ_app. Qed.

Lemma disposals_app x d1 d2 : disposals x (d1 ++ d2) = disposals x d1 + disposals x d2.
Proof. apply count_occ_app. Qed.

Lemma runs_pos x d : Ran x ∈ d → 1 ≤ runs x d.
Proof. intros H%list_elem_of_In. by apply count_occ_In. Qed.

Lemma balanced_nil : balanced [].
Proof. intros x. unfold runs, disposals. simpl. lia. Qed.

Lemma balanced_app d1 d2 : balanced d1 → balanced d2 → balanced (d1 ++ d2).
Proof.
  intros H1 H2 x. specialize (H1 x). specialize (H2 x).
  rewrite runs_app, disposals_app. lia.
Qed.

Lemma balanced_read x c : balanced [ReadBy x c].
Proof.
  intros y. rewrite runs_cons, disposals_cons.
  rewrite !decide_False by congruence. pose proof (balanced_nil y). lia.
Qed.

Lemma balanced_disposed x d : balanced d → balanced (Disposed x :: d).
Proof.
  intros H y. specialize (H y). rewrite runs_cons, disposals_cons.
  rewrite (decide_False (P := Disposed x = Ran y)) by congruence.
  case_decide; lia.
Qed.

Lemma balanced_run x d1 d2 :
  balanced d1 → balanced d2 → balanced (Disposed x :: d1 ++ Ran x :: d2).
Proof.
  intros H1 H2 y. specialize (H1 y). specialize (H2 y).
  rewrite runs_cons, disposals_cons, runs_app, disposals_app, runs_cons, disposals_cons.
  rewrite (decide_False (P := Disposed x = Ran y)) by congruence.
  rewrite (decide_False (P := Ran x = Disposed y)) by congruence.
  destruct (decide (Ran x = Ran y)) as [E|E]; destruct (decide (Disposed x = Disposed y)) as [E'|E'];
    try lia.
  exfalso. apply E'. congruence.
Qed.

Lemma post_weaken {A} (P P' : bool → list event → Prop) s (o : result A) :
  (∀ b d, P b d → P' b d) → post P s o → post P' s o.
Proof.
  intros HP. destruct o as [a s'|e s'| |]; simpl; [| |done..];
    intros (d & ? & ?); eauto.
Qed.

Lemma post_prefix {A} (P2 P : bool → list event → Prop) s s1 d1 (o : result A) :
  step s s1 d1 →
  (∀ b d2, P2 b d2 → P b (d1 ++ d2)) →
  post P2 s1 o → post P s o.
Proof.
  intros Hstep HP. destruct o as [a s'|e s'| |]; simpl; [| |done..];
    intros (d & ? & ?); exists (d1 ++ d); (split; [by eapply step_trans | auto]).
Qed.

Lemma post_bind {A B} (P1 P2 P : bool → list event → Prop) s (m : result A)
    (f : A → state → result B) :
  post P1 s m →
  (∀ d1, P1 false d1 → P false d1) →
  (∀ d1 d2 b, P1 true d1 → P2 b d2 → P b (d1 ++ d2)) →
  (∀ a s1, consistent s1 → length (contexts s) ≤ length (contexts s1) →
           length (cells s) ≤ length (cells s1) → post P2 s1 (f a s1)) →
  post P s (bind m f).
Proof.
  intros Hm HP1 HP Hf. destruct m as [a s1|e s1| |]; simpl in *; [| |done..].
  - destruct Hm as (d1 & Hstep & Hd1).
    eapply post_prefix; [done| |apply Hf; apply Hstep].
    intros b d2. by apply HP.
  - destruct Hm as (d1 & ? & ?). eauto.
Qed.

Lemma post_bind_any {A B} s (m : result A) (f : A → state → result B) :
  post any_call s m →
  (∀ a s1, consistent s1 → length (contexts s) ≤ length (contexts s1) →
           length (cells s) ≤ length (cells s1) → post any_call s1 (f a s1)) →
  post any_call s (bind m f).
Proof.
  intros Hm Hf. eapply post_bind; [done|done| |done].
  intros d1 d2 b. apply balanced_app.
Qed.

Lemma post_return {A} (a : A) s : consistent s → post any_call s (Normal a s).
Proof.
  intros. simpl. exists []. split; [by apply step_refl | apply balanced_nil].
Qed.

Lemma post_thrown {A} e s : consistent s → post (A := A) any_call s (Thrown e s).
Proof.
  intros. simpl. exists []. split; [by apply step_refl | apply balanced_nil].
Qed.

Lemma post_forEach {A} (Q : A → state → Prop) (f : A → state → result unit) l s :
  (∀ a s s', Q a s → length (contexts s) ≤ length (contexts s') → Q a s') →
  (∀ a s, Q a s → consistent s → post any_call s (f a s)) →
  Forall (λ a, Q a s) l → consistent s → post any_call s (forEach f l s).
Proof.
  intros Hmono Hf. revert s. induction l as [|a l IH]; intros s Hl Hs; simpl.
  - exact (post_return tt s Hs).
  - apply Forall_cons in Hl as [Ha Hl]. apply post_bind_any; [by apply Hf|].
    intros _ s1 Hs1 Hlen _. apply IH; [|done].
    eapply Forall_impl; [exact Hl|]. intros b Hb. simpl in *. eapply Hmono; eauto.
Qed.

(** ** Every call keeps the state consistent *)

Lemma post_pure {A B} (P : bool → list event → Prop) s (m : result A) (g : A → B)
    (t : A → state → state) :
  (∀ a s1, consistent s1 → step s1 (t a s1) []) →
  post P s m → post P s (let* a, s1 <- m in Normal (g a) (t a s1)).
Proof.
  intros Ht. destruct m as [a s1|e s1| |]; simpl; [|done..].
  intros (d & Hstep & Hd). exists d. split; [|done].
  rewrite <-(app_nil_r d). eapply step_trans; [done|]. apply Ht, Hstep.
Qed.

Lemma post_finally {A} (P : bool → list event → Prop) s (m : result A)
    (t : state → state) :
  (∀ s1, consistent s1 → step s1 (t s1) []) →
  post P s m → post P s (finally m t).
Proof.
  intros Ht. destruct m as [a s1|e s1| |]; simpl; [| |done..];
    intros (d & Hstep & Hd); exists d; (split; [|done]);
    rewrite <-(app_nil_r d); (eapply step_trans; [done|]); apply Ht, Hstep.
Qed.

Local Arguments post : simpl never.

(** Started in a consistent state, every call of the engine that ends, by
    returning or by raising, ends in a consistent state; the history has
    grown, no context was created or lost its [fn], and no context ran more
    often than it was disposed.  [dispose] and [execute] of [x] start with
    the disposal of [x]; an [execute] or a construction that returns has
    called the function. *)
Lemma engine_sound n :
  (∀ p s, consistent s → post any_call s (run n p s)) ∧
  (∀ c a s, consistent s → post any_call s (write n c a s)) ∧
  (∀ x s, consistent s → x < length (contexts s) → post (execute_call x) s (execute n x s)) ∧
  (∀ x s, consistent s → post (dispose_call x) s (dispose n x s)) ∧
  (∀ f s, consistent s → post (effect_call (length (contexts s))) s (effect n f s)) ∧
  (∀ f s, consistent s → post (effect_call (length (contexts s))) s (computed n f s)).
Proof.
  induction n as [|n (IHrun & IHwrite & IHexec & IHdisp & IHeff & IHcomp)];
    [by repeat split|].
  assert (∀ x s, consistent s → post any_call s (dispose n x s)) as IHdisp'.
  { intros x s Hs. eapply post_weaken; [|by apply IHdisp].
    intros b d (d' & -> & Hd). by apply balanced_disposed. }
  assert (∀ x s, x < length (contexts s) → consistent s → post any_call s (execute n x s))
    as IHexec'.
  { intros x s Hx Hs. eapply post_weaken; [|by apply IHexec].
    intros b d (d' & _ & Hd & _). done. }
  assert (∀ f s, consistent s → post any_call s (effect n f s)) as IHeff'.
  { intros f s Hs. eapply post_weaken; [|by apply IHeff]. by intros b d [Hd _]. }
  assert (∀ f s, consistent s → post any_call s (computed n f s)) as IHcomp'.
  { intros f s Hs. eapply post_weaken; [|by apply IHcomp]. by intros b d [Hd _]. }
  split_and!.
  - (* run *)
    intros p s Hs. destruct p as [v|q|e|c k|c v k|c u k|v k|f k|f k|d k|b h k]; simpl.
    + by apply post_return.
    + by apply post_return.
    + by apply post_thrown.
    + unfold known_cell. case_bool_decide as Hc; [|done].
      destruct (read c s) as [v s'] eqn:Hread.
      assert (s' = (read c s).2) as -> by (by rewrite Hread).
      eapply post_prefix; [by apply step_read| |apply IHrun].
      * intros b d2 Hd2. apply balanced_app; [|done].
        destruct (getCurrentContext s); [apply balanced_read | apply balanced_nil].
      * by apply step_read.
    + unfold known_cell. case_bool_decide as Hc; [|done].
      apply post_bind_any; [by apply IHwrite|]. intros _ s1 Hs1 _ _. by apply IHrun.
    + unfold known_cell. case_bool_decide as Hc; [|done].
      apply post_bind_any; [by apply IHwrite|]. intros _ s1 Hs1 _ _. by apply IHrun.
    + eapply post_prefix; [by apply (step_signal s v)| |apply IHrun].
      * by intros b d2 Hd2.
      * by apply (step_signal s v).
    + apply post_bind_any; [by apply IHeff'|]. intros _ s1 Hs1 _ _. by apply IHrun.
    + apply post_bind_any; [by apply IHcomp'|]. intros r s1 Hs1 _ _.
      destruct r; try done. by apply IHrun.
    + unfold known_context. case_bool_decide as Hc; [|done].
      apply post_bind_any; [by apply IHdisp'|]. intros _ s1 Hs1 _ _. by apply IHrun.
    + pose proof (IHrun b s Hs) as Hb.
      destruct (run n b s) as [r s1|e s1| |]; simpl in *; [| |done..].
      * destruct Hb as (d1 & Hstep & Hd1).
        eapply post_prefix; [done| |apply IHrun, Hstep].
        intros ? d2 Hd2. by apply balanced_app.
      * destruct Hb as (d1 & Hstep & Hd1).
        eapply post_prefix; [done| |].
        { intros ? d2 Hd2. apply balanced_app; [exact Hd1 | exact Hd2]. }
        apply post_bind_any; [apply IHrun, Hstep|]. intros _ s2 Hs2 _ _. by apply IHrun.
  - (* write *)
    intros c a s Hs. simpl.
    apply post_bind_any.
    { destruct a; [by apply post_return | by apply IHrun]. }
    intros [v|q] s1 Hs1 _ _; [|done].
    destruct (negb _); [|by apply post_return].
    eapply post_prefix; [by apply (step_set_data s1 c v)| by intros b d2 Hd2|].
    pose proof (step_set_data s1 c v Hs1) as [Hs2 _ _ _].
    apply (post_forEach (λ x s, x < length (contexts s))); [intros; lia| |  |done].
    + intros x s' Hx Hs'. by apply IHexec'.
    + apply Forall_forall. intros x Hx. by eapply (consistent_known _ Hs2).
  - (* execute *)
    intros x s Hs Hx. simpl. apply post_finally; [intros; by apply step_stop|].
    eapply (post_bind (dispose_call x) (λ _ d, ∃ d2, d = Ran x :: d2 ∧ balanced d2));
      [by apply IHdisp|..].
    { intros d1 (d' & -> & Hd). exists d'. split_and!; [done|by apply balanced_disposed|done]. }
    { intros d1 d2 b (d1' & -> & Hd1) (d2' & -> & Hd2). exists (d1' ++ Ran x :: d2').
      split_and!; [done|by apply balanced_run|intros; apply elem_of_app; right; by left]. }
    intros _ s1 Hs1 Hlen _.
    set (s2 := match parentContext (context_at s1 x) with
               | Some p => with_context p (map_subscriptions (λ l, l ++ [x])) s1
               | None => s1
               end).
    assert (step s1 s2 []) as Hs2.
    { unfold s2. destruct (parentContext _); [by apply step_with_context | by apply step_refl]. }
    assert (step s2 (startTracking x s2) []) as Hs3.
    { apply step_start; [|apply Hs2]. destruct Hs2 as [_ ? _ _]. lia. }
    assert (step (startTracking x s2) (record (Ran x) (startTracking x s2)) [Ran x]) as Hs4.
    { apply step_record_ran, Hs3. }
    eapply post_prefix; [exact (step_trans _ _ _ _ _ (step_trans _ _ _ _ _ Hs2 Hs3) Hs4)| |].
    { intros b d2 Hd2. exists d2. split; [done | exact Hd2]. }
    apply (post_pure any_call _ _ (λ _, tt)
             (λ r, push_disposable x (disposables_obj (context_at (startTracking x s2) x))
                     (as_disposable r))).
    { intros r s5 ?. by apply step_push_disposable. }
    apply IHrun, Hs4.
  - (* dispose *)
    intros x s Hs. simpl.
    change (with_context x (map_dependencies (λ _, [])) _) with (released x s).
    eapply post_prefix; [by apply step_released| |].
    { intros b d2 Hd2. exists d2. split; [done | exact Hd2]. }
    pose proof (step_released x s Hs) as [Hs1 _ _ _].
    apply post_bind_any.
    { apply (post_forEach (λ _ _, True)); [done| |by apply Forall_forall|done].
      intros y s' _ Hs'. by apply IHdisp'. }
    intros _ s2 Hs2 _ _.
    eapply post_prefix; [by apply (step_with_context s2 x (map_subscriptions (λ _, [])))|
                          by intros b d2 Hd2|].
    pose proof (step_with_context s2 x (map_subscriptions (λ _, [])) (λ _, eq_refl) (λ _, eq_refl) Hs2)
      as [Hs3 _ _ _].
    apply (post_pure any_call _ _ (λ _, tt) (λ _, with_context x fresh_disposables)).
    { intros _ s1 ?. by apply step_with_context. }
    apply (post_forEach (λ _ _, True)); [done| |by apply Forall_forall|done].
    intros [p|v] s' _ Hs'; [|by apply post_thrown].
    apply (post_pure any_call s' (run n p s') (λ _, tt) (λ _ s, s)); [|by apply IHrun].
    intros. by apply step_refl.
  - (* effect *)
    intros f s Hs. simpl.
    set (s1 := State (stack s) (cells s)
                 (contexts s ++ [Context f (getCurrentContext s) [] [] [] 0]) (trace s)).
    pose proof (step_new_context s f (getCurrentContext s) Hs) as Hs1. fold s1 in Hs1.
    eapply post_prefix; [exact Hs1| |].
    { intros b d2 Hd2. exact Hd2. }
    apply (post_pure (effect_call _) _ _ (λ _, Undefined) (λ _ s, s)).
    { intros. by apply step_refl. }
    eapply post_weaken; [|apply IHexec; [apply Hs1|]].
    + intros b d (d' & -> & Hd & Hran). split; [done|]. intros Hb. right. auto.
    + unfold s1; simpl. rewrite length_app; simpl. lia.
  - (* computed *)
    intros f s Hs. simpl.
    eapply post_prefix; [exact (step_signal s VUndefined Hs)| |].
    { intros b d2 Hd2. exact Hd2. }
    apply (post_pure (effect_call _) _ _ (λ _, Accessor (length (cells s))) (λ _ s, s)).
    { intros. by apply step_refl. }
    apply (IHeff _ (signal VUndefined s).2). apply (step_signal s VUndefined Hs).
Qed.

Lemma consistent_initial : consistent initial.
Proof. split; intros *; try by intros ?%not_elem_of_nil. split; [by intros ?%not_elem_of_nil | done]. Qed.

Lemma run_consistent n p s r s' : consistent s → run n p s = Normal r s' → consistent s'.
Proof.
  intros Hs Hrun. destruct (engine_sound n) as (H & _). specialize (H p s Hs).
  rewrite Hrun in H. destruct H as (d & Hstep & _). apply Hstep.
Qed.

Lemma execute_trace n x s s' :
  consistent s → x < length (contexts s) → final (execute n x s) = Some s' →
  consistent s' ∧ ∃ d, trace s' = trace s ++ Disposed x :: d ∧ balanced (Disposed x :: d).
Proof.
  intros Hs Hx He. destruct (engine_sound n) as (_ & _ & H & _). specialize (H x s Hs Hx).
  destruct (execute n x s) as [a s1|e s1| |]; simpl in *; [| |done..]; simplify_eq;
    destruct H as (d & Hstep & d' & -> & Hd & _); (split; [apply Hstep|]);
    exists d'; (split; [apply Hstep | done]).
Qed.

Lemma state_after_consistent n p : consistent (state_after n p).
Proof.
  unfold state_after. destruct (engine_sound n) as (H & _).
  specialize (H p initial consistent_initial).
  destruct (run n p initial) as [r s|e s| |]; simpl in *;
    try apply consistent_initial; destruct H as (d & Hstep & _); apply Hstep.
Qed.

Lemma write_suppressed n c v s :
  strict_eq v (data (cell_at s c)) = true → write (S n) c (Literal v) s = Normal tt s.
Proof. intros H. simpl. by rewrite H. Qed.

Lemma write_unobserved n c v s :
  strict_eq v (data (cell_at s c)) = false → subs s c = [] →
  write (S n) c (Literal v) s = Normal tt (with_cell c (set_data v) s).
Proof.
  intros H Hsubs. simpl. rewrite H. simpl.
  replace (cell_subscriptions (cell_at (with_cell c (set_data v) s) c)) with (subs s c); [by rewrite Hsubs|].
  unfold subs. rewrite cell_at_with_cell. by case_decide.
Qed.

Lemma forEach_notified n l s s' :
  forEach (execute n) l s = Normal tt s' → notified n l s s'.
Proof.
  revert s. induction l as [|x l IH]; intros s; simpl.
  - intros [= ->]. constructor.
  - destruct (execute n x s) as [[] s1|e s1| |] eqn:He; simpl; try done.
    intros Hl. econstructor; [exact He | by apply IH].
Qed.

Lemma notified_runs n l s s' :
  consistent s → Forall (λ x, x < length (contexts s)) l → notified n l s s' →
  ∃ ds, trace s' = trace s ++ concat ds ∧ Forall2 run_of l ds.
Proof.
  intros Hs Hl Hn. induction Hn as [s|x l s s1 s2 He Hn IH].
  - exists []. split; [by rewrite app_nil_r | constructor].
  - apply Forall_cons in Hl as [Hx Hl].
    destruct (engine_sound n) as (_ & _ & H & _). specialize (H x s Hs Hx).
    rewrite He in H. destruct H as (d & Hstep & d' & -> & _ & Hran).
    destruct IH as (ds & Htr & Hds).
    + apply Hstep.
    + eapply Forall_impl; [exact Hl|]. intros y Hy. simpl in *.
      pose proof (step_contexts _ _ _ Hstep). lia.
    + exists ((Disposed x :: d') :: ds). split.
      * rewrite Htr, (step_trace _ _ _ Hstep). simpl. by rewrite <-app_assoc.
      * constructor; [|done]. exists d'. auto.
Qed.

Lemma bind_normal {A B} (m : result A) (f : A → state → result B) b s' :
  (let* a, s <- m in f a s) = Normal b s' →
  ∃ a s1, m = Normal a s1 ∧ f a s1 = Normal b s'.
Proof. destruct m as [a s1|e s1| |]; simpl; try done. eauto. Qed.

Lemma finally_normal {A} (m : result A) t a s' :
  finally m t = Normal a s' → ∃ s1, m = Normal a s1 ∧ s' = t s1.
Proof. destruct m as [b s1|e s1| |]; simpl; try done. intros [= -> <-]. eauto. Qed.

(** The state in which [execute] of [x] calls [fn], given the state [s1]
    that [dispose] returned in. *)
Lemma execute_normal n x s s' :
  execute (S n) x s = Normal tt s' →
  ∃ s1 r s4,
    dispose n x s = Normal tt s1 ∧
    let s2 := match parentContext (context_at s1 x) with
              | Some p => with_context p (map_subscriptions (λ l, l ++ [x])) s1
              | None => s1
              end in
    let s3 := startTracking x s2 in
    run n (fn (context_at s3 x) x) (record (Ran x) s3) = Normal r s4 ∧
    s' = stopTracking (push_disposable x (disposables_obj (context_at s3 x))
                         (as_disposable r) s4).
Proof.
  simpl. intros (s5 & Hin & ->)%finally_normal.
  apply bind_normal in Hin as ([] & s1 & Hd & Hin).
  apply bind_normal in Hin as (r & s4 & Hr & Hin).
  injection Hin as <-. eauto 10.
Qed.

Lemma execute_entry n x s s1 :
  consistent s → x < length (contexts s) → dispose n x s = Normal tt s1 →
  let s2 := match parentContext (context_at s1 x) with
            | Some p => with_context p (map_subscriptions (λ l, l ++ [x])) s1
            | None => s1
            end in
  let s3 := startTracking x s2 in
  ∃ d1, step s (record (Ran x) s3) (Disposed x :: d1 ++ [Ran x]) ∧ balanced d1 ∧
        fn (context_at s3 x) = fn (context_at s x).
Proof.
  intros Hs Hx Hd s2 s3.
  destruct (engine_sound n) as (_ & _ & _ & H & _). specialize (H x s Hs).
  rewrite Hd in H. destruct H as (d & Hstep & d1 & -> & Hd1).
  assert (step s1 s2 []) as Hs2.
  { pose proof (step_consistent _ _ _ Hstep).
    unfold s2. destruct (parentContext _); [by apply step_with_context | by apply step_refl]. }
  assert (step s2 s3 []) as Hs3.
  { apply step_start; [|apply Hs2]. destruct Hs2 as [_ ? _ _ _], Hstep as [_ ? _ _ _]. lia. }
  assert (step s3 (record (Ran x) s3) [Ran x]) as Hs4 by apply step_record_ran, Hs3.
  pose proof (step_trans _ _ _ _ _ Hstep (step_trans _ _ _ _ _ Hs2 Hs3)) as H13.
  exists d1. split_and!.
  - pose proof (step_trans _ _ _ _ _ H13 Hs4) as H14.
    by rewrite app_nil_r in H14.
  - done.
  - by apply (step_fn _ _ _ H13).
Qed.

Lemma trace_push_disposable x obj d s : trace (push_disposable x obj d s) = trace s.
Proof. unfold push_disposable. by case_decide. Qed.

Lemma effect_returns n f s r s' : effect n f s = Normal r s' → r = Undefined.
Proof.
  destruct n as [|n]; [done|]. simpl.
  intros (a & s1 & _ & [= <- _])%bind_normal. done.
Qed.

Lemma computed_returns n f s r s' :
  computed n f s = Normal r s' → r = Accessor (length (cells s)).
Proof.
  destruct n as [|n]; [done|]. simpl.
  intros (a & s1 & _ & [= <- _])%bind_normal. done.
Qed.

Lemma execute_failed_disposal n x s e s1 :
  dispose n x s = Thrown e s1 → execute (S n) x s = Thrown e (stopTracking s1).
Proof. intros H. simpl. by rewrite H. Qed.

Lemma forEach_teardown n l s s' :
  (∀ y s s', dispose n y s = Normal tt s' → teardown n y s s') →
  forEach (dispose n) l s = Normal tt s' → teardown_each n l s s'.
Proof.
  intros IH. revert s. induction l as [|y l IHl]; intros s; simpl.
  - intros [= ->]. constructor.
  - destruct (dispose n y s) as [[] s1|e s1| |] eqn:Hd; simpl; try done.
    intros Hl. econstructor; [by apply IH | by apply IHl].
Qed.

Lemma dispose_is_teardown n x s s' : dispose n x s = Normal tt s' → teardown n x s s'.
Proof.
  revert x s s'. induction n as [|n IH]; intros x s s'; [done|]. simpl.
  change (with_context x (map_dependencies (λ _, [])) _) with (released x s).
  intros ([] & s1 & Hch & Hrest)%bind_normal.
  apply bind_normal in Hrest as ([] & s2 & Hcl & [= <-]).
  econstructor; [by apply forEach_teardown | exact Hcl].
Qed.

Lemma context_at_record e s x : context_at (record e s) x = context_at s x.
Proof. done. Qed.

(** ** Functions that only read *)

Lemma data_value_at s c : data (cell_at s c) = value_at (values s) c.
Proof.
  unfold cell_at, value_at, values. rewrite list_lookup_fmap.
  by destruct (cells s !! c).
Qed.

Lemma values_with_cell s c f :
  (∀ x, data (f x) = data x) → values (with_cell c f s) = values s.
Proof.
  intros Hf. unfold values, with_cell; simpl.
  apply list_eq. intros i. rewrite !list_lookup_fmap.
  destruct (decide (c = i)) as [->|Hne].
  - rewrite list_lookup_alter_eq. destruct (cells s !! i); simpl; by rewrite ?Hf.
  - by rewrite list_lookup_alter_ne.
Qed.

Lemma read_frame c s :
  values (read c s).2 = values s ∧ stack (read c s).2 = stack s ∧
  length (cells (read c s).2) = length (cells s) ∧
  length (contexts (read c s).2) = length (contexts s) ∧
  (∀ c', c' ≠ c → cell_at (read c s).2 c' = cell_at s c') ∧
  trace (read c s).2 = trace s ++ read_events (getCurrentContext s) [c].
Proof.
  unfold read. destruct (getCurrentContext s) as [x|]; simpl;
    [|by rewrite app_nil_r].
  rewrite !length_alter. split_and!; try done.
  - change (values (with_context x _ ?t)) with (values t).
    by rewrite values_with_cell.
  - intros c' Hne. change (cell_at (with_context x _ ?t) c') with (cell_at t c').
    rewrite cell_at_with_cell. rewrite decide_False; [done|]. intros [? _]; congruence.
Qed.

Lemma read_value c s : (read c s).1 = value_at (values s) c.
Proof.
  destruct (read_frame c s) as (R1 & _). rewrite <-R1, <-data_value_at. done.
Qed.

Lemma run_read n c k s :
  c < length (cells s) → run (S n) (Read c k) s = run n (k (read c s).1) (read c s).2.
Proof.
  intros Hc. simpl. unfold known_cell. rewrite bool_decide_eq_true_2 by done.
  by destruct (read c s).
Qed.

Lemma run_seq_reads_only p :
  reads_only p → ∀ n g s b, reads_below p (values s) b → b ≤ length (cells s) →
  ∃ s1, run (steps p (values s) + n) (seq p g) s =
          run n (g (RVal (value_of p (values s)))) s1 ∧
        values s1 = values s ∧ stack s1 = stack s ∧
        length (cells s1) = length (cells s) ∧
        length (contexts s1) = length (contexts s) ∧
        (∀ c, b ≤ c → cell_at s1 c = cell_at s c) ∧
        trace s1 = trace s ++ read_events (getCurrentContext s) (reads p (values s)).
Proof.
  induction 1 as [v|c k Hk IH]; intros n g s b Hb Hlen.
  - exists s. split_and!; try done.
    cbn [reads]. destruct (getCurrentContext s); simpl; by rewrite app_nil_r.
  - destruct Hb as [Hc Hb].
    destruct (read_frame c s) as (R1 & R2 & R3 & R4 & R5 & R6).
    cbn [steps seq value_of reads]. change (S ?a + n) with (S (a + n)).
    rewrite run_read by lia. rewrite read_value.
    destruct (IH (value_at (values s) c) n g (read c s).2 b)
      as (s1 & Hrun & V & St & L1 & L2 & Fr & Tr).
    { by rewrite R1. } { lia. }
    rewrite R1 in Hrun, V, Tr. exists s1. split_and!; try congruence.
    + intros c' Hc'. rewrite Fr by done. apply R5. lia.
    + rewrite Tr, R6. unfold getCurrentContext. rewrite R2.
      destruct (head (stack s)); simpl; by rewrite <-app_assoc.
Qed.

Lemma subscriptions_released x s y :
  subscriptions (context_at (released x s) y) = subscriptions (context_at s y) ∧
  disposables (context_at (released x s) y) = disposables (context_at s y) ∧
  disposables_obj (context_at (released x s) y) = disposables_obj (context_at s y) ∧
  parentContext (context_at (released x s) y) = parentContext (context_at s y).
Proof.
  unfold released. rewrite context_at_with_context, context_at_detach, context_at_record.
  by case_decide.
Qed.

Lemma dispose_childless n x s :
  subscriptions (context_at s x) = [] → disposables (context_at s x) = [] →
  dispose (S n) x s =
  Normal tt (with_context x fresh_disposables
               (with_context x (map_subscriptions (λ _, [])) (released x s))).
Proof.
  intros Hsubs Hdisp.
  change (dispose (S n) x s) with
    (let s := released x s in
     let* _, s <- forEach (dispose n) (subscriptions (context_at s x)) s in
     let s := with_context x (map_subscriptions (λ _, [])) s in
     let* _, s <- forEach (invoke n) (disposables (context_at s x)) s in
     Normal tt (with_context x fresh_disposables s)).
  cbv zeta. destruct (subscriptions_released x s x) as (-> & Hd & _). rewrite Hsubs.
  cbn [forEach bind]. rewrite context_at_with_context.
  replace (disposables _) with (@nil disposable); [done|].
  case_decide; simpl; by rewrite Hd, Hdisp.
Qed.

Lemma execute_intro n x s s1 r s4 :
  dispose n x s = Normal tt s1 →
  let s2 := match parentContext (context_at s1 x) with
            | Some p => with_context p (map_subscriptions (λ l, l ++ [x])) s1
            | None => s1
            end in
  let s3 := startTracking x s2 in
  run n (fn (context_at s3 x) x) (record (Ran x) s3) = Normal r s4 →
  execute (S n) x s =
  Normal tt (stopTracking (push_disposable x (disposables_obj (context_at s3 x))
                             (as_disposable r) s4)).
Proof. intros Hd s2 s3 Hrun. simpl. rewrite Hd. simpl. fold s2 s3. by rewrite Hrun. Qed.

Lemma strict_eq_eq a b : strict_eq a b = true → a = b.
Proof.
  destruct a, b; simpl; try done.
  - intros ?%Bool.eqb_prop. congruence.
  - intros ?%Z.eqb_eq. congruence.
  - intros ?%String.eqb_eq. congruence.
Qed.

Lemma reads_only_app f :
  reads_only f → ∀ vs u b, b ≤ length vs → reads_below f vs b →
  steps f (vs ++ u) = steps f vs ∧ value_of f (vs ++ u) = value_of f vs ∧
  reads_below f (vs ++ u) b ∧ reads f (vs ++ u) = reads f vs.
Proof.
  induction 1 as [v|c k Hk IH]; intros vs u b Hlen Hb; [done|].
  destruct Hb as [Hc Hb]. cbn [steps value_of reads_below reads].
  assert (value_at (vs ++ u) c = value_at vs c) as ->.
  { unfold value_at. by rewrite lookup_app_l by lia. }
  destruct (IH (value_at vs c) vs u b Hlen Hb) as (-> & -> & ? & ->). done.
Qed.

Lemma run_write n c v k s :
  c < length (cells s) →
  run (S n) (Write c v k) s = let* _, s' <- write n c (Literal v) s in run n k s'.
Proof. intros Hc. simpl. unfold known_cell. by rewrite bool_decide_eq_true_2. Qed.

Lemma computed_populated f n s :
  reads_only f → reads_below f (values s) (length (cells s)) →
  steps f (values s) + 5 ≤ n →
  ∃ s', computed n f s = Normal (Accessor (length (cells s))) s' ∧
        data (cell_at s' (length (cells s))) = value_of f (values s) ∧
        trace s' = trace s ++ Disposed (length (contexts s)) :: Ran (length (contexts s))
                                :: (ReadBy (length (contexts s)) <$> reads f (values s)).
Proof.
  intros Hf Hb Hn.
  assert (∃ m, n = S (S (S (steps f (values s) + S (S m))))) as [m ->].
  { exists (n - steps f (values s) - 5). lia. }
  set (c := length (cells s)). set (x := length (contexts s)).
  set (sa := (signal VUndefined s).2).
  set (body := λ _ : ctx_id, seq f (write_result c)).
  set (sb := State (stack sa) (cells sa)
               (contexts sa ++ [Context body (getCurrentContext sa) [] [] [] 0]) (trace sa)).
  assert (context_at sb x = Context body (getCurrentContext sa) [] [] [] 0) as Hx.
  { unfold context_at, sb, x; simpl. by rewrite lookup_app_r, Nat.sub_diag. }
  set (n3 := steps f (values s) + S (S m)).
  assert (∃ k, n3 = S k) as [k Hk] by (exists (steps f (values s) + S m); unfold n3; lia).
  pose proof (dispose_childless k x sb) as Hd. rewrite Hx in Hd.
  specialize (Hd eq_refl eq_refl). rewrite <-Hk in Hd.
  set (s1 := with_context x fresh_disposables _) in Hd.
  set (s2 := match parentContext (context_at s1 x) with
             | Some p => with_context p (map_subscriptions (λ l, l ++ [x])) s1
             | None => s1
             end).
  set (s3 := startTracking x s2).
  assert (released x sb = with_context x (map_dependencies (λ _, [])) (record (Disposed x) sb))
    as Hrel.
  { unfold released. rewrite context_at_record, Hx. done. }
  assert (cells s3 = cells sa) as Hcells.
  { unfold s3, s2. destruct (parentContext _); unfold s1; rewrite Hrel; done. }
  assert (values s3 = values s ++ [VUndefined]) as Hvals.
  { unfold values. rewrite Hcells. unfold sa; simpl. by rewrite fmap_app. }
  assert (fn (context_at s3 x) x = seq f (write_result c)) as Hfn.
  { assert (fn (context_at s1 x) = body) as H1.
    { unfold s1. rewrite !fn_with_context by done. unfold released.
      rewrite fn_with_context, context_at_detach, context_at_record by done. by rewrite Hx. }
    unfold s3, s2. change (context_at (startTracking x ?t) x) with (context_at t x).
    destruct (parentContext (context_at s1 x)); [rewrite fn_with_context by done|];
      by rewrite H1. }
  assert (trace s3 = trace s ++ [Disposed x]) as Htr3.
  { unfold s3, s2. destruct (parentContext _); unfold s1; rewrite Hrel; done. }
  destruct (reads_only_app f Hf (values s) [VUndefined] c) as (Hst & Hval & Hbel & Hreads).
  { unfold c, values. by rewrite length_fmap. } { done. }
  destruct (run_seq_reads_only f Hf (S (S m)) (write_result c) (record (Ran x) s3) c)
    as (s4 & Hrun & V4 & St4 & L4 & L4' & Fr4 & Tr4).
  { change (values (record (Ran x) s3)) with (values s3). by rewrite Hvals. }
  { change (cells (record (Ran x) s3)) with (cells s3). rewrite Hcells.
    unfold sa, c; simpl. rewrite length_app. lia. }
  change (values (record (Ran x) s3)) with (values s3) in Hrun, V4.
  rewrite Hvals, Hst, Hval in Hrun. fold n3 in Hrun.
  assert (cell_at s4 c = Cell VUndefined []) as Hc4.
  { rewrite Fr4 by done. unfold cell_at.
    change (cells (record (Ran x) s3)) with (cells s3). rewrite Hcells.
    unfold sa, c; simpl. by rewrite lookup_app_r, Nat.sub_diag. }
  assert (c < length (cells s4)) as Hlen4.
  { rewrite L4. change (cells (record (Ran x) s3)) with (cells s3). rewrite Hcells.
    unfold sa, c; simpl. rewrite length_app; simpl. lia. }
  set (v := value_of f (values s)) in *.
  assert (∃ s5, run (S (S m)) (write_result c (RVal v)) s4 = Normal (RVal VUndefined) s5 ∧
                data (cell_at s5 c) = v ∧ trace s5 = trace s4) as (s5 & Hw & Hdata & Htr5).
  { cbn [write_result]. rewrite run_write by done.
    destruct (strict_eq v (data (cell_at s4 c))) eqn:E.
    - rewrite write_suppressed by done. exists s4. split_and!; [done| |done].
      apply strict_eq_eq in E. by rewrite E.
    - rewrite write_unobserved; [|done|unfold subs; by rewrite Hc4].
      eexists. split_and!; [reflexivity| |done].
      rewrite cell_at_with_cell. by rewrite decide_True. }
  rewrite Hw in Hrun. rewrite <-Hfn in Hrun.
  pose proof (execute_intro n3 x sb s1 _ s5 Hd Hrun) as He.
  eexists. split_and!.
  - change (computed (S (S (S n3))) f s) with
      (let* _, s <- (let* _, s <- execute (S n3) x sb in Normal Undefined s) in
       Normal (Accessor c) s).
    rewrite He. reflexivity.
  - change (cell_at (stopTracking ?t) c) with (cell_at t c).
    unfold push_disposable. case_decide; [|done].
    by change (cell_at (with_context x _ ?t) c) with (cell_at t c).
  - change (trace (stopTracking ?t)) with (trace t). rewrite trace_push_disposable.
    rewrite Htr5, Tr4.
    change (values (record (Ran x) s3)) with (values s3). rewrite Hvals, Hreads.
    change (trace (record (Ran x) s3)) with (trace s3 ++ [Ran x]). rewrite Htr3.
    change (getCurrentContext (record (Ran x) s3)) with (Some x).
    simpl. rewrite <-!app_assoc. done.
Qed.

Lemma effect_trace n f s r s' :
  consistent s → effect n f s = Normal r s' →
  ∃ d, trace s' = trace s ++ d ∧
       1 ≤ runs (length (contexts s)) d ∧
       runs (length (contexts s)) d ≤ disposals (length (contexts s)) d.
Proof.
  intros Hs He. destruct (engine_sound n) as (_ & _ & _ & _ & H & _).
  specialize (H f s Hs). rewrite He in H. destruct H as (d & Hstep & Hbal & Hran).
  exists d. split_and!; [apply Hstep | by apply runs_pos, Hran | apply Hbal].
Qed.

Lemma computed_trace n f s r s' :
  consistent s → computed n f s = Normal r s' →
  ∃ d, trace s' = trace s ++ d ∧
       1 ≤ runs (length (contexts s)) d ∧
       runs (length (contexts s)) d ≤ disposals (length (contexts s)) d.
Proof.
  intros Hs He. destruct (engine_sound n) as (_ & _ & _ & _ & _ & H).
  specialize (H f s Hs). rewrite He in H. destruct H as (d & Hstep & Hbal & Hran).
  exists d. split_and!; [apply Hstep | by apply runs_pos, Hran | apply Hbal].
Qed.

Lemma run_reads_only p :
  reads_only p → ∀ n s b, reads_below p (values s) b → b ≤ length (cells s) →
  ∃ s1, run (S (steps p (values s) + n)) p s = Normal (RVal (value_of p (values s))) s1 ∧
        values s1 = values s ∧ stack s1 = stack s ∧
        trace s1 = trace s ++ read_events (getCurrentContext s) (reads p (values s)).
Proof.
  induction 1 as [v|c k Hk IH]; intros n s b Hb Hlen.
  - exists s. split_and!; try done.
    cbn [reads]. destruct (getCurrentContext s); simpl; by rewrite app_nil_r.
  - destruct Hb as [Hc Hb].
    destruct (read_frame c s) as (R1 & R2 & R3 & R4 & R5 & R6).
    cbn [steps value_of reads]. change (S ?a + n) with (S (a + n)).
    rewrite run_read by lia. rewrite read_value.
    destruct (IH (value_at (values s) c) n (read c s).2 b) as (s1 & Hrun & V & St & Tr).
    { by rewrite R1. } { lia. }
    rewrite R1 in Hrun, V, Tr. exists s1. split_and!; try congruence.
    rewrite Tr, R6. unfold getCurrentContext. rewrite R2.
    destruct (head (stack s)); simpl; by rewrite <-app_assoc.
Qed.

(** A new subscriber whose function only reads: its construction returns,
    and the function was called once. *)
Lemma effect_reads_only f n s :
  reads_only f → reads_below f (values s) (length (cells s)) →
  steps f (values s) + 3 ≤ n →
  ∃ s', effect n (λ _, f) s = Normal Undefined s' ∧
        trace s' = trace s ++ Disposed (length (contexts s)) :: Ran (length (contexts s))
                                :: (ReadBy (length (contexts s)) <$> reads f (values s)).
Proof.
  intros Hf Hb Hn.
  assert (∃ m, n = S (S (S (steps f (values s) + m)))) as [m ->].
  { exists (n - steps f (values s) - 3). lia. }
  set (x := length (contexts s)).
  set (body := λ _ : ctx_id, f).
  set (sb := State (stack s) (cells s)
               (contexts s ++ [Context body (getCurrentContext s) [] [] [] 0]) (trace s)).
  assert (context_at sb x = Context body (getCurrentContext s) [] [] [] 0) as Hx.
  { unfold context_at, sb, x; simpl. by rewrite lookup_app_r, Nat.sub_diag. }
  set (k := steps f (values s) + m).
  pose proof (dispose_childless k x sb) as Hd. rewrite Hx in Hd.
  specialize (Hd eq_refl eq_refl).
  set (s1 := with_context x fresh_disposables _) in Hd.
  set (s2 := match parentContext (context_at s1 x) with
             | Some p => with_context p (map_subscriptions (λ l, l ++ [x])) s1
             | None => s1
             end).
  set (s3 := startTracking x s2).
  assert (released x sb = with_context x (map_dependencies (λ _, [])) (record (Disposed x) sb))
    as Hrel.
  { unfold released. rewrite context_at_record, Hx. done. }
  assert (cells s3 = cells s) as Hcells.
  { unfold s3, s2. destruct (parentContext _); unfold s1; rewrite Hrel; done. }
  assert (trace s3 = trace s ++ [Disposed x]) as Htr3.
  { unfold s3, s2. destruct (parentContext _); unfold s1; rewrite Hrel; done. }
  assert (values s3 = values s) as Hvals by (unfold values; by rewrite Hcells).
  assert (fn (context_at s3 x) x = f) as Hfn.
  { assert (fn (context_at s1 x) = body) as H1.
    { unfold s1. rewrite !fn_with_context by done. unfold released.
      rewrite fn_with_context, context_at_detach, context_at_record by done. by rewrite Hx. }
    unfold s3, s2. change (context_at (startTracking x ?t) x) with (context_at t x).
    destruct (parentContext (context_at s1 x)); [rewrite fn_with_context by done|];
      by rewrite H1. }
  destruct (run_reads_only f Hf m (record (Ran x) s3) (length (cells s)))
    as (s4 & Hrun & _ & _ & Tr4).
  { change (values (record (Ran x) s3)) with (values s3). by rewrite Hvals. }
  { change (cells (record (Ran x) s3)) with (cells s3). by rewrite Hcells. }
  change (values (record (Ran x) s3)) with (values s3) in Hrun, Tr4.
  rewrite Hvals in Hrun, Tr4. fold k in Hrun. rewrite <-Hfn in Hrun.
  pose proof (execute_intro (S k) x sb s1 _ s4 Hd Hrun) as He.
  eexists. split.
  - change (effect (S (S (S k))) body s) with
      (let* _, s <- execute (S (S k)) x sb in Normal Undefined s).
    rewrite He. reflexivity.
  - change (trace (stopTracking ?t)) with (trace t). rewrite trace_push_disposable.
    rewrite Tr4.
    change (trace (record (Ran x) s3)) with (trace s3 ++ [Ran x]). rewrite Htr3.
    change (getCurrentContext (record (Ran x) s3)) with (Some x).
    simpl. rewrite <-!app_assoc. done.
Qed.

Lemma runs_read_events x y cs : runs x (ReadBy y <$> cs) = 0.
Proof.
  induction cs as [|c cs IH]; [done|]. rewrite fmap_cons, runs_cons, IH. by case_decide.
Qed.

Lemma runs_once x y cs : runs x (Disposed x :: Ran x :: (ReadBy y <$> cs)) = 1.
Proof.
  rewrite !runs_cons, runs_read_events. rewrite decide_False by done.
  by rewrite decide_True.
Qed.

(** ** Dependency re-discovery *)

Lemma switched_run a b :
  run 11 (branch_setup a b (Write 2 (VBool false) (Return VUndefined))) initial
  = Normal (RVal VUndefined) (switched a b).
Proof. vm_compute. reflexivity. Qed.

Lemma switched_state a b :
  data (cell_at (switched a b) 0) = a ∧ runs 0 (trace (switched a b)) = 2 ∧
  subs (switched a b) 0 = [] ∧ subs (switched a b) 1 = [0] ∧ subs (switched a b) 2 = [0].
Proof. vm_compute. done. Qed.

Lemma rediscovery_run a b a' :
  run 12 (rediscovery_program a b a') initial =
  let* _, s' <- write 6 0 (Literal a') (switched a b) in run 6 (Return VUndefined) s'.
Proof. vm_compute. reflexivity. Qed.

Lemma rediscovery_scenario a b a' :
  ∃ s1 s',
    run 11 (branch_setup a b (Write 2 (VBool false) (Return VUndefined))) initial
      = Normal (RVal VUndefined) s1 ∧
    runs 0 (trace s1) = 2 ∧ subs s1 0 = [] ∧ subs s1 1 = [0] ∧ subs s1 2 = [0] ∧
    write 6 0 (Literal a') s1 = Normal tt s' ∧ trace s' = trace s1 ∧
    run 12 (rediscovery_program a b a') initial = Normal (RVal VUndefined) s'.
Proof.
  rewrite rediscovery_run, switched_run.
  destruct (switched_state a b) as (Hdata & Hruns & Hsubs0 & Hsubs1 & Hsubs2).
  revert Hdata Hruns Hsubs0 Hsubs1 Hsubs2. generalize (switched a b).
  intros s1 Hdata Hruns Hsubs0 Hsubs1 Hsubs2.
  assert (∃ s', write 6 0 (Literal a') s1 = Normal tt s' ∧ trace s' = trace s1)
    as (s' & Hw & Htr).
  { destruct (strict_eq a' a) eqn:E.
    - rewrite write_suppressed by (by rewrite Hdata). by exists s1.
    - rewrite write_unobserved; [|by rewrite Hdata|done]. by eexists. }
  exists s1, s'. by rewrite Hw.
Qed.




(** ** Writes *)

Lemma write_unfold n c a s :
  write (S n) c a s =
  let* r, s <- next_value n c a s in
  match r with
  | RFn _ => Unsupported
  | RVal nextValue =>
      if negb (strict_eq nextValue (data (cell_at s c))) then
        let s := with_cell c (set_data nextValue) s in
        forEach (execute n) (cell_subscriptions (cell_at s c)) s
      else Normal tt s
  end.
Proof. done. Qed.

(** C2, as amended: on the cells of [signal.js].  When the next value (the
    literal, or what the updater returned for the old value) is strictly
    equal to the value the cell holds, [write] returns in the state in which
    the next value was obtained: nothing is stored and no subscriber is run.
    For a literal this is the state in which [write] was called. *)
Theorem write_suppression n c a s v s1 :
  next_value n c a s = Normal (RVal v) s1 →
  strict_eq v (data (cell_at s1 c)) = true →
  write (S n) c a s = Normal tt s1 ∧ (∀ w, a = Literal w → s1 = s).
Proof.
  intros Hnext Heq. split.
  - rewrite write_unfold, Hnext. simpl. by rewrite Heq.
  - intros w ->. simpl in Hnext. by simplify_eq.
Qed.

(** Cell 0 holds 1 and has a subscriber; 1 is written to it. *)
Lemma write_suppression_witness :
  let s := state_after 10 (branch_setup (VNum 1) (VNum 2) (Return VUndefined)) in
  subs s 0 = [0] ∧
  write 1 0 (Literal (VNum 1)) s = Normal tt s ∧
  (∀ w, Literal (VNum 1) = Literal w → s = s).
Proof.
  intros s. split; [vm_compute; reflexivity|].
  apply (write_suppression 0 0 (Literal (VNum 1)) s (VNum 1) s);
    vm_compute; reflexivity.
Defined.

(** C3.  When the next value is not strictly equal to the value of the
    cell, a [write] that returns has stored the next value and then called
    [execute] for the subscribers the cell had at that moment, one after the
    other in insertion order, each call returning before the next starts and
    all of them before [write] returns; the history grows by one completed
    run per such subscriber, in that order, whatever these runs do to the
    subscriber set. *)
Theorem fan_out n c a s v s1 s' :
  consistent s → c < length (cells s1) →
  next_value n c a s = Normal (RVal v) s1 →
  strict_eq v (data (cell_at s1 c)) = false →
  write (S n) c a s = Normal tt s' →
  let s2 := with_cell c (set_data v) s1 in
  data (cell_at s2 c) = v ∧
  notified n (subs s1 c) s2 s' ∧
  ∃ ds, trace s' = trace s1 ++ concat ds ∧ Forall2 run_of (subs s1 c) ds.
Proof.
  intros Hs Hc Hnext Hne Hw s2.
  assert (consistent s1) as Hs1.
  { destruct a as [w|f]; simpl in Hnext; [by simplify_eq|].
    by eapply run_consistent. }
  assert (subs s2 c = subs s1 c) as Hsubs.
  { unfold s2, subs. rewrite cell_at_with_cell. by case_decide. }
  rewrite write_unfold, Hnext in Hw. simpl in Hw. rewrite Hne in Hw. simpl in Hw.
  fold s2 in Hw. change (cell_subscriptions (cell_at s2 c)) with (subs s2 c) in Hw.
  rewrite Hsubs in Hw. apply forEach_notified in Hw.
  split_and!.
  - unfold s2. rewrite cell_at_with_cell. by rewrite decide_True.
  - done.
  - pose proof (step_set_data s1 c v Hs1) as Hstep. fold s2 in Hstep.
    destruct (notified_runs n (subs s1 c) s2 s') as (ds & Htr & Hds); [apply Hstep| |done|].
    + apply Forall_forall. intros x Hx. rewrite <-Hsubs in Hx.
      by eapply (consistent_known _ (step_consistent _ _ _ Hstep)).
    + exists ds. split; [|done]. rewrite Htr. unfold s2. done.
Qed.

(** In [fan_out_program] the cell has the subscribers 0 and 1.  Writing 1
    runs 0, which disposes 1 and so removes it from the live set; 1 is run
    all the same, after 0. *)
Lemma fan_out_witness :
  let s := state_after 10 fan_out_program in
  let s' := state_of (write 7 0 (Literal (VNum 1)) s) in
  let s2 := with_cell 0 (set_data (VNum 1)) s in
  subs s 0 = [0; 1] ∧
  trace s' = trace s ++ [Disposed 0; Ran 0; ReadBy 0 0; Disposed 1;
                         Disposed 1; Ran 1; ReadBy 1 0] ∧
  data (cell_at s2 0) = VNum 1 ∧
  notified 6 (subs s 0) s2 s' ∧
  ∃ ds, trace s' = trace s ++ concat ds ∧ Forall2 run_of (subs s 0) ds.
Proof.
  intros s s' s2. do 2 (split; [vm_compute; reflexivity|]).
  apply (fan_out 6 0 (Literal (VNum 1)) s (VNum 1) s s').
  - apply state_after_consistent.
  - vm_compute. lia.
  - reflexivity.
  - vm_compute. reflexivity.
  - vm_compute. reflexivity.
Defined.

(** ** Construction *)


(** ** The context stack *)

(** C6, on the code as it is: [execute] calls [dispose] inside its [try]
    block before it pushes the context, so a run whose disposal raises pops
    a frame it has not pushed, and the stack is not what it was before the
    run.  A subscriber of [s] whose cleanup raises, and a subscriber [P]
    (context 1) that constructs a subscriber [O] (context 2) inside
    [try]/[catch] and then reads [t].  The function of [O] writes [s]; the
    disposal that starts the re-run of context 0 raises before anything was
    pushed, yet the [finally] of that run pops the frame of [O], and the
    [finally] of [O] then pops the frame of [P].  The script returns, and
    the read of [t] by [P] was not tracked: [t] has no subscriber, where it
    has [P] when the cleanup is harmless.  In the resulting state one more
    run of context 0, started while [P] is the active context, ends with an
    empty stack. *)
Theorem failed_disposal_corrupts_stack :
  let s' := state_after 20 (corrupting_program (Throw (VStr "boom"))) in
  let ok := state_after 20 (corrupting_program (Return VUndefined)) in
  run 20 (corrupting_program (Throw (VStr "boom"))) initial = Normal (RVal VUndefined) s' ∧
  trace s' = [Disposed 0; Ran 0; ReadBy 0 0; Disposed 1; Ran 1; Disposed 2; Ran 2; Disposed 0] ∧
  subs s' 1 = [] ∧
  subs ok 1 = [1] ∧
  (let mid := startTracking 1 s' in
   stack mid = [1] ∧
   ∃ e s1, execute 5 0 mid = Thrown e s1 ∧ stack s1 = []).
Proof.
  vm_compute. split_and!; try reflexivity. eexists _, _. split; reflexivity.
Qed.

(** ** Disposal *)

(** C7.  A [dispose] that returns has removed the context from the
    subscriber set of every cell in its [dependencies] and emptied that
    list, then disposed each child in the same way (and so every
    descendant) and emptied the list of children, then called every cleanup
    and emptied that list.  On a context whose three lists are empty
    [dispose] returns and changes neither the stack, nor a cell, nor what a
    list of any context holds. *)
Theorem dispose_teardown n x s :
  consistent s →
  (∀ s', dispose n x s = Normal tt s' →
     teardown n x s s' ∧
     (∀ c, x ∉ subs (released x s) c) ∧ deps (released x s) x = [] ∧
     disposables (context_at s' x) = []) ∧
  (dependencies (context_at s x) = [] → subscriptions (context_at s x) = [] →
   disposables (context_at s x) = [] →
   ∃ s', dispose (S n) x s = Normal tt s' ∧
         stack s' = stack s ∧ cells s' = cells s ∧ trace s' = trace s ++ [Disposed x] ∧
         ∀ y, dependencies (context_at s' y) = dependencies (context_at s y) ∧
              subscriptions (context_at s' y) = subscriptions (context_at s y) ∧
              disposables (context_at s' y) = disposables (context_at s y)).
Proof.
  intros Hs. split.
  - intros s' Hd. split_and!.
    + by apply dispose_is_teardown.
    + intros c. by apply released_clears.
    + rewrite deps_released. by rewrite decide_True.
    + apply dispose_is_teardown in Hd. inversion Hd; subst.
      rewrite context_at_with_context. case_decide as Hx; [done|].
      unfold context_at. rewrite lookup_ge_None_2; [done|].
      destruct (decide (x < length (contexts s2))); [tauto|lia].
  - intros Hdeps Hsubs Hdisp.
    assert (released x s = with_context x (map_dependencies (λ _, [])) (record (Disposed x) s))
      as Hrel.
    { unfold released. rewrite context_at_record, Hdeps. done. }
    eexists. split; [|split_and!].
    + simpl. change (with_context x (map_dependencies (λ _, [])) _) with (released x s).
      rewrite Hrel.
      rewrite context_at_with_context.
      replace (subscriptions _) with (@nil ctx_id) by (case_decide; simpl; by rewrite ?Hsubs).
      simpl.
      rewrite !context_at_with_context.
      replace (disposables _) with (@nil disposable).
      { simpl. reflexivity. }
      repeat case_decide; simpl; by rewrite ?Hdisp.
    + done.
    + done.
    + done.
    + intros y. rewrite !context_at_with_context. simpl.
      rewrite context_at_record.
      repeat case_decide; simpl; destruct_and?; subst; rewrite ?Hdeps, ?Hsubs, ?Hdisp; done.
Qed.

(** Three nested subscribers of one cell.  Disposing the outermost one
    disposes all three and leaves the cell without subscribers; disposing
    it once more only adds the event of that call. *)
Lemma dispose_teardown_witness :
  let s := state_after 20 nested_program in
  let s' := state_of (dispose 5 0 s) in
  subs s 0 = [0; 1; 2] ∧ subs s' 0 = [] ∧
  trace s' = trace s ++ [Disposed 0; Disposed 1; Disposed 2] ∧
  (teardown 5 0 s s' ∧ (∀ c, 0 ∉ subs (released 0 s) c) ∧ deps (released 0 s) 0 = [] ∧
   disposables (context_at s' 0) = []) ∧
  (∃ s'', dispose 6 0 s' = Normal tt s'' ∧
          stack s'' = stack s' ∧ cells s'' = cells s' ∧
          trace s'' = trace s' ++ [Disposed 0] ∧
          ∀ y, dependencies (context_at s'' y) = dependencies (context_at s' y) ∧
               subscriptions (context_at s'' y) = subscriptions (context_at s' y) ∧
               disposables (context_at s'' y) = disposables (context_at s' y)).
Proof.
  intros s s'. do 3 (split; [vm_compute; reflexivity|]). split.
  - apply (proj1 (dispose_teardown 5 0 s (state_after_consistent _ _))).
    vm_compute. reflexivity.
  - assert (consistent s') as Hs'.
    { destruct (engine_sound 5) as (_ & _ & _ & H & _).
      specialize (H 0 s (state_after_consistent _ _)).
      destruct (dispose 5 0 s) as [a t|e t| |] eqn:E; try (vm_compute in E; discriminate).
      destruct H as (d & Hstep & _). apply Hstep. }
    apply (proj2 (dispose_teardown 5 0 s' Hs')); vm_compute; reflexivity.
Defined.

(** ** Reads *)

(** C8.  [read] returns the value the cell holds.  With an active context
    it adds that context to the subscriber set of the cell and appends the
    cell's set to the [dependencies] of the context, and changes nothing
    else; a second entry for the same set in [dependencies] leaves the
    effect of detaching unchanged.  Without an active context [read] leaves
    the state as it is. *)
Theorem read_contract c s :
  c < length (cells s) →
  (∀ x, getCurrentContext s = Some x → x < length (contexts s)) →
  let '(v, s') := read c s in
  v = data (cell_at s c) ∧
  match getCurrentContext s with
  | Some x =>
      subs s' c = set_add x (subs s c) ∧
      deps s' x = deps s x ++ [c] ∧
      (∀ c', c' ≠ c → cell_at s' c' = cell_at s c') ∧
      (∀ x', x' ≠ x → context_at s' x' = context_at s x') ∧
      data (cell_at s' c) = data (cell_at s c) ∧
      subscriptions (context_at s' x) = subscriptions (context_at s x) ∧
      disposables (context_at s' x) = disposables (context_at s x) ∧
      stack s' = stack s ∧
      detach x (deps s' x ++ [c]) s' = detach x (deps s' x) s'
  | None => s' = s
  end.
Proof.
  intros Hc Hx. unfold read. destruct (getCurrentContext s) as [x|] eqn:Hcur; [|done].
  specialize (Hx x eq_refl).
  set (s1 := with_cell c (map_cell_subscriptions (set_add x)) (record (ReadBy x c) s)).
  set (s' := with_context x (map_dependencies (λ d, d ++ [c])) s1).
  assert (∀ c', cell_at s' c' = cell_at s1 c') as Hcell by done.
  assert (deps s' x = deps s x ++ [c]) as Hdeps.
  { unfold deps, s'. rewrite context_at_with_context. by rewrite decide_True. }
  split_and!.
  - rewrite Hcell. unfold s1. rewrite cell_at_with_cell. by case_decide.
  - unfold subs. rewrite Hcell. unfold s1. rewrite cell_at_with_cell.
    by rewrite decide_True.
  - done.
  - intros c' Hne. rewrite Hcell. unfold s1. rewrite cell_at_with_cell.
    rewrite decide_False; [done|]. intros [? _]; congruence.
  - intros x' Hne. unfold s'. rewrite context_at_with_context.
    rewrite decide_False; [done|]. intros [? _]; congruence.
  - rewrite Hcell. unfold s1. rewrite cell_at_with_cell. by case_decide.
  - unfold s'. rewrite context_at_with_context. by case_decide.
  - unfold s'. rewrite context_at_with_context. by case_decide.
  - done.
  - rewrite Hdeps. unfold detach. rewrite !foldl_app. simpl.
    set (t := foldl _ s' (deps s x)).
    unfold with_cell; simpl. f_equal.
    rewrite list_alter_alter_eq.
    apply list_alter_ext; [|done]. intros [d l] _.
    unfold map_cell_subscriptions; simpl. by rewrite set_delete_idemp.
Qed.

(** Context 0 is active and has read cells 2 and 0; it reads cell 1. *)
Lemma read_contract_witness :
  let s := startTracking 0 (state_after 10 (branch_setup (VNum 1) (VNum 2) (Return VUndefined))) in
  (read 1 s).1 = VNum 2 ∧ subs (read 1 s).2 1 = [0] ∧ deps (read 1 s).2 0 = [2; 0; 1].
Proof.
  intros s. pose proof (read_contract 1 s) as H.
  destruct (read 1 s) as [v s'] eqn:Hr.
  destruct H as (Hv & Hsubs & Hdeps & _).
  - vm_compute. lia.
  - intros x [= <-]. vm_compute. lia.
  - simpl in *. split_and!; [by rewrite Hv | by rewrite Hsubs | by rewrite Hdeps].
Defined.

(** ** No call leaves a frame behind or wakes an inert context *)

Lemma quiet_nil y : quiet y [].
Proof. split; [|intros c]; apply not_elem_of_nil. Qed.

Lemma quiet_app y d1 d2 : quiet y d1 → quiet y d2 → quiet y (d1 ++ d2).
Proof.
  intros [R1 B1] [R2 B2]. split; [|intros c]; rewrite elem_of_app; intros [?|?];
    [by apply R1 | by apply R2 | by apply (B1 c) | by apply (B2 c)].
Qed.

Lemma quiet_disposed y x : quiet y [Disposed x].
Proof. split; [|intros c]; by rewrite list_elem_of_singleton. Qed.

Lemma quiet_other y x : y ≠ x → quiet y [Ran x].
Proof. intros Hne. split; [|intros c]; rewrite list_elem_of_singleton; congruence. Qed.

Lemma contained_return {A} X (a : A) s : contained X s (Normal a s).
Proof.
  split_and!; [done..|]. exists []. split; [by rewrite app_nil_r|].
  intros y Hy _. split; [done | apply quiet_nil].
Qed.

Lemma contained_thrown {A} X e s : contained (A := A) X s (Thrown e s).
Proof. apply (contained_return X tt s). Qed.

Lemma contained_weaken {A} (X X' : ctx_id → Prop) s (o : result A) :
  (∀ y, inert s y → X' y → X y) → contained X s o → contained X' s o.
Proof.
  intros HX. destruct o as [a s'|e s'| |]; simpl; [| |done..];
    intros (H1 & H2 & d & Htr & H); (split_and!; [done..|]); exists d; (split; [done|]);
    intros y Hy Hy'; apply H; auto.
Qed.

(** One call after another. *)
Lemma contained_bind {A B} X s (m : result A) (f : A → state → result B) :
  contained X s m → (∀ a s1, m = Normal a s1 → contained X s1 (f a s1)) →
  contained X s (let* a, s1 <- m in f a s1).
Proof.
  intros Hm Hf. destruct m as [a s1|e s1| |]; simpl; [|done..].
  destruct Hm as (S1 & L1 & d1 & T1 & I1). specialize (Hf a s1 eq_refl).
  assert (∀ s2, True →
            stack s2 `suffix_of` stack s1 ∧ length (contexts s1) ≤ length (contexts s2) ∧
            (∃ d, trace s2 = trace s1 ++ d ∧ ∀ y, inert s1 y → X y → inert s2 y ∧ quiet y d) →
            stack s2 `suffix_of` stack s ∧ length (contexts s) ≤ length (contexts s2) ∧
            (∃ d, trace s2 = trace s ++ d ∧ ∀ y, inert s y → X y → inert s2 y ∧ quiet y d))
    as Hcomp.
  { intros s2 _ (S2 & L2 & d2 & T2 & I2). split_and!.
    - by trans (stack s1).
    - lia.
    - exists (d1 ++ d2). split; [by rewrite T2, T1, app_assoc|]. intros y Hy HX.
      destruct (I1 y Hy HX) as [Hy1 Q1]. destruct (I2 y Hy1 HX) as [Hy2 Q2].
      split; [done | by apply quiet_app]. }
  destruct (f a s1) as [b s2|e s2| |]; simpl in *; [| |done..]; by apply Hcomp.
Qed.

Local Arguments contained : simpl never.

(** A call started in the state that a step has led to. *)
Lemma contained_prefix {A} X s s1 (o : result A) :
  contained X s (Normal tt s1) → contained X s1 o → contained X s o.
Proof.
  intros H1 H2. apply (contained_bind X s (Normal tt s1) (λ _ _, o)); [done|].
  intros [] s1' [= <-]. exact H2.
Qed.

Lemma contained_forEach {A} X (f : A → state → result unit) l s :
  (∀ a s, a ∈ l → contained X s (f a s)) → contained X s (forEach f l s).
Proof.
  revert s. induction l as [|a l IH]; intros s Hf; simpl.
  - apply contained_return.
  - apply contained_bind; [apply Hf; by left|].
    intros _ s1 _. apply IH. intros b s2 Hb. apply Hf. by right.
Qed.

(** Steps that change neither the stack, nor a subscriber set, nor the
    number of contexts. *)
Lemma contained_quiet_step X s s1 d :
  stack s1 = stack s → length (contexts s) ≤ length (contexts s1) →
  trace s1 = trace s ++ d → (∀ c y, y ∈ subs s1 c → y ∈ subs s c) →
  (∀ y, quiet y d) →
  contained X s (Normal tt s1).
Proof.
  intros Hst Hlen Htr Hsubs Hd. split_and!; [by rewrite Hst | lia |].
  exists d. split; [done|]. intros y (Hy & Hs & Hc) _. split; [|done].
  split_and!; [lia | by rewrite Hst | intros c Hin; by apply (Hc c), Hsubs].
Qed.

Lemma contained_with_context X s x f : contained X s (Normal tt (with_context x f s)).
Proof.
  apply (contained_quiet_step X s _ []); try done.
  - simpl. by rewrite length_alter.
  - simpl. by rewrite app_nil_r.
  - intros y. apply quiet_nil.
Qed.

Lemma contained_set_data X s c v : contained X s (Normal tt (with_cell c (set_data v) s)).
Proof.
  apply (contained_quiet_step X s _ []); try done.
  - simpl. by rewrite app_nil_r.
  - intros c' y. unfold subs. rewrite cell_at_with_cell. by case_decide.
  - intros y. apply quiet_nil.
Qed.

Lemma contained_push_disposable X s x obj d :
  contained X s (Normal tt (push_disposable x obj d s)).
Proof.
  unfold push_disposable. case_decide; [apply contained_with_context | apply contained_return].
Qed.

Lemma contained_signal X s v : contained X s (Normal tt (signal v s).2).
Proof.
  apply (contained_quiet_step X s _ []); try done.
  - simpl. by rewrite app_nil_r.
  - intros c y. unfold subs, cell_at, signal; simpl.
    destruct (decide (c < length (cells s))) as [Hc|Hc].
    + by rewrite lookup_app_l.
    + rewrite lookup_app_r by lia.
      destruct (c - length (cells s)) as [|k]; simpl; by intros ?%not_elem_of_nil.
  - intros y. apply quiet_nil.
Qed.

Lemma contained_released X s x : contained X s (Normal tt (released x s)).
Proof.
  unfold released.
  destruct (detach_frame x (dependencies (context_at (record (Disposed x) s) x))
              (record (Disposed x) s)) as (D1 & D2 & D3 & D4).
  apply (contained_quiet_step X s _ [Disposed x]).
  - simpl. by rewrite D1.
  - simpl. by rewrite length_alter, D2.
  - simpl. by rewrite D3.
  - intros c y. change (subs (with_context x _ ?t) c) with (subs t c).
    rewrite subs_detach. case_decide; [|done].
    intros [_ ?]%elem_of_set_delete. done.
  - intros y. apply quiet_disposed.
Qed.

Lemma contained_read X s c :
  c < length (cells s) → contained X s (Normal tt (read c s).2).
Proof.
  intros Hknown.
  unfold read. destruct (getCurrentContext s) as [x|] eqn:Hx; simpl;
    [|apply contained_return].
  assert (x ∈ stack s) as Hin.
  { unfold getCurrentContext in Hx. destruct (stack s); simplify_eq/=. by left. }
  unfold contained; simpl. rewrite length_alter. split_and!; [done..|].
  exists [ReadBy x c]. split; [done|].
  intros y (Hy & Hs & Hc) _.
  assert (y ≠ x) as Hne by congruence.
  split.
  - split_and!; [simpl; by rewrite length_alter | done |].
    intros c'. change (subs (with_context x _ ?t) c') with (subs t c').
    rewrite subs_with_cell_known by done.
    case_decide; [|apply Hc]. rewrite elem_of_set_add. intros [?|?]; [done|by apply (Hc c')].
  - split; [|intros c']; rewrite list_elem_of_singleton; congruence.
Qed.

Lemma suffix_tail (l : list ctx_id) : tail l `suffix_of` l.
Proof. destruct l as [|a l]; [done|]. simpl. by apply suffix_cons_r. Qed.

Lemma suffix_tail_pushed (l k : list ctx_id) x : l `suffix_of` x :: k → tail l `suffix_of` k.
Proof.
  destruct l as [|a l]; [intros _; apply suffix_nil|].
  intros [[= -> ->]|H]%suffix_cons_inv; [done|]. simpl.
  trans (a :: l); [by apply suffix_cons_r | done].
Qed.

Lemma not_elem_of_suffix (l k : list ctx_id) y : l `suffix_of` k → y ∉ k → y ∉ l.
Proof. intros [k' ->] Hy Hin. apply Hy, elem_of_app. by right. Qed.

(** [stopTracking] after a call that raised or returned. *)
Lemma contained_finally {A} X s (o : result A) :
  contained X s o → contained X s (finally o stopTracking).
Proof.
  assert (∀ s', stack s' `suffix_of` stack s ∧ length (contexts s) ≤ length (contexts s') ∧
               (∃ d, trace s' = trace s ++ d ∧ ∀ y, inert s y → X y → inert s' y ∧ quiet y d) →
               stack (stopTracking s') `suffix_of` stack s ∧
               length (contexts s) ≤ length (contexts (stopTracking s')) ∧
               (∃ d, trace (stopTracking s') = trace s ++ d ∧
                     ∀ y, inert s y → X y → inert (stopTracking s') y ∧ quiet y d)) as H.
  { intros s' (S1 & L1 & d & T1 & I1). split_and!; [|done|].
    - trans (stack s'); [apply suffix_tail | done].
    - exists d. split; [done|]. intros y Hy HX. destruct (I1 y Hy HX) as [(Y1 & Y2 & Y3) Q].
      split; [|done]. split_and!; [done| |done].
      by apply (not_elem_of_suffix _ (stack s')); [apply suffix_tail|]. }
  destruct o as [a s'|e s'| |]; unfold contained; simpl; [| |done..]; apply H.
Qed.

(** The function of [x] called with [x] pushed, followed by [stopTracking]. *)
Lemma contained_tracked {A} s1 x (o : result A) :
  contained any_context (record (Ran x) (startTracking x s1)) o →
  contained (λ y, y ≠ x) s1 (finally o stopTracking).
Proof.
  assert (∀ s4,
    stack s4 `suffix_of` x :: stack s1 ∧ length (contexts s1) ≤ length (contexts s4) ∧
    (∃ d, trace s4 = (trace s1 ++ [Ran x]) ++ d ∧
          ∀ y, inert (record (Ran x) (startTracking x s1)) y → any_context y →
               inert s4 y ∧ quiet y d) →
    stack (stopTracking s4) `suffix_of` stack s1 ∧
    length (contexts s1) ≤ length (contexts (stopTracking s4)) ∧
    (∃ d, trace (stopTracking s4) = trace s1 ++ d ∧
          ∀ y, inert s1 y → y ≠ x → inert (stopTracking s4) y ∧ quiet y d)) as H.
  { intros s4 (S1 & L1 & d & T1 & I1). split_and!; [by eapply suffix_tail_pushed|done|].
    exists (Ran x :: d). split; [simpl; by rewrite T1, <-app_assoc|].
    intros y (Y1 & Y2 & Y3) Hne.
    destruct (I1 y) as [(Z1 & Z2 & Z3) Q]; [|done|].
    { split_and!; [done| |done]. simpl. rewrite not_elem_of_cons. done. }
    split.
    - split_and!; [done| |done].
      by apply (not_elem_of_suffix _ (stack s4)); [apply suffix_tail|].
    - change (Ran x :: d) with ([Ran x] ++ d). apply quiet_app; [by apply quiet_other|done]. }
  destruct o as [a s4|e s4| |]; unfold contained; simpl; [| |done..]; apply H.
Qed.

Lemma contained_new_context X s f p :
  contained X s
    (Normal tt (State (stack s) (cells s) (contexts s ++ [Context f p [] [] [] 0]) (trace s))).
Proof.
  apply (contained_quiet_step X s _ []); try done.
  - simpl. rewrite length_app. lia.
  - simpl. by rewrite app_nil_r.
  - intros y. apply quiet_nil.
Qed.

Lemma engine_contained n :
  (∀ p s, contained any_context s (run n p s)) ∧
  (∀ c a s, contained any_context s (write n c a s)) ∧
  (∀ x s, contained (λ y, y ≠ x) s (execute n x s)) ∧
  (∀ x s, contained any_context s (dispose n x s)) ∧
  (∀ f s, contained any_context s (effect n f s)) ∧
  (∀ f s, contained any_context s (computed n f s)).
Proof.
  induction n as [|n (IHrun & IHwrite & IHexec & IHdisp & IHeff & IHcomp)];
    [by repeat split|].
  split_and!.
  - (* run *)
    intros p s. destruct p as [v|q|e|c k|c v k|c u k|v k|f k|f k|d k|b h k]; simpl.
    + apply contained_return.
    + apply contained_return.
    + apply contained_thrown.
    + unfold known_cell. case_bool_decide as Hc; [|done].
      destruct (read c s) as [v s'] eqn:Hread.
      assert (s' = (read c s).2) as -> by (by rewrite Hread).
      eapply contained_prefix; [by apply contained_read | apply IHrun].
    + destruct (known_cell s c); [|done].
      apply contained_bind; [apply IHwrite | intros; apply IHrun].
    + destruct (known_cell s c); [|done].
      apply contained_bind; [apply IHwrite | intros; apply IHrun].
    + eapply contained_prefix; [apply contained_signal | apply IHrun].
    + apply contained_bind; [apply IHeff | intros; apply IHrun].
    + apply contained_bind; [apply IHcomp|]. intros [] s1 _; done.
    + destruct (known_context s d); [|done].
      apply contained_bind; [apply IHdisp | intros; apply IHrun].
    + pose proof (IHrun b s) as Hb.
      destruct (run n b s) as [r s1|e s1| |] eqn:E; [| |done..].
      * eapply contained_prefix; [exact Hb | apply IHrun].
      * eapply contained_prefix; [exact Hb|].
        apply contained_bind; [apply IHrun | intros; apply IHrun].
  - (* write *)
    intros c a s. simpl.
    apply contained_bind.
    { destruct a; [apply contained_return | apply IHrun]. }
    intros [v|q] s1 _; [|done].
    destruct (negb _); [|apply contained_return].
    eapply contained_prefix; [apply contained_set_data|].
    set (s2 := with_cell c (set_data v) s1).
    apply (contained_weaken (λ y, y ∉ cell_subscriptions (cell_at s2 c))).
    { intros y (_ & _ & Hy) _. apply (Hy c). }
    apply contained_forEach. intros x s3 Hx.
    eapply contained_weaken; [|apply IHexec]. simpl. intros y _ Hy ->. done.
  - (* execute *)
    intros x s. simpl.
    pose proof (IHdisp x s) as Hd.
    destruct (dispose n x s) as [[] s1|e s1| |] eqn:E; [| |done..].
    + cbn [bind].
      set (s2 := match parentContext (context_at s1 x) with
                 | Some p => with_context p (map_subscriptions (λ l, l ++ [x])) s1
                 | None => s1
                 end).
      eapply (contained_weaken any_context) in Hd; [|done].
      eapply contained_prefix; [exact Hd|].
      eapply contained_prefix.
      { instantiate (1 := s2). unfold s2.
        destruct (parentContext _); [apply contained_with_context | apply contained_return]. }
      apply (contained_tracked s2 x).
      apply contained_bind; [apply IHrun|]. intros r s4 _.
      apply (contained_push_disposable any_context s4).
    + cbn [bind finally].
      apply (contained_weaken any_context); [done|].
      apply (contained_finally any_context s (Thrown e s1)). exact Hd.
  - (* dispose *)
    intros x s. simpl.
    change (with_context x (map_dependencies (λ _, [])) _) with (released x s).
    eapply contained_prefix; [apply contained_released|].
    apply contained_bind; [apply contained_forEach; intros; apply IHdisp|].
    intros _ s1 _.
    eapply contained_prefix; [apply contained_with_context|].
    apply contained_bind.
    { apply contained_forEach. intros [p|v] s2 _; [|apply contained_thrown].
      apply contained_bind; [apply IHrun | intros; apply contained_return]. }
    intros _ s2 _. apply contained_with_context.
  - (* effect *)
    intros f s. simpl.
    apply (contained_weaken (λ y, y ≠ length (contexts s))).
    { intros y (Hy & _) _. lia. }
    eapply contained_prefix; [apply (contained_new_context _ s f (getCurrentContext s))|].
    apply contained_bind; [apply IHexec | intros; apply contained_return].
  - (* computed *)
    intros f s. simpl.
    eapply contained_prefix; [apply (contained_signal _ s VUndefined)|].
    apply contained_bind; [apply IHeff | intros; apply contained_return].
Qed.

Local Arguments contained : simpl never.

Lemma contained_final {A} X s (o : result A) s' :
  contained X s o → final o = Some s' →
  stack s' `suffix_of` stack s ∧ length (contexts s) ≤ length (contexts s') ∧
  ∃ d, trace s' = trace s ++ d ∧ ∀ y, inert s y → X y → inert s' y ∧ quiet y d.
Proof. destruct o as [a t|e t| |]; simpl; try done; by intros H [= <-]. Qed.

(** The rest of [dispose] once the dependency edges are released. *)
Lemma dispose_after_release n x s :
  contained any_context (released x s) (dispose (S n) x s).
Proof.
  destruct (engine_contained n) as (IHrun & _ & _ & IHdisp & _).
  change (dispose (S n) x s) with
    (let s := released x s in
     let* _, s <- forEach (dispose n) (subscriptions (context_at s x)) s in
     let s := with_context x (map_subscriptions (λ _, [])) s in
     let* _, s <- forEach (invoke n) (disposables (context_at s x)) s in
     Normal tt (with_context x fresh_disposables s)).
  cbv zeta.
  apply contained_bind; [apply contained_forEach; intros; apply IHdisp|].
  intros _ s1 _.
  eapply contained_prefix; [apply contained_with_context|].
  apply contained_bind.
  { apply contained_forEach. intros [p|v] s2 _; [|apply contained_thrown].
    apply contained_bind; [apply IHrun | intros; apply contained_return]. }
  intros _ s2 _. apply contained_with_context.
Qed.

(** However a call of the engine ends, by returning or by raising, the
    tracking stack it leaves is a suffix of the stack it found: no call
    leaves a frame of its own behind.  A call made outside of every
    subscriber therefore ends with an empty stack. *)
Theorem stack_never_grows n s s' :
  (∃ p, final (run n p s) = Some s') ∨
  (∃ c a, final (write n c a s) = Some s') ∨
  (∃ x, final (execute n x s) = Some s') ∨
  (∃ x, final (dispose n x s) = Some s') ∨
  (∃ f, final (effect n f s) = Some s') ∨
  (∃ f, final (computed n f s) = Some s') →
  stack s' `suffix_of` stack s ∧ (stack s = [] → stack s' = []).
Proof.
  destruct (engine_contained n) as (Hrun & Hwrite & Hexec & Hdisp & Heff & Hcomp).
  intros H.
  assert (stack s' `suffix_of` stack s) as Hsuf.
  { destruct H as [[p H]|[(c & a & H)|[[x H]|[[x H]|[[f H]|[f H]]]]]].
    - by destruct (contained_final _ _ _ _ (Hrun p s) H).
    - by destruct (contained_final _ _ _ _ (Hwrite c a s) H).
    - by destruct (contained_final _ _ _ _ (Hexec x s) H).
    - by destruct (contained_final _ _ _ _ (Hdisp x s) H).
    - by destruct (contained_final _ _ _ _ (Heff f s) H).
    - by destruct (contained_final _ _ _ _ (Hcomp f s) H). }
  split; [done|]. intros Hnil. rewrite Hnil in Hsuf. by apply suffix_nil_inv.
Qed.

(** The script whose nested construction raises: the stack is empty at its
    end, as it was at its start. *)
Lemma stack_never_grows_witness :
  let s' := state_after 20 (corrupting_program (Throw (VStr "boom"))) in
  stack s' `suffix_of` stack initial ∧ (stack initial = [] → stack s' = []).
Proof.
  intros s'. apply (stack_never_grows 20 initial s').
  left. exists (corrupting_program (Throw (VStr "boom"))). vm_compute. reflexivity.
Defined.

(** A context that is not on the stack and in no subscriber set stays so
    through every script, however the script ends: its function is not
    called and no read subscribes it. *)
Theorem inert_stays_inert n p s s' y :
  inert s y → final (run n p s) = Some s' →
  inert s' y ∧ ∃ d, trace s' = trace s ++ d ∧ quiet y d.
Proof.
  intros Hy H. destruct (engine_contained n) as (Hrun & _).
  destruct (contained_final _ _ _ _ (Hrun p s) H) as (_ & _ & d & Htr & Hd).
  destruct (Hd y Hy I) as [Hy' Hq]. eauto.
Qed.

(** A subscriber that calls the [dispose] it is given, and then two writes
    of the cell it has read. *)
Lemma inert_stays_inert_witness :
  let s := state_after 10 (NewSignal (VNum 0) (λ a,
             NewEffect (self_disposing a) (Return VUndefined))) in
  let p := Write 0 (VNum 1) (Write 0 (VNum 2) (Return VUndefined)) in
  let s' := state_after_from s 10 p in
  inert s 0 ∧ data (cell_at s' 0) = VNum 2 ∧
  inert s' 0 ∧ ∃ d, trace s' = trace s ++ d ∧ quiet 0 d.
Proof.
  intros s p s'.
  assert (inert s 0) as Hs.
  { split_and!; [vm_compute; lia | vm_compute; apply not_elem_of_nil |].
    intros [|[|c]]; vm_compute; apply not_elem_of_nil. }
  split; [exact Hs|]. split; [vm_compute; reflexivity|].
  apply (inert_stays_inert 10 p s s' 0 Hs). vm_compute. reflexivity.
Defined.

Lemma after_scripts_inert l : ∀ s y,
  inert s y →
  inert (after_scripts s l) y ∧ ∃ d, trace (after_scripts s l) = trace s ++ d ∧ quiet y d.
Proof.
  induction l as [|[n p] l IH]; intros s y Hy; simpl.
  - split; [done|]. exists []. split; [by rewrite app_nil_r | apply quiet_nil].
  - assert (inert (state_after_from s n p) y ∧
            ∃ d, trace (state_after_from s n p) = trace s ++ d ∧ quiet y d) as (Hy1 & d1 & Ht1 & Hq1).
    { unfold state_after_from. destruct (final (run n p s)) as [s1|] eqn:E; simpl.
      - destruct (engine_contained n) as (Hrun & _).
        destruct (contained_final _ _ _ _ (Hrun p s) E) as (_ & _ & d & Htr & Hd).
        destruct (Hd y Hy I). eauto.
      - split; [done|]. exists []. split; [by rewrite app_nil_r | apply quiet_nil]. }
    destruct (IH _ y Hy1) as (Hy2 & d2 & Ht2 & Hq2).
    split; [done|]. exists (d1 ++ d2). split; [|by apply quiet_app].
    by rewrite Ht2, Ht1, <-app_assoc.
Qed.

(** [dispose] of a context that is not running, in a consistent state:
    however the call ends, the context is on no stack and in no subscriber
    set, and it stays so through every sequence of scripts that are run,
    one after the other, from the state the call left: its function is not
    called and no read subscribes it.  This is about what runs after
    [dispose] and its caller have returned; a fan-out that was under way
    when [dispose] was called goes on over its snapshot, and runs the
    context if the snapshot holds it ([disposed_during_fan_out]). *)
Theorem disposed_never_runs n x s s' :
  consistent s → x < length (contexts s) → x ∉ stack s →
  final (dispose n x s) = Some s' →
  inert s' x ∧
  ∀ l, inert (after_scripts s' l) x ∧
       ∃ d, trace (after_scripts s' l) = trace s' ++ d ∧ quiet x d.
Proof.
  intros Hs Hx Hst H.
  assert (inert s' x) as Hin.
  { destruct n as [|n]; [done|].
    assert (inert (released x s) x) as Hrel.
    { destruct (step_released x s Hs) as [_ Hlen _ _ _].
      split_and!; [lia | | intros c; by apply released_clears].
      unfold released. simpl.
      by destruct (detach_frame x (dependencies (context_at (record (Disposed x) s) x))
                     (record (Disposed x) s)) as (-> & _). }
    destruct (contained_final _ _ _ _ (dispose_after_release n x s) H)
      as (_ & _ & d & _ & Hd).
    by destruct (Hd x Hrel I). }
  split; [done|]. intros l. by apply after_scripts_inert.
Qed.

(** Three nested subscribers of one cell; the outermost is disposed, then
    the cell is written twice. *)
Lemma disposed_never_runs_witness :
  let s := state_after 20 nested_program in
  let s' := state_of (dispose 5 0 s) in
  let l := [(10, Write 0 (VNum 1) (Return VUndefined));
            (10, Write 0 (VNum 2) (Return VUndefined))] in
  subs s 0 = [0; 1; 2] ∧ trace (after_scripts s' l) = trace s' ∧
  data (cell_at (after_scripts s' l) 0) = VNum 2 ∧
  inert s' 0 ∧ inert (after_scripts s' l) 0 ∧
  ∃ d, trace (after_scripts s' l) = trace s' ++ d ∧ quiet 0 d.
Proof.
  intros s s' l. do 3 (split; [vm_compute; reflexivity|]).
  destruct (disposed_never_runs 5 0 s s') as [H1 H2].
  - apply state_after_consistent.
  - vm_compute. lia.
  - vm_compute. apply not_elem_of_nil.
  - vm_compute. reflexivity.
  - split; [exact H1|]. apply (H2 l).
Defined.

(** The two subscribers of [fan_out_program], and the write of 1: the first
    subscriber disposes context 1 while the fan-out of the write is under
    way, and the fan-out, whose snapshot holds context 1, runs it
    afterwards, so that it is a subscriber of the cell again. *)
Example disposed_during_fan_out :
  let s := state_after 10 fan_out_program in
  let s' := state_after_from s 10 (Write 0 (VNum 1) (Return VUndefined)) in
  subs s 0 = [0; 1] ∧
  trace s' = trace s ++ [Disposed 0; Ran 0; ReadBy 0 0; Disposed 1;
                         Disposed 1; Ran 1; ReadBy 1 0] ∧
  subs s' 0 = [0; 1].
Proof. intros s s'. split_and!; vm_compute; reflexivity. Qed.

(** ** Derived cells between two runs *)

Lemma set_add_idemp (x : nat) l : set_add x (set_add x l) = set_add x l.
Proof.
  unfold set_add at 1. rewrite bool_decide_eq_true_2; [done|].
  apply elem_of_set_add. by left.
Qed.

(** What a tracked read changes. *)
Lemma read_tracked c s x :
  getCurrentContext s = Some x → c < length (cells s) →
  (∀ a, subs (read c s).2 a = if decide (a = c) then set_add x (subs s a) else subs s a) ∧
  getCurrentContext (read c s).2 = Some x ∧
  ∀ y, fn (context_at (read c s).2 y) = fn (context_at s y) ∧
       subscriptions (context_at (read c s).2 y) = subscriptions (context_at s y) ∧
       disposables (context_at (read c s).2 y) = disposables (context_at s y) ∧
       disposables_obj (context_at (read c s).2 y) = disposables_obj (context_at s y) ∧
       parentContext (context_at (read c s).2 y) = parentContext (context_at s y).
Proof.
  intros Hx Hc. unfold read. rewrite Hx. simpl. split_and!.
  - intros a. change (subs (with_context x _ ?t) a) with (subs t a).
    by rewrite subs_with_cell_known.
  - done.
  - intros y. rewrite context_at_with_context. by case_decide.
Qed.

(** A function that only reads, run while [x] is the active context. *)
Lemma run_seq_reads_tracked p :
  reads_only p → ∀ n g s b x,
  getCurrentContext s = Some x →
  reads_below p (values s) b → b ≤ length (cells s) →
  ∃ s1, run (steps p (values s) + n) (seq p g) s =
          run n (g (RVal (value_of p (values s)))) s1 ∧
        values s1 = values s ∧ stack s1 = stack s ∧
        length (cells s1) = length (cells s) ∧
        length (contexts s1) = length (contexts s) ∧
        trace s1 = trace s ++ (ReadBy x <$> reads p (values s)) ∧
        (∀ a, subs s1 a = if decide (a ∈ reads p (values s))
                          then set_add x (subs s a) else subs s a) ∧
        ∀ y, fn (context_at s1 y) = fn (context_at s y) ∧
             subscriptions (context_at s1 y) = subscriptions (context_at s y) ∧
             disposables (context_at s1 y) = disposables (context_at s y) ∧
             disposables_obj (context_at s1 y) = disposables_obj (context_at s y) ∧
             parentContext (context_at s1 y) = parentContext (context_at s y).
Proof.
  induction 1 as [v|c k Hk IH]; intros n g s b x Hx Hb Hlen.
  - exists s. split_and!; try done. by rewrite app_nil_r.
  - destruct Hb as [Hc Hb].
    destruct (read_frame c s) as (R1 & R2 & R3 & R4 & R5 & R6).
    destruct (read_tracked c s x Hx) as (T1 & T2 & T3); [lia|].
    cbn [steps seq value_of reads]. change (S ?a + n) with (S (a + n)).
    rewrite run_read by lia. rewrite read_value.
    destruct (IH (value_at (values s) c) n g (read c s).2 b x)
      as (s1 & Hrun & V & St & L1 & L2 & Tr & Su & Fr).
    { done. } { by rewrite R1. } { lia. }
    rewrite R1 in Hrun, V, Tr, Su. exists s1. split_and!; try congruence.
    + rewrite Tr, R6, Hx. simpl. by rewrite <-app_assoc.
    + intros a. rewrite Su, T1.
      destruct (decide (a = c)) as [->|Hne].
      * rewrite (decide_True (P := c ∈ c :: _)) by (by left).
        case_decide; [apply set_add_idemp | done].
      * destruct (decide (a ∈ reads (k (value_at (values s) c)) (values s))) as [Hin|Hin].
        -- rewrite decide_True; [done | by right].
        -- rewrite decide_False; [done|]. rewrite elem_of_cons. tauto.
    + intros y. destruct (Fr y) as (-> & -> & -> & -> & ->). apply T3.
Qed.

Lemma forEach_no_cleanup n l s :
  Forall (λ d, d = no_cleanup) l → forEach (invoke (S n)) l s = Normal tt s.
Proof.
  induction 1 as [|d l -> _ IH]; [done|]. cbn [forEach]. simpl. exact IH.
Qed.

(** [dispose] of a context without children whose cleanups do nothing. *)
Lemma dispose_leaf n x s :
  subscriptions (context_at s x) = [] →
  Forall (λ d, d = no_cleanup) (disposables (context_at s x)) →
  dispose (S (S n)) x s =
  Normal tt (with_context x fresh_disposables
               (with_context x (map_subscriptions (λ _, [])) (released x s))).
Proof.
  intros Hsubs Hdisp.
  change (dispose (S (S n)) x s) with
    (let s := released x s in
     let* _, s <- forEach (dispose (S n)) (subscriptions (context_at s x)) s in
     let s := with_context x (map_subscriptions (λ _, [])) s in
     let* _, s <- forEach (invoke (S n)) (disposables (context_at s x)) s in
     Normal tt (with_context x fresh_disposables s)).
  cbv zeta. destruct (subscriptions_released x s x) as (-> & Hd & _). rewrite Hsubs.
  cbn [forEach bind]. rewrite forEach_no_cleanup; [done|].
  rewrite context_at_with_context. case_decide; simpl; by rewrite Hd.
Qed.

Lemma values_released x s : values (released x s) = values s.
Proof.
  unfold released. change (values (with_context x _ ?t)) with (values t).
  unfold detach. generalize (dependencies (context_at (record (Disposed x) s) x)).
  intros l. change (values s) with (values (record (Disposed x) s)).
  generalize (record (Disposed x) s). induction l as [|c l IH]; intros t; simpl; [done|].
  rewrite IH. by apply values_with_cell.
Qed.

Lemma released_frame x s :
  stack (released x s) = stack s ∧ trace (released x s) = trace s ++ [Disposed x] ∧
  length (cells (released x s)) = length (cells s) ∧
  length (contexts (released x s)) = length (contexts s).
Proof.
  unfold released.
  destruct (detach_frame x (dependencies (context_at (record (Disposed x) s) x))
              (record (Disposed x) s)) as (D1 & D2 & D3 & D4).
  simpl. rewrite D1, D3, D4, length_alter, D2. done.
Qed.

Lemma length_with_context s x f :
  length (contexts (with_context x f s)) = length (contexts s).
Proof. apply length_alter. Qed.

(** A run of the context of a derived cell: the cell gets the value of the
    function on the cells as they are, and the context is again as it is
    between two runs. *)
Lemma execute_derived n x c f s :
  derived s x c f → reads_only f → reads_below f (values s) c →
  steps f (values s) + 3 ≤ n →
  ∃ s', execute n x s = Normal tt s' ∧
        data (cell_at s' c) = value_of f (values s) ∧
        (∀ a, a ≠ c → data (cell_at s' a) = data (cell_at s a)) ∧
        derived s' x c f ∧ stack s' = stack s ∧
        length (cells s') = length (cells s) ∧
        trace s' = trace s ++ Disposed x :: Ran x :: (ReadBy x <$> reads f (values s)) ∧
        ∀ a, subs s' a = if decide (a ∈ reads f (values s))
                         then set_add x (subs (released x s) a)
                         else subs (released x s) a.
Proof.
  intros (Hx & Hc & Hfn & Hpar & Hsubs & Hdisp & Hc0) Hf Hb Hn.
  assert (∃ m, n = S (S (S (steps f (values s) + m)))) as [m ->].
  { exists (n - steps f (values s) - 3). lia. }
  set (k := steps f (values s) + m).
  destruct (released_frame x s) as (R1 & R2 & R3 & R4).
  destruct (subscriptions_released x s x) as (Q1 & Q2 & Q3 & Q4).
  pose proof (dispose_leaf k x s Hsubs Hdisp) as Hd.
  set (s1 := with_context x fresh_disposables _) in Hd.
  set (s2 := match parentContext (context_at s1 x) with
             | Some p => with_context p (map_subscriptions (λ l, l ++ [x])) s1
             | None => s1
             end).
  set (s3 := startTracking x s2).
  assert (stack s1 = stack s ∧ trace s1 = trace s ++ [Disposed x] ∧
          length (contexts s1) = length (contexts s) ∧ cells s1 = cells (released x s))
    as (A1 & A2 & A3 & A4).
  { split_and!; [exact R1 | exact R2 | | reflexivity].
    rewrite <-R4. unfold s1, released. simpl. by rewrite !length_alter. }
  assert (stack s2 = stack s1 ∧ trace s2 = trace s1 ∧
          length (contexts s2) = length (contexts s1) ∧ cells s2 = cells s1)
    as (B1 & B2 & B3 & B4).
  { unfold s2. destruct (parentContext (context_at s1 x)); [|done].
    split_and!; try reflexivity. simpl. by rewrite length_alter. }
  assert (cells s3 = cells (released x s)) as Hcells.
  { change (cells s3) with (cells s2). by rewrite B4. }
  assert (values s3 = values s) as Hvals.
  { unfold values at 1. rewrite Hcells. apply values_released. }
  assert (trace s3 = trace s ++ [Disposed x]) as Htr3.
  { change (trace s3) with (trace s2). by rewrite B2. }
  assert (stack s3 = x :: stack s) as Hst3.
  { change (stack s3) with (x :: stack s2). by rewrite B1, A1. }
  assert (length (contexts s3) = length (contexts s)) as Hlen3.
  { change (contexts s3) with (contexts s2). by rewrite B3. }
  assert (context_at s1 x =
          Context (fn (context_at s x)) (parentContext (context_at s x)) [] []
                  [] (S (disposables_obj (context_at s x)))) as Hx1.
  { unfold s1. rewrite !context_at_with_context.
    assert (length (contexts (with_context x (map_subscriptions (λ _, [])) (released x s)))
            = length (contexts s)) as -> by (by rewrite length_with_context, R4).
    rewrite R4, !decide_True by done.
    unfold fresh_disposables, map_subscriptions; simpl.
    rewrite Q3, Q4. f_equal.
    - unfold released. rewrite fn_with_context by done.
      by rewrite context_at_detach, context_at_record.
    - pose proof (deps_released x s x) as Hdeps. unfold deps in Hdeps.
      by rewrite decide_True in Hdeps. }
  assert (context_at s3 x = context_at s1 x) as Hx3.
  { unfold s3. change (context_at (startTracking x s2) x) with (context_at s2 x).
    unfold s2. rewrite Hx1. simpl. destruct (parentContext (context_at s x)) as [p|]; [|done].
    rewrite context_at_with_context. rewrite decide_False; [done|].
    intros [-> _]. done. }
  assert (∀ a, subs s3 a = subs (released x s) a) as Hsubs3.
  { intros a. unfold subs, cell_at. by rewrite Hcells. }
  destruct (run_seq_reads_tracked f Hf (S (S m)) (write_result c) (record (Ran x) s3) c x)
    as (s4 & Hrun & V4 & St4 & L4 & L4' & Tr4 & Su4 & Fr4).
  { change (getCurrentContext (record (Ran x) s3)) with (head (stack s3)). by rewrite Hst3. }
  { change (values (record (Ran x) s3)) with (values s3). by rewrite Hvals. }
  { change (cells (record (Ran x) s3)) with (cells s3). rewrite Hcells, R3. lia. }
  change (values (record (Ran x) s3)) with (values s3) in Hrun, V4, Tr4, Su4.
  rewrite Hvals in Hrun, V4, Tr4, Su4.
  change (subs (record (Ran x) s3) ?a) with (subs s3 a) in Su4.
  change (context_at (record (Ran x) s3) ?y) with (context_at s3 y) in Fr4.
  change (cells (record (Ran x) s3)) with (cells s3) in L4.
  change (contexts (record (Ran x) s3)) with (contexts s3) in L4'.
  change (stack (record (Ran x) s3)) with (stack s3) in St4.
  change (trace (record (Ran x) s3)) with (trace s3 ++ [Ran x]) in Tr4.
  set (v := value_of f (values s)) in *.
  assert (c ∉ reads f (values s)) as Hcr.
  { clear -Hf Hb. revert Hb. generalize (values s). intros vs.
    induction Hf as [w|c' k Hk IH]; simpl; [intros _; apply not_elem_of_nil|].
    intros [Hlt Hb]. rewrite not_elem_of_cons. split; [lia | by apply IH]. }
  assert (subs s4 c = []) as Hc4.
  { rewrite Su4, decide_False, Hsubs3 by done.
    unfold released. change (subs (with_context x _ ?t) c) with (subs t c).
    rewrite subs_detach. change (subs (record _ s) c) with (subs s c). rewrite Hc0.
    by case_decide. }
  assert (c < length (cells s4)) as Hlen4 by (rewrite L4, Hcells, R3; done).
  assert (∃ s5, run (S (S m)) (write_result c (RVal v)) s4 = Normal (RVal VUndefined) s5 ∧
                data (cell_at s5 c) = v ∧ trace s5 = trace s4 ∧ stack s5 = stack s4 ∧
                contexts s5 = contexts s4 ∧ length (cells s5) = length (cells s4) ∧
                (∀ a, subs s5 a = subs s4 a) ∧
                (∀ a, a ≠ c → data (cell_at s5 a) = data (cell_at s4 a)))
    as (s5 & Hw & Hdata & Htr5 & Hst5 & Hctx5 & Hlen5 & Hsubs5 & Hoth5).
  { cbn [write_result]. rewrite run_write by done.
    destruct (strict_eq v (data (cell_at s4 c))) eqn:E.
    - rewrite write_suppressed by done. exists s4. split_and!; try done.
      apply strict_eq_eq in E. by rewrite E.
    - rewrite write_unobserved; [|done|done].
      eexists. split_and!; [reflexivity| |done|done|done| | |].
      + rewrite cell_at_with_cell. by rewrite decide_True.
      + simpl. by rewrite length_alter.
      + intros a. unfold subs. rewrite cell_at_with_cell. by case_decide.
      + intros a Hne. rewrite cell_at_with_cell. rewrite decide_False; [done|].
        intros [? _]; congruence. }
  rewrite Hw in Hrun.
  assert (fn (context_at s3 x) x = seq f (write_result c)) as Hfn3.
  { rewrite Hx3, Hx1. simpl. by rewrite Hfn. }
  rewrite <-Hfn3 in Hrun.
  replace (steps f (values s) + S (S m)) with (S (S k)) in Hrun by (unfold k; lia).
  pose proof (execute_intro (S (S k)) x s s1 _ s5 Hd Hrun) as He.
  fold s2 s3 in He.
  eexists. split; [exact He|].
  set (s6 := push_disposable x _ _ s5).
  assert (context_at s5 x = context_at s4 x) as Hx5.
  { unfold context_at. by rewrite Hctx5. }
  destruct (Fr4 x) as (F1 & F2 & F3 & F4 & F5).
  rewrite <-Hx5, Hx3, Hx1 in F1, F2, F3, F4, F5. simpl in F1, F2, F3, F4, F5.
  assert (s6 = with_context x (map_disposables (λ l, l ++ [no_cleanup])) s5) as Hs6.
  { unfold s6, push_disposable. rewrite decide_True; [done|].
    rewrite F4, Hx3, Hx1. done. }
  assert (cells s6 = cells s5 ∧ stack s6 = stack s5 ∧ trace s6 = trace s5) as (C1 & C2 & C3).
  { by rewrite Hs6. }
  assert (∀ a, cell_at (stopTracking s6) a = cell_at s5 a) as Hcell6.
  { intros a. unfold cell_at. change (cells (stopTracking s6)) with (cells s6).
    by rewrite C1. }
  assert (∀ a, a ≠ c → data (cell_at s4 a) = data (cell_at s a)) as Hdata4.
  { intros a _. rewrite !data_value_at, V4. done. }
  split_and!.
  - by rewrite Hcell6.
  - intros a Hne. rewrite Hcell6, Hoth5 by done. by apply Hdata4.
  - assert (context_at (stopTracking s6) x =
            map_disposables (λ l, l ++ [no_cleanup]) (context_at s5 x)) as Hx6.
    { change (context_at (stopTracking s6) x) with (context_at s6 x).
      rewrite Hs6, context_at_with_context. rewrite decide_True; [done|].
      split; [done|]. rewrite Hctx5, L4'. change (contexts (record _ s3)) with (contexts s3).
      by rewrite Hlen3. }
    split_and!.
    + change (contexts (stopTracking s6)) with (contexts s6). rewrite Hs6, length_with_context.
      rewrite Hctx5, L4'. change (contexts (record _ s3)) with (contexts s3). by rewrite Hlen3.
    + change (cells (stopTracking s6)) with (cells s6). rewrite C1, Hlen5. lia.
    + rewrite Hx6. simpl. by rewrite F1.
    + rewrite Hx6. simpl. by rewrite F5.
    + rewrite Hx6. simpl. done.
    + rewrite Hx6. simpl. rewrite F3. by repeat constructor.
    + unfold subs. rewrite Hcell6. fold (subs s5 c). by rewrite Hsubs5.
  - change (stack (stopTracking s6)) with (tail (stack s6)).
    rewrite C2, Hst5, St4, Hst3. done.
  - change (cells (stopTracking s6)) with (cells s6). rewrite C1, Hlen5, L4, Hcells. done.
  - change (trace (stopTracking s6)) with (trace s6).
    rewrite C3, Htr5, Tr4, Htr3. rewrite <-!app_assoc. done.
  - intros a. unfold subs at 1. rewrite Hcell6. fold (subs s5 a).
    rewrite Hsubs5, Su4. case_decide; by rewrite Hsubs3.
Qed.

(** [computed(fn)] for a function that only reads leaves the context of
    the derived cell as it is between two runs, subscribed to the cells the
    function has read. *)
Lemma computed_derived f n s :
  consistent s → reads_only f → reads_below f (values s) (length (cells s)) →
  steps f (values s) + 5 ≤ n →
  let c := length (cells s) in
  let x := length (contexts s) in
  ∃ s1, computed n f s = Normal (Accessor c) s1 ∧
        derived s1 x c f ∧ stack s1 = stack s ∧
        data (cell_at s1 c) = value_of f (values s) ∧
        (∀ a, a ≠ c → data (cell_at s1 a) = data (cell_at s a)) ∧
        length (cells s1) = S (length (cells s)) ∧
        ∀ a, subs s1 a = if decide (a ∈ reads f (values s))
                         then set_add x (subs s a) else subs s a.
Proof.
  intros Hs Hf Hb Hn c x.
  destruct n as [|[|k]]; [lia..|].
  set (sa := (signal VUndefined s).2).
  set (body := λ _ : ctx_id, seq f (write_result c)).
  set (sb := State (stack sa) (cells sa)
               (contexts sa ++ [Context body (getCurrentContext sa) [] [] [] 0]) (trace sa)).
  assert (context_at sb x = Context body (getCurrentContext sa) [] [] [] 0) as Hx.
  { unfold context_at, sb, x; simpl. by rewrite lookup_app_r, Nat.sub_diag. }
  assert (values sb = values s ++ [VUndefined]) as Hvals.
  { unfold values, sb, sa; simpl. by rewrite fmap_app. }
  assert (∀ a, subs sb a = subs s a) as Hsubs.
  { intros a. unfold subs, cell_at, sb, sa; simpl.
    destruct (decide (a < length (cells s))) as [Ha|Ha].
    - by rewrite lookup_app_l.
    - rewrite lookup_app_r, (lookup_ge_None_2 (cells s)) by lia.
      by destruct (a - length (cells s)) as [|[|?]]. }
  assert (∀ a, data (cell_at sb a) = data (cell_at s a)) as Hdata.
  { intros a. unfold cell_at, sb, sa; simpl.
    destruct (decide (a < length (cells s))) as [Ha|Ha].
    - by rewrite lookup_app_l.
    - rewrite lookup_app_r, (lookup_ge_None_2 (cells s)) by lia.
      by destruct (a - length (cells s)) as [|[|?]]. }
  assert (subs s c = []) as Hc0.
  { unfold subs, cell_at, c. by rewrite lookup_ge_None_2. }
  destruct (reads_only_app f Hf (values s) [VUndefined] c) as (Hst & Hval & Hbel & Hreads).
  { unfold c, values. by rewrite length_fmap. } { done. }
  destruct (execute_derived k x c f sb) as (s1 & He & D1 & D2 & D3 & D4 & D5 & D6 & D7).
  { split_and!.
    - unfold sb, x; simpl. rewrite length_app; simpl. lia.
    - unfold sb, sa, c; simpl. rewrite length_app; simpl. lia.
    - by rewrite Hx.
    - rewrite Hx. simpl. unfold getCurrentContext. simpl.
      destruct (stack s) as [|y st] eqn:E; [done|]. simpl. intros [= ->].
      pose proof (consistent_stack _ Hs x) as Hlt. rewrite E in Hlt.
      specialize (Hlt ltac:(by left)). unfold x in Hlt. lia.
    - by rewrite Hx.
    - rewrite Hx. constructor.
    - by rewrite Hsubs. }
  { done. } { by rewrite Hvals. } { rewrite Hvals, Hst. lia. }
  assert (∀ a, subs (released x sb) a = subs s a) as Hrel.
  { intros a. unfold released. change (subs (with_context x _ ?t) a) with (subs t a).
    rewrite context_at_record, Hx. simpl. apply Hsubs. }
  exists s1. split_and!.
  - change (computed (S (S k)) f s) with
      (let* _, s <- (let* _, s <- execute k x sb in Normal Undefined s) in
       Normal (Accessor c) s).
    rewrite He. reflexivity.
  - done.
  - by rewrite D4.
  - by rewrite D1, Hvals, Hval.
  - intros a Hne. by rewrite D2, Hdata.
  - rewrite D5. unfold sb, sa; simpl. rewrite length_app; simpl. lia.
  - intros a. rewrite D7, Hvals, Hreads. by rewrite Hrel.
Qed.

(** ** The argument of the wrapped function *)

Lemma stack_push_disposable x obj d s : stack (push_disposable x obj d s) = stack s.
Proof. unfold push_disposable. by case_decide. Qed.

Lemma length_push_disposable x obj d s :
  length (contexts (push_disposable x obj d s)) = length (contexts s).
Proof. unfold push_disposable. case_decide; [apply length_with_context|done]. Qed.

(** [dispose] of a context that has no child and whose cleanups do nothing:
    the context leaves every subscriber set, and nothing else changes in
    them. *)
Lemma call_dispose_childless x s :
  consistent s → x < length (contexts s) →
  subscriptions (context_at s x) = [] →
  Forall (λ d, d = no_cleanup) (disposables (context_at s x)) →
  let s1 := with_context x fresh_disposables
              (with_context x (map_subscriptions (λ _, [])) (released x s)) in
  (∀ n k, run (S (S (S n))) (CallDispose x k) s = run (S (S n)) k s1) ∧
  (∀ c, x ∉ subs s1 c) ∧ dependencies (context_at s1 x) = [] ∧
  (∀ c y, y ≠ x → y ∈ subs s1 c ↔ y ∈ subs s c) ∧
  trace s1 = trace s ++ [Disposed x] ∧ stack s1 = stack s ∧ values s1 = values s.
Proof.
  intros Hs Hx Hsubs Hdisp s1.
  destruct (released_frame x s) as (R1 & R2 & R3 & R4).
  assert (∀ c, subs s1 c = subs (released x s) c) as Hsub1 by done.
  split_and!.
  - intros n k.
    change (run (S (S (S n))) (CallDispose x k) s) with
      (if known_context s x
       then let* _, s' <- dispose (S (S n)) x s in run (S (S n)) k s'
       else Unsupported).
    unfold known_context. rewrite bool_decide_eq_true_2 by done.
    by rewrite (dispose_leaf n x s Hsubs Hdisp).
  - intros c. rewrite Hsub1. by apply released_clears.
  - pose proof (deps_released x s x) as Hd. rewrite decide_True in Hd by done.
    unfold deps in Hd. unfold s1. rewrite !context_at_with_context.
    repeat case_decide; simpl; exact Hd.
  - intros c y Hne. rewrite Hsub1, subs_released by done. tauto.
  - exact R2.
  - exact R1.
  - apply values_released.
Qed.

(** The construction of a subscriber whose function reads cells and then
    calls the function it was given. *)
Lemma self_disposing_construction p m s :
  consistent s → reads_only p → reads_below p (values s) (length (cells s)) →
  let x := length (contexts s) in
  let f := λ dispose, seq p (λ _, CallDispose dispose (Return VUndefined)) in
  ∃ s', effect (S (S (steps p (values s) + S (S (S m))))) f s = Normal Undefined s' ∧
        trace s' = trace s ++ Disposed x :: Ran x :: (ReadBy x <$> reads p (values s))
                           ++ [Disposed x] ∧
        stack s' = stack s ∧ length (contexts s') = S (length (contexts s)).
Proof.
  intros Hs Hf Hb x f.
  set (sb := State (stack s) (cells s)
               (contexts s ++ [Context f (getCurrentContext s) [] [] [] 0]) (trace s)).
  assert (context_at sb x = Context f (getCurrentContext s) [] [] [] 0) as Hx.
  { unfold context_at, sb, x; simpl. by rewrite lookup_app_r, Nat.sub_diag. }
  set (k := steps p (values s) + S (S m)).
  pose proof (dispose_childless k x sb) as Hd. rewrite Hx in Hd.
  specialize (Hd eq_refl eq_refl).
  set (s1 := with_context x fresh_disposables _) in Hd.
  set (s2 := match parentContext (context_at s1 x) with
             | Some p => with_context p (map_subscriptions (λ l, l ++ [x])) s1
             | None => s1
             end).
  set (s3 := startTracking x s2).
  assert (released x sb = with_context x (map_dependencies (λ _, [])) (record (Disposed x) sb))
    as Hrel.
  { unfold released. rewrite context_at_record, Hx. done. }
  assert (cells s3 = cells s) as Hcells.
  { unfold s3, s2. destruct (parentContext _); unfold s1; rewrite Hrel; done. }
  assert (trace s3 = trace s ++ [Disposed x]) as Htr3.
  { unfold s3, s2. destruct (parentContext _); unfold s1; rewrite Hrel; done. }
  assert (stack s3 = x :: stack s) as Hst3.
  { unfold s3, s2. destruct (parentContext _); unfold s1; rewrite Hrel; done. }
  assert (length (contexts s3) = S (length (contexts s))) as Hlen3.
  { unfold s3, s2. change (contexts (startTracking x ?t)) with (contexts t).
    destruct (parentContext _); rewrite ?length_with_context; unfold s1;
      rewrite !length_with_context, Hrel, length_with_context; simpl;
      rewrite length_app; simpl; lia. }
  assert (values s3 = values s) as Hvals by (unfold values; by rewrite Hcells).
  assert (context_at s1 x = Context f (getCurrentContext s) [] [] [] 1) as Hx1.
  { unfold s1. rewrite Hrel. rewrite !context_at_with_context.
    assert (x < length (contexts sb)) as Hlt.
    { unfold sb, x; simpl. rewrite length_app; simpl. lia. }
    rewrite !length_with_context.
    change (contexts (record (Disposed x) sb)) with (contexts sb).
    rewrite !decide_True by done. rewrite context_at_record, Hx. done. }
  assert (context_at s3 x = context_at s1 x) as Hx3.
  { unfold s3. change (context_at (startTracking x s2) x) with (context_at s2 x).
    unfold s2. rewrite Hx1. simpl. destruct (getCurrentContext s) as [q|] eqn:Hq; [|done].
    rewrite context_at_with_context. rewrite decide_False; [done|].
    intros [-> _]. apply (Nat.lt_irrefl x). apply (consistent_stack s Hs).
    unfold getCurrentContext in Hq. destruct (stack s); [done|]. injection Hq as ->. by left. }
  destruct (run_seq_reads_tracked p Hf (S (S (S m)))
              (λ _, CallDispose x (Return VUndefined)) (record (Ran x) s3)
              (length (cells s)) x)
    as (t0 & Hrun & V0 & St0 & L0 & L0' & Tr0 & Su0 & Fr0).
  { change (getCurrentContext (record (Ran x) s3)) with (head (stack s3)). by rewrite Hst3. }
  { change (values (record (Ran x) s3)) with (values s3). by rewrite Hvals. }
  { change (cells (record (Ran x) s3)) with (cells s3). by rewrite Hcells. }
  change (values (record (Ran x) s3)) with (values s3) in Hrun, V0, Tr0, Su0.
  rewrite Hvals in Hrun, V0, Tr0, Su0.
  change (context_at (record (Ran x) s3) ?y) with (context_at s3 y) in Fr0.
  change (contexts (record (Ran x) s3)) with (contexts s3) in L0'.
  change (stack (record (Ran x) s3)) with (stack s3) in St0.
  change (trace (record (Ran x) s3)) with (trace s3 ++ [Ran x]) in Tr0.
  destruct (Fr0 x) as (F1 & F2 & F3 & F4 & F5).
  rewrite Hx3, Hx1 in F1, F2, F3, F4, F5. simpl in F1, F2, F3, F4, F5.
  set (t1 := with_context x fresh_disposables
               (with_context x (map_subscriptions (λ _, [])) (released x t0))).
  assert (run (S (S (S m))) (CallDispose x (Return VUndefined)) t0
          = Normal (RVal VUndefined) t1) as Hcall.
  { change (run (S (S (S m))) (CallDispose x (Return VUndefined)) t0) with
      (if known_context t0 x
       then let* _, s' <- dispose (S (S m)) x t0 in run (S (S m)) (Return VUndefined) s'
       else Unsupported).
    unfold known_context. rewrite bool_decide_eq_true_2 by (rewrite L0', Hlen3; unfold x; lia).
    by rewrite (dispose_childless (S m) x t0 F2 F3). }
  rewrite Hcall in Hrun.
  assert (fn (context_at s3 x) x = seq p (λ _, CallDispose x (Return VUndefined))) as Hfn3.
  { rewrite Hx3, Hx1. done. }
  rewrite <-Hfn3 in Hrun. fold k in Hrun.
  replace (steps p (values s) + S (S (S m))) with (S k) in Hrun by (unfold k; lia).
  pose proof (execute_intro (S k) x sb s1 _ t1 Hd Hrun) as He.
  fold s2 s3 in He.
  eexists. split_and!.
  - replace (steps p (values s) + S (S (S m))) with (S k) by (unfold k; lia).
    change (effect (S (S (S k))) f s) with
      (let* _, s <- execute (S (S k)) x sb in Normal Undefined s).
    rewrite He. reflexivity.
  - change (trace (stopTracking ?t)) with (trace t). rewrite trace_push_disposable.
    destruct (released_frame x t0) as (_ & R2 & _).
    change (trace t1) with (trace (released x t0)). rewrite R2, Tr0, Htr3.
    rewrite <-!app_assoc. done.
  - change (stack (stopTracking ?t)) with (tail (stack t)). rewrite stack_push_disposable.
    destruct (released_frame x t0) as (R1 & _).
    change (stack t1) with (stack (released x t0)). rewrite R1, St0, Hst3. done.
  - change (contexts (stopTracking ?t)) with (contexts t). rewrite length_push_disposable.
    unfold t1. rewrite !length_with_context.
    destruct (released_frame x t0) as (_ & _ & _ & R4). by rewrite R4, L0', Hlen3.
Qed.

(** C10.  Every run of context [x] whose disposal returns calls [fn] of [x]
    with the handle of [x]'s own [dispose] as its argument, [x] being the
    active context, whether the call returns or raises.  A call of this
    argument takes [x] out of every subscriber set it is in, empties its
    [dependencies], and leaves the other subscribers where they are (here
    for a context without children whose cleanups do nothing).  So a
    subscriber whose function reads cells and then calls its argument is
    subscribed to these cells by its reads and to nothing when its
    construction returns, and no script run later calls its function.
    [effect] returns [undefined], so this argument is the only handle the
    caller's code gets. *)
Theorem own_dispose_argument n x s :
  consistent s → x < length (contexts s) →
  (∀ s1, dispose n x s = Normal tt s1 →
     ∃ s3 d1,
       getCurrentContext s3 = Some x ∧
       trace s3 = trace s ++ Disposed x :: d1 ++ [Ran x] ∧
       execute (S n) x s =
       finally (let* r, t <- run n (fn (context_at s x) x) s3 in
                Normal tt (push_disposable x (disposables_obj (context_at s3 x))
                             (as_disposable r) t))
               stopTracking) ∧
  (subscriptions (context_at s x) = [] →
   Forall (λ d, d = no_cleanup) (disposables (context_at s x)) →
   ∃ s1, (∀ m k, run (S (S (S m))) (CallDispose x k) s = run (S (S m)) k s1) ∧
         (∀ c, x ∉ subs s1 c) ∧ dependencies (context_at s1 x) = [] ∧
         (∀ c y, y ≠ x → y ∈ subs s1 c ↔ y ∈ subs s c) ∧
         trace s1 = trace s ++ [Disposed x] ∧ stack s1 = stack s ∧ values s1 = values s) ∧
  (∀ p m, reads_only p → reads_below p (values s) (length (cells s)) →
     let y := length (contexts s) in
     ∃ s', effect (S (S (steps p (values s) + S (S (S m)))))
             (λ dispose, seq p (λ _, CallDispose dispose (Return VUndefined))) s
           = Normal Undefined s' ∧
           trace s' = trace s ++ Disposed y :: Ran y :: (ReadBy y <$> reads p (values s))
                              ++ [Disposed y] ∧
           inert s' y ∧
           ∀ l, inert (after_scripts s' l) y ∧
                ∃ d, trace (after_scripts s' l) = trace s' ++ d ∧ quiet y d) ∧
  (∀ m f s0 r s0', effect m f s0 = Normal r s0' → r = Undefined).
Proof.
  intros Hs Hx. split_and!.
  - intros s1 Hd.
    destruct (execute_entry n x s s1 Hs Hx Hd) as (d1 & Hstep & _ & Hfn).
    eexists _, d1. split_and!; [|apply Hstep|].
    + reflexivity.
    + change (execute (S n) x s) with
        (finally
           (let* _, s <- dispose n x s in
            let s :=
              match parentContext (context_at s x) with
              | Some p => with_context p (map_subscriptions (λ l, l ++ [x])) s
              | None => s
              end in
            let s := startTracking x s in
            let obj := disposables_obj (context_at s x) in
            let* r, s <- run n (fn (context_at s x) x) (record (Ran x) s) in
            Normal tt (push_disposable x obj (as_disposable r) s))
           stopTracking).
      rewrite Hd. cbn [bind]. cbv zeta. rewrite Hfn. reflexivity.
  - intros Hsubs Hdisp. eexists. exact (call_dispose_childless x s Hs Hx Hsubs Hdisp).
  - intros p m Hf Hb y.
    destruct (self_disposing_construction p m s Hs Hf Hb) as (s' & He & Htr & Hst & Hlen).
    fold y in He, Htr.
    assert (inert s' y) as Hin.
    { destruct (engine_sound (S (S (steps p (values s) + S (S (S m)))))) as (_ & _ & _ & _ & H & _).
      specialize (H (λ dispose, seq p (λ _, CallDispose dispose (Return VUndefined))) s Hs).
      rewrite He in H. destruct H as (d & Hstep & _).
      pose proof (step_consistent _ _ _ Hstep) as Hs'.
      split_and!.
      - rewrite Hlen. unfold y. lia.
      - rewrite Hst. intros Hy. apply (consistent_stack s Hs) in Hy. unfold y in Hy. lia.
      - intros c Hc. apply (consistent_live s' Hs') in Hc. rewrite Htr in Hc.
        change (Disposed y :: Ran y :: (ReadBy y <$> reads p (values s)) ++ [Disposed y])
          with ((Disposed y :: Ran y :: (ReadBy y <$> reads p (values s))) ++ [Disposed y]) in Hc.
        rewrite app_assoc, live_app_disposed in Hc. unfold live in Hc. simpl in Hc.
        by rewrite decide_True in Hc. }
    exists s'. split_and!; [done..|]. intros l. by apply after_scripts_inert.
  - intros m f s0 r s0'. apply effect_returns.
Qed.

(** A cell and a subscriber of it (context 0).  A call of [dispose] of
    context 0 takes it out of the subscriber set of the cell.  A second
    subscriber (context 1) whose function is
    [dispose => { a(); dispose() }] has read the cell and is subscribed to
    nothing when [effect] returns; a write of the cell then runs context 0
    only. *)
Lemma own_dispose_argument_witness :
  let s := state_after 10 (NewSignal (VNum 0) (λ a,
             NewEffect (λ _, Read a (λ _, Return VUndefined)) (Return VUndefined))) in
  let p := Read 0 (λ v, Return v) in
  let write := [(10, Write 0 (VNum 1) (Return VUndefined))] in
  subs s 0 = [0] ∧
  (∃ s3 d1, getCurrentContext s3 = Some 0 ∧
            trace s3 = trace s ++ Disposed 0 :: d1 ++ [Ran 0] ∧
            execute 6 0 s =
            finally (let* r, t <- run 5 (fn (context_at s 0) 0) s3 in
                     Normal tt (push_disposable 0 (disposables_obj (context_at s3 0))
                                  (as_disposable r) t))
                    stopTracking) ∧
  (∃ s1, (∀ m k, run (S (S (S m))) (CallDispose 0 k) s = run (S (S m)) k s1) ∧
         (∀ c, 0 ∉ subs s1 c) ∧ dependencies (context_at s1 0) = [] ∧
         (∀ c y, y ≠ 0 → y ∈ subs s1 c ↔ y ∈ subs s c) ∧
         trace s1 = trace s ++ [Disposed 0] ∧ stack s1 = stack s ∧ values s1 = values s) ∧
  (∃ s', effect 6 (λ dispose, seq p (λ _, CallDispose dispose (Return VUndefined))) s
         = Normal Undefined s' ∧
         trace s' = trace s ++ [Disposed 1; Ran 1; ReadBy 1 0; Disposed 1] ∧
         inert s' 1 ∧
         trace (after_scripts s' write) = trace s' ++ [Disposed 0; Ran 0; ReadBy 0 0] ∧
         ∀ l, inert (after_scripts s' l) 1 ∧
              ∃ d, trace (after_scripts s' l) = trace s' ++ d ∧ quiet 1 d).
Proof.
  intros s p write. split; [vm_compute; reflexivity|].
  destruct (own_dispose_argument 5 0 s) as (H1 & H2 & H3 & _).
  - apply state_after_consistent.
  - vm_compute. lia.
  - split; [|split].
    + apply (H1 (state_of (dispose 5 0 s))). vm_compute. reflexivity.
    + apply H2; vm_compute; [reflexivity | by repeat constructor].
    + destruct (H3 p 0) as (s' & He & Htr & Hin & Hl).
      * constructor. intros v. constructor.
      * vm_compute. split; [lia|done].
      * exists s'. split_and!; [exact He | exact Htr | exact Hin | | exact Hl].
        assert (s' = state_of (effect 6 (λ dispose,
                  seq p (λ _, CallDispose dispose (Return VUndefined))) s)) as ->.
        { vm_compute in He. vm_compute. by injection He as <-. }
        vm_compute. reflexivity.
Defined.

(** ** Runs during a construction *)

Lemma not_retriggers_here x C : ¬ retriggers x C → ¬ fans_out_to x C.
Proof. intros H Hf. apply H. exists C. split; [constructor | done]. Qed.

Lemma not_retriggers_sub x C C' : ¬ retriggers x C → subcall C C' → ¬ retriggers x C'.
Proof.
  intros H Hsub (C'' & Hr & Hf). apply H. exists C''. split; [|done].
  by eapply reaches_step.
Qed.

Lemma spared_return {A} x (a : A) s : spared x s (Normal a s).
Proof. split; [done|]. exists []. split; [by rewrite app_nil_r | apply not_elem_of_nil]. Qed.

Lemma spared_thrown {A} x e s : spared (A := A) x s (Thrown e s).
Proof. apply (spared_return x tt s). Qed.

Lemma spared_step x s s1 d :
  length (contexts s) ≤ length (contexts s1) → trace s1 = trace s ++ d → Ran x ∉ d →
  spared x s (Normal tt s1).
Proof. intros Hlen Htr Hd. split; [done|]. by exists d. Qed.

(** A call started in the state that a step has led to. *)
Lemma spared_trans {A B} x s (a : A) s1 (o : result B) :
  spared x s (Normal a s1) →
  (length (contexts s) ≤ length (contexts s1) → spared x s1 o) →
  spared x s o.
Proof.
  intros (L1 & d1 & T1 & N1) H. specialize (H L1).
  destruct o as [b s2|e s2| |]; simpl in *; [| |done..];
    destruct H as (L2 & d2 & T2 & N2); (split; [lia|]); exists (d1 ++ d2);
    (split; [by rewrite T2, T1, app_assoc|]); rewrite elem_of_app; tauto.
Qed.

Local Arguments spared : simpl never.

(** One call after another. *)
Lemma spared_bind {A B} x s (m : result A) (f : A → state → result B) :
  spared x s m →
  (∀ a s1, m = Normal a s1 → length (contexts s) ≤ length (contexts s1) →
           spared x s1 (f a s1)) →
  spared x s (let* a, s1 <- m in f a s1).
Proof.
  intros Hm Hf. destruct m as [a s1|e s1| |]; simpl; [|done..].
  eapply spared_trans; [exact Hm|]. intros. by apply Hf.
Qed.

(** The calls of a [forEach], each made in the state the earlier ones
    returned in. *)
Lemma spared_forEach {A} x (f : A → state → result unit) l s :
  (∀ l1 a l2 t, l = l1 ++ a :: l2 → forEach f l1 s = Normal tt t →
                length (contexts s) ≤ length (contexts t) → spared x t (f a t)) →
  spared x s (forEach f l s).
Proof.
  revert s. induction l as [|a l IH]; intros s Hf; simpl.
  - apply (spared_return x tt s).
  - apply spared_bind; [by apply (Hf [] a l s)|].
    intros [] s1 Heq Hlen. apply IH. intros l1 b l2 t -> Hfor Hlen'.
    apply (Hf (a :: l1) b l2 t); [done| |lia].
    simpl. by rewrite Heq.
Qed.

Lemma spared_finally {A} x s (o : result A) :
  spared x s o → spared x s (finally o stopTracking).
Proof. by destruct o. Qed.

(** The function of [y] called with [y] pushed, followed by
    [stopTracking]. *)
Lemma spared_tracked {A} x y s (o : result A) :
  y ≠ x → spared x (record (Ran y) (startTracking y s)) o →
  spared x s (finally o stopTracking).
Proof.
  intros Hne H. apply spared_finally.
  apply (spared_trans x s tt (record (Ran y) (startTracking y s))); [|done].
  apply (spared_step x s _ [Ran y]); [done..|].
  rewrite list_elem_of_singleton. congruence.
Qed.

Lemma spared_same x s s1 :
  length (contexts s1) = length (contexts s) → trace s1 = trace s →
  spared x s (Normal tt s1).
Proof.
  intros Hlen Htr. apply (spared_step x s s1 []); [lia | by rewrite app_nil_r |].
  apply not_elem_of_nil.
Qed.

Lemma spared_read x s c : spared x s (Normal tt (read c s).2).
Proof.
  destruct (read_frame c s) as (_ & _ & _ & R4 & _ & R6).
  apply (spared_step x s _ (read_events (getCurrentContext s) [c])); [lia|done|].
  destruct (getCurrentContext s); simpl; [|apply not_elem_of_nil].
  rewrite list_elem_of_singleton. congruence.
Qed.

Lemma spared_released x s y : spared x s (Normal tt (released y s)).
Proof.
  unfold released.
  destruct (detach_frame y (dependencies (context_at (record (Disposed y) s) y))
              (record (Disposed y) s)) as (D1 & D2 & D3 & D4).
  apply (spared_step x s _ [Disposed y]).
  - simpl. by rewrite length_alter, D2.
  - simpl. by rewrite D3.
  - rewrite list_elem_of_singleton. congruence.
Qed.

Lemma spared_with_context x s y f : spared x s (Normal tt (with_context y f s)).
Proof. apply spared_same; [simpl; by rewrite length_alter | done]. Qed.

Lemma subs_set_data s c v c' : subs (with_cell c (set_data v) s) c' = subs s c'.
Proof. unfold subs. rewrite cell_at_with_cell. by case_decide. Qed.

(** A call in whose course no write fans out to [x] does not run [x]. *)
Lemma engine_spared x n :
  (∀ p s, x < length (contexts s) → ¬ retriggers x (CRun n p s) → spared x s (run n p s)) ∧
  (∀ c a s, x < length (contexts s) → ¬ retriggers x (CWrite n c a s) →
            spared x s (write n c a s)) ∧
  (∀ y s, y ≠ x → x < length (contexts s) → ¬ retriggers x (CExecute n y s) →
          spared x s (execute n y s)) ∧
  (∀ y s, x < length (contexts s) → ¬ retriggers x (CDispose n y s) →
          spared x s (dispose n y s)) ∧
  (∀ f s, x < length (contexts s) → ¬ retriggers x (CEffect n f s) →
          spared x s (effect n f s)) ∧
  (∀ f s, x < length (contexts s) → ¬ retriggers x (CComputed n f s) →
          spared x s (computed n f s)).
Proof.
  induction n as [|n (IHrun & IHwrite & IHexec & IHdisp & IHeff & IHcomp)];
    [by repeat split|].
  split_and!.
  - (* run *)
    intros p s Hx Hno.
    destruct p as [v|q|e|c k|c v k|c u k|v k|f k|f k|d k|b h k]; simpl.
    + apply spared_return.
    + apply spared_return.
    + apply spared_thrown.
    + destruct (known_cell s c) eqn:Hc; [|done].
      change (spared x s (run n (k (read c s).1) (read c s).2)).
      eapply spared_trans; [apply (spared_read x s c)|]. intros Hlen.
      apply IHrun; [lia|]. eapply not_retriggers_sub; [exact Hno|]. by constructor.
    + destruct (known_cell s c) eqn:Hc; [|done].
      apply spared_bind.
      * apply IHwrite; [done|]. eapply not_retriggers_sub; [exact Hno|]. by constructor.
      * intros [] s1 Heq Hlen. apply IHrun; [lia|].
        eapply not_retriggers_sub; [exact Hno|]. by apply sub_write_then.
    + destruct (known_cell s c) eqn:Hc; [|done].
      apply spared_bind.
      * apply IHwrite; [done|]. eapply not_retriggers_sub; [exact Hno|]. by constructor.
      * intros [] s1 Heq Hlen. apply IHrun; [lia|].
        eapply not_retriggers_sub; [exact Hno|]. by apply sub_update_then.
    + eapply (spared_trans x s tt (signal v s).2); [by apply spared_same|]. intros Hlen.
      apply IHrun; [simpl in *; lia|]. eapply not_retriggers_sub; [exact Hno|]. constructor.
    + apply spared_bind.
      * apply IHeff; [done|]. eapply not_retriggers_sub; [exact Hno|]. constructor.
      * intros r s1 Heq Hlen. apply IHrun; [lia|].
        eapply not_retriggers_sub; [exact Hno|]. by eapply sub_effect_then.
    + apply spared_bind.
      * apply IHcomp; [done|]. eapply not_retriggers_sub; [exact Hno|]. constructor.
      * intros r s1 Heq Hlen. destruct r as [|c| | |]; try done. apply IHrun; [lia|].
        eapply not_retriggers_sub; [exact Hno|]. by apply sub_computed_then.
    + destruct (known_context s d) eqn:Hd; [|done].
      apply spared_bind.
      * apply IHdisp; [done|]. eapply not_retriggers_sub; [exact Hno|]. by constructor.
      * intros [] s1 Heq Hlen. apply IHrun; [lia|].
        eapply not_retriggers_sub; [exact Hno|]. by apply sub_dispose_then.
    + assert (spared x s (run n b s)) as Hb.
      { apply IHrun; [done|]. eapply not_retriggers_sub; [exact Hno|]. constructor. }
      destruct (run n b s) as [r s1|e s1| |] eqn:E; [| |done..].
      * eapply spared_trans; [exact Hb|]. intros Hlen. apply IHrun; [lia|].
        eapply not_retriggers_sub; [exact Hno|]. by eapply sub_try_then.
      * eapply (spared_trans x s tt s1); [exact Hb|]. intros Hlen.
        apply spared_bind.
        -- apply IHrun; [lia|]. eapply not_retriggers_sub; [exact Hno|].
           by apply sub_try_catch.
        -- intros r s2 Heq Hlen2. apply IHrun; [lia|].
           eapply not_retriggers_sub; [exact Hno|]. by eapply sub_try_caught.
  - (* write *)
    intros c a s Hx Hno. simpl.
    change (match a with
            | Literal v => Normal (RVal v) s
            | Updater f => run n (f (data (cell_at s c))) s
            end) with (next_value n c a s).
    apply spared_bind.
    { destruct a as [v|f]; simpl; [apply spared_return|].
      apply IHrun; [done|]. eapply not_retriggers_sub; [exact Hno|]. constructor. }
    intros [v|q] s1 Hnext Hlen; [|done].
    destruct (strict_eq v (data (cell_at s1 c))) eqn:Hne; simpl; [apply spared_return|].
    set (s2 := with_cell c (set_data v) s1).
    assert (x ∉ subs s1 c) as Hnot.
    { intros Hin. apply (not_retriggers_here _ _ Hno). simpl. eauto. }
    apply (spared_trans x s1 tt s2); [by apply spared_same|]. intros Hlen2.
    apply spared_forEach. intros l1 y l2 t Hl Hfor Hlen3.
    change (cell_subscriptions (cell_at s2 c)) with (subs s2 c) in Hl.
    unfold s2 in Hl. rewrite subs_set_data in Hl.
    apply IHexec.
    + intros ->. apply Hnot. rewrite Hl. apply elem_of_app. right. by left.
    + lia.
    + eapply not_retriggers_sub; [exact Hno|]. by eapply sub_fan_out.
  - (* execute *)
    intros y s Hne Hx Hno. simpl.
    assert (spared x s (dispose n y s)) as Hd.
    { apply IHdisp; [done|]. eapply not_retriggers_sub; [exact Hno|]. constructor. }
    destruct (dispose n y s) as [[] s1|e s1| |] eqn:E; [| |done..].
    + cbn [bind].
      set (s2 := match parentContext (context_at s1 y) with
                 | Some p => with_context p (map_subscriptions (λ l, l ++ [y])) s1
                 | None => s1
                 end).
      eapply spared_trans; [exact Hd|]. intros Hlen.
      assert (length (contexts s2) = length (contexts s1) ∧ trace s2 = trace s1) as [L2 T2].
      { unfold s2. destruct (parentContext _); [|done]. simpl. by rewrite length_alter. }
      apply (spared_trans x s1 tt s2); [by apply spared_same|]. intros _.
      apply (spared_tracked x y s2); [done|].
      apply spared_bind.
      * apply IHrun; [simpl; lia|]. eapply not_retriggers_sub; [exact Hno|].
        by apply (sub_execute_run n y s s1).
      * intros r s4 _ _. apply spared_same; [apply length_push_disposable|].
        apply trace_push_disposable.
    + cbn [bind]. by apply (spared_finally x s (Thrown e s1)).
  - (* dispose *)
    intros y s Hx Hno. simpl.
    change (with_context y (map_dependencies (λ _, [])) _) with (released y s).
    eapply spared_trans; [apply (spared_released x s y)|]. intros Hlen.
    apply spared_bind.
    { apply spared_forEach. intros l1 z l2 t Hl Hfor Hlen2.
      apply IHdisp; [lia|]. eapply not_retriggers_sub; [exact Hno|].
      by eapply sub_dispose_child. }
    intros [] s1 Hchildren Hlen2.
    eapply spared_trans; [apply (spared_with_context x s1 y)|]. intros Hlen3.
    apply spared_bind.
    { apply spared_forEach. intros l1 [p|v] l2 t Hl Hfor Hlen4; [|apply spared_thrown].
      apply spared_bind.
      - apply IHrun; [simpl in *; lia|]. eapply not_retriggers_sub; [exact Hno|].
        by eapply (sub_dispose_cleanup n y s s1 l1 p l2 t).
      - intros; apply spared_return. }
    intros [] s2 _ _. apply spared_with_context.
  - (* effect *)
    intros f s Hx Hno. simpl.
    set (sb := State (stack s) (cells s)
                 (contexts s ++ [Context f (getCurrentContext s) [] [] [] 0]) (trace s)).
    apply (spared_trans x s tt sb).
    { apply (spared_step x s sb []); [|by rewrite app_nil_r|apply not_elem_of_nil].
      unfold sb; simpl. rewrite length_app. lia. }
    intros Hlen. apply spared_bind.
    + apply IHexec; [lia|lia|]. eapply not_retriggers_sub; [exact Hno|]. constructor.
    + intros; apply spared_return.
  - (* computed *)
    intros f s Hx Hno. simpl.
    apply (spared_trans x s tt (signal VUndefined s).2); [by apply spared_same|].
    intros Hlen. apply spared_bind.
    + apply IHeff; [done|]. eapply not_retriggers_sub; [exact Hno|]. constructor.
    + intros; apply spared_return.
Qed.

Lemma runs_none x d : Ran x ∉ d → runs x d = 0.
Proof. intros H. apply count_occ_not_In. by rewrite <-list_elem_of_In. Qed.

(** The start of the first run of a new context: its disposal does nothing
    but record itself, and its function is then called with the context
    pushed. *)
Lemma construction_entry k f s :
  let x := length (contexts s) in
  let sb := State (stack s) (cells s)
              (contexts s ++ [Context f (getCurrentContext s) [] [] [] 0]) (trace s) in
  ∃ s1, dispose (S k) x sb = Normal tt s1 ∧
        let s2 := match parentContext (context_at s1 x) with
                  | Some p => with_context p (map_subscriptions (λ l, l ++ [x])) s1
                  | None => s1
                  end in
        let s3 := startTracking x s2 in
        fn (context_at s3 x) = f ∧ trace s3 = trace s ++ [Disposed x] ∧
        cells s3 = cells s ∧ length (contexts s3) = S (length (contexts s)) ∧
        record (Ran x) s3 = entered f s.
Proof.
  intros x sb.
  assert (context_at sb x = Context f (getCurrentContext s) [] [] [] 0) as Hx.
  { unfold context_at, sb, x; simpl. by rewrite lookup_app_r, Nat.sub_diag. }
  pose proof (dispose_childless k x sb) as Hd. rewrite Hx in Hd.
  specialize (Hd eq_refl eq_refl).
  set (s1 := with_context x fresh_disposables _) in Hd.
  exists s1. split; [done|]. intros s2 s3.
  assert (released x sb = with_context x (map_dependencies (λ _, [])) (record (Disposed x) sb))
    as Hrel.
  { unfold released. rewrite context_at_record, Hx. done. }
  assert (fn (context_at s1 x) = f) as H1.
  { unfold s1. rewrite !fn_with_context by done. unfold released.
    rewrite fn_with_context, context_at_detach, context_at_record by done. by rewrite Hx. }
  split_and!.
  - unfold s3, s2. change (context_at (startTracking x ?t) x) with (context_at t x).
    destruct (parentContext (context_at s1 x)); [rewrite fn_with_context by done|];
      by rewrite H1.
  - unfold s3, s2. destruct (parentContext _); unfold s1; rewrite Hrel; done.
  - unfold s3, s2. destruct (parentContext _); unfold s1; rewrite Hrel; done.
  - unfold s3, s2. destruct (parentContext _); unfold s1; rewrite Hrel; simpl;
      rewrite !length_alter, length_app; simpl; lia.
  - done.
Qed.

(** The construction of a subscriber in whose course no write fans out to
    the new context calls the function once, however it ends. *)
Lemma effect_runs_once n f s s' :
  final (effect n f s) = Some s' →
  ¬ retriggers (length (contexts s)) (CEffect n f s) →
  ∃ d, trace s' = trace s ++ d ∧ runs (length (contexts s)) d = 1.
Proof.
  destruct n as [|[|[|k]]]; [done..|]. intros Hfin Hno.
  set (x := length (contexts s)) in *.
  set (sb := State (stack s) (cells s)
               (contexts s ++ [Context f (getCurrentContext s) [] [] [] 0]) (trace s)).
  destruct (construction_entry k f s) as (s1 & Hd & Hfn & Htr3 & _ & Hlen3 & _).
  fold x sb in Hd, Hfn, Htr3, Hlen3.
  set (s2 := match parentContext (context_at s1 x) with
             | Some p => with_context p (map_subscriptions (λ l, l ++ [x])) s1
             | None => s1
             end) in *.
  set (s3 := startTracking x s2) in *.
  assert (spared x (record (Ran x) s3) (run (S k) (f x) (record (Ran x) s3))) as Hrun.
  { rewrite <-Hfn.
    destruct (engine_spared x (S k)) as (H & _).
    apply H; [change (x < length (contexts s3)); lia|].
    eapply not_retriggers_sub; [|apply (sub_execute_run (S k) x sb s1 Hd)].
    eapply not_retriggers_sub; [exact Hno|]. constructor. }
  change (effect (S (S (S k))) f s) with
    (let* _, s <- execute (S (S k)) x sb in Normal Undefined s) in Hfin.
  change (execute (S (S k)) x sb) with
    (finally
       (let* _, s <- dispose (S k) x sb in
        let s :=
          match parentContext (context_at s x) with
          | Some p => with_context p (map_subscriptions (λ l, l ++ [x])) s
          | None => s
          end in
        let s := startTracking x s in
        let obj := disposables_obj (context_at s x) in
        let* r, s <- run (S k) (fn (context_at s x) x) (record (Ran x) s) in
        Normal tt (push_disposable x obj (as_disposable r) s))
       stopTracking) in Hfin.
  rewrite Hd in Hfin. cbn [bind] in Hfin. fold s2 s3 in Hfin. rewrite Hfn in Hfin.
  assert (∀ s4 d, trace s4 = trace (record (Ran x) s3) ++ d → Ran x ∉ d →
            ∃ d', trace s4 = trace s ++ d' ∧ runs x d' = 1) as Hend.
  { intros s4 d Htr Hd4. exists (Disposed x :: Ran x :: d). split.
    - rewrite Htr. change (trace (record (Ran x) s3)) with (trace s3 ++ [Ran x]).
      rewrite Htr3. by rewrite <-!app_assoc.
    - rewrite !runs_cons, runs_none by done.
      rewrite decide_False by done. by rewrite decide_True. }
  destruct (run (S k) (f x) (record (Ran x) s3)) as [r s4|e s4| |]; [| |done..];
    simpl in Hfin; injection Hfin as <-; destruct Hrun as (_ & d & Htr & Hd4);
    apply (Hend _ d); try done.
  change (trace (stopTracking ?t)) with (trace t). by rewrite trace_push_disposable.
Qed.

(** The same for the construction of a derived cell. *)
Lemma computed_runs_once n f s s' :
  final (computed n f s) = Some s' →
  ¬ retriggers (length (contexts s)) (CComputed n f s) →
  ∃ d, trace s' = trace s ++ d ∧ runs (length (contexts s)) d = 1.
Proof.
  destruct n as [|n]; [done|]. intros Hfin Hno.
  change (computed (S n) f s) with
    (let* _, s0 <- effect n (λ _, seq f (write_result (signal VUndefined s).1))
                     (signal VUndefined s).2 in
     Normal (Accessor (signal VUndefined s).1) s0) in Hfin.
  apply (effect_runs_once n (λ _, seq f (write_result (signal VUndefined s).1))
           (signal VUndefined s).2 s').
  - destruct (effect n _ _); done.
  - eapply not_retriggers_sub; [exact Hno|]. constructor.
Qed.

(** A run of [p] followed by [g] that returns: [p] has returned, and [g]
    applied to what it returned went on from there. *)
Lemma run_seq_normal p :
  ∀ n g s r s', run n (seq p g) s = Normal r s' →
  ∃ r0 t m, run n p s = Normal r0 t ∧ run m (g r0) t = Normal r s'.
Proof.
  induction p as [v|q|e|c k IH|c v k IH|c u _ k IH|v k IH|f _ k IH|f _ k IH|d k IH|b _ h _ k IH];
    intros n g s r s' Hrun; (destruct n as [|n]; [destruct g; done|]); cbn [seq] in Hrun.
  - exists (RVal v), s, (S n). done.
  - exists (RFn q), s, (S n). done.
  - done.
  - simpl in *. destruct (known_cell s c); [|done].
    destruct (read c s) as [v s1]. by apply IH in Hrun.
  - simpl in *. destruct (known_cell s c); [|done].
    destruct (write n c (Literal v) s) as [[] s1|e s1| |]; [|done..].
    by apply IH in Hrun.
  - simpl in *. destruct (known_cell s c); [|done].
    destruct (write n c (Updater u) s) as [[] s1|e s1| |]; [|done..].
    by apply IH in Hrun.
  - simpl in *. by apply IH in Hrun.
  - simpl in *. destruct (effect n f s) as [a s1|e s1| |]; [|done..].
    by apply IH in Hrun.
  - simpl in *. destruct (computed n f s) as [a s1|e s1| |]; [|done..].
    simpl in *. destruct a; try done. by apply IH in Hrun.
  - simpl in *. destruct (known_context s d); [|done].
    destruct (dispose n d s) as [[] s1|e s1| |]; [|done..].
    by apply IH in Hrun.
  - simpl in *. destruct (run n b s) as [a s1|e s1| |]; [| |done..].
    + by apply IH in Hrun.
    + destruct (run n (h e) s1) as [a s2|e2 s2| |]; [|done..].
      by apply IH in Hrun.
Qed.

(** When [computed] returns, the cell holds what the first call of the
    function returned, provided the cell was still as created then. *)
Lemma computed_holds_result n f s r s' :
  computed n f s = Normal r s' →
  let x := length (contexts s) in
  let c := length (cells s) in
  let t := entered (λ _, seq f (write_result c)) (signal VUndefined s).2 in
  r = Accessor c ∧
  getCurrentContext t = Some x ∧ trace t = trace s ++ [Disposed x; Ran x] ∧
  ∃ r0 t', run (n - 3) f t = Normal r0 t' ∧
           ∀ v, r0 = RVal v → cell_at t' c = Cell VUndefined [] → data (cell_at s' c) = v.
Proof.
  destruct n as [|[|[|[|k]]]]; try done. intros Hc x c t.
  change (S (S (S (S k))) - 3) with (S k).
  set (sa := (signal VUndefined s).2) in *.
  set (body := λ _ : ctx_id, seq f (write_result c)) in *.
  set (sb := State (stack sa) (cells sa)
               (contexts sa ++ [Context body (getCurrentContext sa) [] [] [] 0]) (trace sa)).
  change (computed (S (S (S (S k)))) f s) with
    (let* _, s0 <- (let* _, s0 <- execute (S (S k)) x sb in Normal Undefined s0) in
     Normal (Accessor c) s0) in Hc.
  apply bind_normal in Hc as (a & s0 & He & [= <- <-]).
  apply bind_normal in He as ([] & s0' & Hex & [= _ <-]).
  apply execute_normal in Hex as (s1 & r1 & s4 & Hd & Hrun & ->).
  destruct (construction_entry k body sa) as (s1' & Hd' & Hfn & Htr3 & Hcells & Hlen3 & Ht).
  change (length (contexts sa)) with x in Hd', Hfn, Htr3, Hcells, Hlen3, Ht.
  fold sb in Hd'. rewrite Hd in Hd'. injection Hd' as <-. fold t in Ht.
  set (s2 := match parentContext (context_at s1 x) with
             | Some p => with_context p (map_subscriptions (λ l, l ++ [x])) s1
             | None => s1
             end) in *.
  set (s3 := startTracking x s2) in *.
  rewrite Hfn, Ht in Hrun. unfold body in Hrun.
  apply run_seq_normal in Hrun as (r0 & t' & m & Hf & Hw).
  split_and!; [done| by rewrite <-Ht | |].
  { rewrite <-Ht. change (trace (record (Ran x) s3)) with (trace s3 ++ [Ran x]).
    rewrite Htr3. by rewrite <-app_assoc. }
  exists r0, t'. split; [done|].
  intros v -> Hcell. cbn [write_result] in Hw.
  change (cell_at (stopTracking ?t) c) with (cell_at t c).
  assert (cell_at (push_disposable x (disposables_obj (context_at s3 x))
                     (as_disposable r1) s4) c = cell_at s4 c) as ->.
  { unfold push_disposable. by case_decide. }
  destruct m as [|[|m]]; [done| |].
  { simpl in Hw. destruct (known_cell t' c); done. }
  cbn [run] in Hw. unfold known_cell in Hw. case_bool_decide as Hknown; [|done].
  apply bind_normal in Hw as ([] & t'' & Hw & Hret).
  assert (t'' = s4) as ->.
  { destruct m; simpl in Hret; by simplify_eq. }
  destruct (strict_eq v (data (cell_at t' c))) eqn:E.
  - rewrite write_suppressed in Hw by done. injection Hw as <-.
    rewrite Hcell in E |- *. by destruct v.
  - rewrite write_unobserved in Hw; [|done|unfold subs; by rewrite Hcell].
    injection Hw as <-. rewrite cell_at_with_cell. by rewrite decide_True.
Qed.

(** Walking the calls of a closed call.  The premises of a subcall are
    evaluated as soon as their left-hand side is closed; a list is split at
    every position. *)
Ltac closed t :=
  match t with
  | context [?x] => is_var x; fail 1
  | _ => idtac
  end.

Ltac split_at H :=
  lazymatch type of H with
  | _ = ?l1 ++ _ :: _ =>
      destruct l1 as [|? ?]; cbn [app] in H;
      [ first [ discriminate H | injection H as ? ?; subst ]
      | first [ discriminate H | injection H as ? H; subst; split_at H ] ]
  end.

Ltac evaluate H :=
  lazymatch type of H with
  | ?l = _ ++ _ :: _ =>
      let l' := eval vm_compute in l in
      let Hl := fresh in
      assert (l = l') as Hl by (vm_compute; reflexivity);
      rewrite Hl in H; clear Hl; split_at H
  | _ => vm_compute in H; first [ discriminate H | injection H as H; subst | clear H ]
  end.

Ltac premises :=
  repeat match goal with
  | x := _ : state |- _ => subst x
  end;
  repeat match goal with
  | H : ?l = _ |- _ => closed l; evaluate H
  end.

Ltac here Hf :=
  lazymatch type of Hf with
  | fans_out_to _ (CWrite (S _) _ _ _) =>
      let v := fresh in let s1 := fresh in let Hn := fresh in
      let Hne := fresh in let Hin := fresh in
      destruct Hf as (v & s1 & Hn & Hne & Hin); vm_compute in Hn;
      first [ discriminate Hn
            | injection Hn as <- <-;
              first [ vm_compute in Hne; discriminate Hne
                    | apply list_elem_of_In in Hin; vm_compute in Hin;
                      intuition discriminate ] ]
  | _ => vm_compute in Hf; destruct Hf
  end.

Ltac calls :=
  match goal with
  | Hr : reaches ?C0 ?C, Hf : fans_out_to _ ?C |- _ =>
      let Hsub := fresh "Hsub" in
      let Hnext := fresh "Hnext" in
      closed C0; vm_compute in Hr;
      inversion Hr as [|? ? ? Hsub Hnext]; subst; clear Hr;
      [ here Hf | inversion Hsub; subst; clear Hsub; premises; calls ]
  end.

(** With cell 0 holding 21 and cell 1 holding 0, no write made in the
    course of the construction of a subscriber with [busy_body], or of a
    derived cell with it, fans out to the new context. *)
Lemma busy_subscriber_calm :
  ¬ retriggers 0
      (CEffect 12 (λ _, busy_body 0 1 (λ _, ReturnFn (Return VUndefined)))
         (state_after 4 (NewSignal (VNum 21) (λ _,
                         NewSignal (VNum 0) (λ _, Return VUndefined))))).
Proof. intros (C & Hr & Hf). calls. Qed.

Lemma busy_derived_calm :
  ¬ retriggers 0
      (CComputed 12 (busy_body 0 1 Return)
         (state_after 4 (NewSignal (VNum 21) (λ _,
                         NewSignal (VNum 0) (λ _, Return VUndefined))))).
Proof. intros (C & Hr & Hf). calls. Qed.



Lemma values_ext s (l : list value) :
  length (cells s) = length l → (∀ i, i < length l → data (cell_at s i) = value_at l i) →
  values s = l.
Proof.
  intros Hlen H. apply list_eq. intros i. unfold values. rewrite list_lookup_fmap.
  destruct (decide (i < length l)) as [Hi|Hi].
  - specialize (H i Hi). unfold cell_at, value_at in H.
    destruct (lookup_lt_is_Some_2 (cells s) i) as [y Hy]; [lia|].
    destruct (lookup_lt_is_Some_2 l i) as [w Hw]; [lia|].
    rewrite Hy, Hw in *. simpl in *. by rewrite H.
  - by rewrite !lookup_ge_None_2 by lia.
Qed.

Lemma values_set_data s a v :
  values (with_cell a (set_data v) s) = <[a := v]> (values s).
Proof.
  unfold values, with_cell; simpl. apply list_eq. intros i.
  rewrite list_lookup_fmap.
  destruct (decide (i = a)) as [->|Hne].
  - rewrite list_lookup_alter_eq.
    destruct (decide (a < length (cells s))) as [Ha|Ha].
    + rewrite list_lookup_insert_eq by (by rewrite length_fmap).
      destruct (lookup_lt_is_Some_2 (cells s) a Ha) as [y ->]. done.
    + rewrite !lookup_ge_None_2; [done| |lia].
      rewrite length_insert, length_fmap. lia.
  - rewrite list_lookup_alter_ne, list_lookup_insert_ne by done.
    by rewrite list_lookup_fmap.
Qed.

Lemma reads_are_below p :
  reads_only p → ∀ vs b a, reads_below p vs b → a ∈ reads p vs → a < b.
Proof.
  induction 1 as [w|c k Hk IH]; intros vs b a; simpl.
  - by intros _ ?%not_elem_of_nil.
  - intros [Hc Hb] [->|Hin]%elem_of_cons; [done|]. by eapply IH.
Qed.



Lemma forEach_notified_then n l1 x l2 s s3 :
  notified n l1 s s3 →
  forEach (execute n) (l1 ++ x :: l2) s =
  let* _, s4 <- execute n x s3 in forEach (execute n) l2 s4.
Proof.
  induction 1 as [s|y l s s1 s2 He Hn IH]; [done|].
  cbn [app forEach]. rewrite He. cbn [bind]. exact IH.
Qed.

(** When a subscriber raises during the fan-out of a write, the write
    raises the same exception in the state that run ended in: the value is
    stored, the subscribers before it have run, and those after it in the
    snapshot are not run. *)
Theorem raising_subscriber_stops_fan_out n c a s v s1 l1 x l2 s3 e s4 :
  next_value n c a s = Normal (RVal v) s1 →
  strict_eq v (data (cell_at s1 c)) = false →
  subs s1 c = l1 ++ x :: l2 →
  notified n l1 (with_cell c (set_data v) s1) s3 →
  execute n x s3 = Thrown e s4 →
  write (S n) c a s = Thrown e s4.
Proof.
  intros Hnext Hne Hsubs Hl1 He.
  rewrite write_unfold, Hnext. cbn [bind]. rewrite Hne. cbn [negb].
  replace (cell_subscriptions (cell_at (with_cell c (set_data v) s1) c))
    with (l1 ++ x :: l2).
  - rewrite (forEach_notified_then n l1 x l2 _ s3 Hl1), He. done.
  - rewrite <-Hsubs. unfold subs. rewrite cell_at_with_cell. by case_decide.
Qed.

(** The three subscribers of [raising_program], the second of which raises
    when the cell holds 1: writing 1 runs the first and the second and not
    the third, and the cell holds 1. *)
Lemma raising_subscriber_stops_fan_out_witness :
  let s := state_after 12 raising_program in
  let s4 := state_of (write 8 0 (Literal (VNum 1)) s) in
  subs s 0 = [0; 1; 2] ∧
  trace s4 = trace s ++ [Disposed 0; Ran 0; ReadBy 0 0; Disposed 1; Ran 1; ReadBy 1 0] ∧
  data (cell_at s4 0) = VNum 1 ∧
  write 8 0 (Literal (VNum 1)) s = Thrown (VStr "boom") s4.
Proof.
  intros s s4. do 3 (split; [vm_compute; reflexivity|]).
  apply (raising_subscriber_stops_fan_out 7 0 (Literal (VNum 1)) s (VNum 1) s [0] 1 [2]
           (state_of (execute 7 0 (with_cell 0 (set_data (VNum 1)) s)))).
  - reflexivity.
  - vm_compute. reflexivity.
  - vm_compute. reflexivity.
  - econstructor; [|constructor]. vm_compute. reflexivity.
  - vm_compute. reflexivity.
Defined.

(** A write to a cell without subscribers returns and changes nothing but
    that cell.  The value is stored unless it is strictly equal to the value
    the cell holds, in which case the state is left as it is; [NaN], which
    is strictly equal to nothing, is always stored.  A following read
    returns what the cell then holds: the written value, or the value held
    before when the two are strictly equal. *)
Theorem write_then_read n c v s :
  c < length (cells s) → subs s c = [] →
  ∃ s', write (S n) c (Literal v) s = Normal tt s' ∧
        (strict_eq v (data (cell_at s c)) = true → s' = s) ∧
        (read c s').1 = (if strict_eq v (data (cell_at s c)) then data (cell_at s c) else v) ∧
        stack s' = stack s ∧ contexts s' = contexts s ∧ trace s' = trace s ∧
        ∀ c', c' ≠ c → cell_at s' c' = cell_at s c'.
Proof.
  intros Hc Hsubs. destruct (strict_eq v (data (cell_at s c))) eqn:E.
  - exists s. rewrite write_suppressed by done. split_and!; try done.
    by rewrite read_value, <-data_value_at.
  - eexists. rewrite write_unobserved by done. split_and!; try done.
    + rewrite read_value, <-data_value_at, cell_at_with_cell. by rewrite decide_True.
    + intros c' Hne. rewrite cell_at_with_cell. rewrite decide_False; [done|].
      intros [? _]; congruence.
Qed.

(** [NaN] is written to a cell that holds [NaN]: it is stored, and read. *)
Lemma write_then_read_witness :
  let s := state_after 3 (NewSignal VNaN (λ _, Return VUndefined)) in
  ∃ s', write 1 0 (Literal VNaN) s = Normal tt s' ∧
        (strict_eq VNaN (data (cell_at s 0)) = true → s' = s) ∧
        (read 0 s').1 = (if strict_eq VNaN (data (cell_at s 0)) then data (cell_at s 0) else VNaN) ∧
        stack s' = stack s ∧ contexts s' = contexts s ∧ trace s' = trace s ∧
        ∀ c', c' ≠ 0 → cell_at s' c' = cell_at s c'.
Proof.
  intros s. apply (write_then_read 0 0 VNaN s); vm_compute; [lia | reflexivity].
Defined.



End SignalProofs.

(** * Proofs about [src/lib/reactive.js] *)
Module ReactiveProofs.
Import ReactiveJs ReactiveSpec.

(** ** The scenario of the test suite

    The calls of user functions, in order: at construction the function of
    the derived ref and the two tracking subscribers; at the setter call
    each counter of the test is incremented once. *)

Example reactive_values_are_watchable :
  trace (state_after 20 (test_watchable (λ _, Return VUndefined))) = [10; 1; 3] ∧
  trace (state_after 20 (test_watchable (λ r,
           CallSetter r (λ _, Return (VStr "foobar")) (Return VUndefined))))
  = [10; 1; 3; 10; 3; 4; 1; 2].
Proof. vm_compute. done. Qed.

Lemma same_fn_refl cb : same_fn cb cb = true.
Proof. destruct cb; simpl; by apply bool_decide_eq_true. Qed.

Lemma same_fn_sym a b : same_fn a b = same_fn b a.
Proof.
  destruct a, b; simpl; try done; apply bool_decide_ext; naive_solver.
Qed.

Lemma same_fn_trans a b c : same_fn a b = true → same_fn b c = true → same_fn a c = true.
Proof.
  destruct a, b, c; simpl; try done;
    rewrite !bool_decide_eq_true; congruence.
Qed.

Lemma same_fn_left a b c : same_fn a b = true → same_fn c a = same_fn c b.
Proof.
  intros Hab. destruct (same_fn c a) eqn:E1, (same_fn c b) eqn:E2; try done.
  - by rewrite (same_fn_trans c a b) in E2.
  - rewrite same_fn_sym in Hab. by rewrite (same_fn_trans c b a) in E1.
Qed.

Lemma existsb_cb_add cb cb0 l :
  existsb (same_fn cb) (cb_add cb0 l) = existsb (same_fn cb) l || same_fn cb cb0.
Proof.
  unfold cb_add. destruct (existsb (same_fn cb0) l) eqn:E.
  - destruct (same_fn cb cb0) eqn:E'; [|by rewrite orb_false_r].
    rewrite orb_true_r. apply existsb_exists in E as (x & Hx & Hs).
    apply existsb_exists. exists x. split; [done|]. by apply same_fn_trans with cb0.
  - rewrite existsb_app. simpl. by rewrite orb_false_r.
Qed.

Lemma ref_at_with_ref s g f g' :
  ref_at (with_ref g f s) g' =
  if decide (g = g' ∧ g < length (refs s)) then f (ref_at s g') else ref_at s g'.
Proof.
  unfold ref_at, with_ref; simpl. case_decide as H.
  - destruct H as [<- H]. rewrite list_lookup_alter_eq.
    destruct (lookup_lt_is_Some_2 _ _ H) as [y Hy]. by rewrite Hy.
  - destruct (decide (g = g')) as [<-|Hne].
    + rewrite list_lookup_alter_eq.
      rewrite (lookup_ge_None_2 (refs s) g); [done|lia].
    + by rewrite list_lookup_alter_ne.
Qed.

Lemma instance_at_with_instance s i f j :
  instance_at (with_instance i f s) j =
  if decide (i = j ∧ i < length (instances s)) then f (instance_at s j) else instance_at s j.
Proof.
  unfold instance_at, with_instance; simpl. case_decide as H.
  - destruct H as [<- H]. rewrite list_lookup_alter_eq.
    destruct (lookup_lt_is_Some_2 _ _ H) as [y Hy]. by rewrite Hy.
  - destruct (decide (i = j)) as [<-|Hne].
    + rewrite list_lookup_alter_eq.
      rewrite (lookup_ge_None_2 (instances s) i); [done|lia].
    + by rewrite list_lookup_alter_ne.
Qed.

(** What [watch] followed by [deps.add] changes *)
Lemma watch_frame i cb s g :
  tracklist (watch i cb s g) = tracklist s ∧ trace (watch i cb s g) = trace s ∧
  length (refs (watch i cb s g)) = length (refs s) ∧
  length (instances (watch i cb s g)) = length (instances s) ∧
  (∀ g', data (ref_at (watch i cb s g) g') = data (ref_at s g')).
Proof.
  unfold watch. simpl. rewrite !length_alter. split_and!; try done.
  intros g'. change (ref_at (with_instance _ _ ?t) g') with (ref_at t g').
  rewrite ref_at_with_ref. by case_decide.
Qed.

Lemma watches_watch i cb0 s g0 g cb :
  g0 < length (refs s) →
  watches (watch i cb0 s g0) g cb =
  watches s g cb || (same_fn cb cb0 && bool_decide (g = g0)).
Proof.
  intros Hg0. unfold watches, watch.
  change (ref_at (with_instance _ _ ?t) g) with (ref_at t g).
  rewrite ref_at_with_ref. destruct (decide (g = g0)) as [->|Hne].
  - rewrite decide_True by done. simpl. rewrite existsb_cb_add.
    by rewrite bool_decide_eq_true_2, andb_true_r.
  - rewrite decide_False by (intros [? _]; congruence).
    by rewrite bool_decide_eq_false_2, andb_false_r, orb_false_r.
Qed.

Lemma deps_watch i cb0 s g0 :
  i < length (instances s) →
  deps (instance_at (watch i cb0 s g0) i) = deps (instance_at s i) ++ [(g0, cb0)].
Proof.
  intros Hi. unfold watch. rewrite instance_at_with_instance.
  rewrite decide_True; [done|]. split; [done|]. done.
Qed.

Lemma foldl_watch i cb0 l s :
  Forall (λ g, g < length (refs s)) l → i < length (instances s) →
  let s' := foldl (watch i cb0) s l in
  tracklist s' = tracklist s ∧ trace s' = trace s ∧
  length (refs s') = length (refs s) ∧ length (instances s') = length (instances s) ∧
  (∀ g, data (ref_at s' g) = data (ref_at s g)) ∧
  (∀ g cb, watches s' g cb = watches s g cb || (same_fn cb cb0 && bool_decide (g ∈ l))) ∧
  deps (instance_at s' i) = deps (instance_at s i) ++ map (λ g, (g, cb0)) l.
Proof.
  revert s. induction l as [|g0 l IH]; intros s Hl Hi; simpl.
  - split_and!; try done.
    + intros g cb. by rewrite andb_false_r, orb_false_r.
    + by rewrite app_nil_r.
  - apply Forall_cons in Hl as [Hg0 Hl].
    destruct (watch_frame i cb0 s g0) as (W1 & W2 & W3 & W4 & W5).
    destruct (IH (watch i cb0 s g0)) as (I1 & I2 & I3 & I4 & I5 & I6 & I7).
    { eapply Forall_impl; [exact Hl|]. intros g Hg. simpl in *. by rewrite W3. }
    { by rewrite W4. }
    split_and!; [congruence..|intros g; by rewrite I5, W5| |].
    + intros g cb. rewrite I6, watches_watch by done.
      rewrite <-orb_assoc. f_equal.
      destruct (same_fn cb cb0); simpl; [|done].
      destruct (decide (g = g0)) as [->|Hne].
      * rewrite bool_decide_eq_true_2 by done. simpl. symmetry.
        apply bool_decide_eq_true_2. by left.
      * rewrite (bool_decide_eq_false_2 (g = g0)) by done. simpl.
        apply bool_decide_ext. rewrite elem_of_cons. tauto.
    + rewrite I7, deps_watch by done. by rewrite <-app_assoc.
Qed.

(** A function that only reads changes nothing but the tracking frame *)
Lemma run_getters_only p :
  reads_only p → ∀ n s, getters_known p (refs s) → steps p (refs s) ≤ n →
  ∃ t, run n p s = Normal (value_of p (refs s)) (State t (refs s) (instances s) (trace s)).
Proof.
  induction 1 as [v|g k Hk IH]; intros n s Hknown Hn; simpl in *.
  - destruct n as [|n]; [lia|]. exists (tracklist s). simpl. by destruct s.
  - destruct n as [|n]; [lia|]. destruct Hknown as [Hg Hknown]. simpl.
    unfold known_ref. rewrite bool_decide_eq_true_2 by done.
    destruct (IH (data (ref_at s g)) n (track g s)) as (t & Hrun); [done|simpl; unfold ref_at; lia|].
    exists t. exact Hrun.
Qed.

Lemma effect_returns_clear n name f rs s r s' :
  effect n name f rs s = Normal r s' → r = Disposer (length (instances s)).
Proof.
  destruct n as [|n]; [done|]. simpl.
  destruct rs as [[|g l]|].
  - destruct (effect_run n _ _) as [a s1|e s1| |]; simpl; by intros [= <- _] || done.
  - by intros [= <- _].
  - destruct (effect_run n _ _) as [a s1|e s1| |]; simpl; by intros [= <- _] || done.
Qed.

Lemma computed_returns_pair n name f s r s' :
  computed n name f s = Normal r s' →
  r = Pair (Accessor (length (refs s))) (Disposer (length (instances s))).
Proof.
  destruct n as [|n]; [done|]. simpl.
  destruct (update n _ _) as [a s1|e s1| |]; simpl; by intros [= <- _] || done.
Qed.

Lemma callbacks_watch i cb0 s g0 g :
  g0 < length (refs s) →
  callbacks (ref_at (watch i cb0 s g0) g) =
  if decide (g = g0) then Some (cb_add cb0 (default [] (callbacks (ref_at s g))))
  else callbacks (ref_at s g).
Proof.
  intros Hg0. unfold watch.
  change (ref_at (with_instance _ _ ?t) g) with (ref_at t g).
  rewrite ref_at_with_ref. destruct (decide (g = g0)) as [->|Hne].
  - by rewrite decide_True.
  - rewrite decide_False; [done|]. intros [? _]; congruence.
Qed.

Lemma foldl_watch_callbacks i cb0 l s g :
  Forall (λ g, g < length (refs s)) l →
  callbacks (ref_at s g) = Some [cb0] ∨ (default [] (callbacks (ref_at s g)) = [] ∧ g ∈ l) →
  callbacks (ref_at (foldl (watch i cb0) s l) g) = Some [cb0].
Proof.
  revert s. induction l as [|g0 l IH]; intros s Hl H; simpl.
  - destruct H as [H|[_ H]]; [done | by apply not_elem_of_nil in H].
  - apply Forall_cons in Hl as [Hg0 Hl].
    destruct (watch_frame i cb0 s g0) as (_ & _ & W3 & _ & _).
    apply IH.
    { eapply Forall_impl; [exact Hl|]. intros g' Hg'. simpl in *. by rewrite W3. }
    rewrite callbacks_watch by done.
    destruct (decide (g = g0)) as [->|Hne].
    + left. f_equal. destruct H as [->|[-> _]]; simpl.
      * unfold cb_add. simpl. by rewrite same_fn_refl.
      * done.
    + destruct H as [H|[H Hin]]; [by left|]. right. split; [done|].
      apply elem_of_cons in Hin as [?|?]; done.
Qed.

(** ** Constructions whose function only reads *)

Lemma trace_foldl_watch i cb l s : trace (foldl (watch i cb) s l) = trace s.
Proof. revert s. induction l as [|g l IH]; intros s; [done|]. simpl. by rewrite IH. Qed.

Lemma data_foldl_watch i cb l s g :
  data (ref_at (foldl (watch i cb) s l) g) = data (ref_at s g).
Proof.
  revert s. induction l as [|g0 l IH]; intros s; [done|]. simpl. rewrite IH.
  by destruct (watch_frame i cb s g0) as (_ & _ & _ & _ & ->).
Qed.

Lemma clear_new_instance s name f g :
  let s0 := State (tracklist s) (refs s) (instances s ++ [Instance name f g []]) (trace s) in
  clear (length (instances s)) s0 = s0 ∧
  instance_at s0 (length (instances s)) = Instance name f g [].
Proof.
  intros s0.
  assert (instance_at s0 (length (instances s)) = Instance name f g []) as Hi.
  { unfold instance_at, s0; simpl. by rewrite lookup_app_r, Nat.sub_diag. }
  split; [|done]. unfold clear. rewrite Hi. simpl.
  unfold with_instance, s0; simpl. f_equal.
  rewrite <-(Nat.add_0_r (length (instances s))). by rewrite alter_app_r.
Qed.

Lemma reads_only_refs_app p :
  reads_only p → ∀ rs u, getters_known p rs →
  steps p (rs ++ u) = steps p rs ∧ value_of p (rs ++ u) = value_of p rs ∧
  getters_known p (rs ++ u).
Proof.
  induction 1 as [v|g k Hk IH]; intros rs u Hknown; [done|].
  destruct Hknown as [Hg Hknown]. cbn [steps value_of getters_known].
  rewrite lookup_app_l by done.
  destruct (IH _ rs u Hknown) as (-> & -> & ?).
  split_and!; try done. rewrite length_app. lia.
Qed.

(** The construction of a tracking subscriber whose function only reads
    returns its [clear], after one call of the function. *)
Lemma tracking_effect_reads_only n name f rs s :
  rs = None ∨ rs = Some [] →
  reads_only (f VUndefined) → getters_known (f VUndefined) (refs s) →
  steps (f VUndefined) (refs s) ≤ n →
  ∃ s', effect (S (S n)) name f rs s = Normal (Disposer (length (instances s))) s' ∧
        trace s' = trace s ++ [name].
Proof.
  intros Hrs Hf Hknown Hn.
  set (i := length (instances s)).
  set (s0 := State (tracklist s) (refs s) (instances s ++ [Instance name f None []]) (trace s)).
  destruct (clear_new_instance s name f None) as (Hclear & Hi). fold s0 i in Hclear, Hi.
  assert (effect (S (S n)) name f rs s =
          let* _, s <- effect_run (S n) i s0 in Normal (Disposer i) s) as ->.
  { by destruct Hrs as [-> | ->]. }
  change (effect_run (S n) i s0) with
    (let s := startTracking (clear i s0) in
     let x := instance_at s i in
     let* _, s <- run n (inst_fn x VUndefined) (record (inst_name x) s) in
     let '(tracked, s) := stopTracking s in
     Normal tt (foldl (watch i (CbEffect i)) s tracked)).
  cbv zeta. rewrite Hclear.
  change (instance_at (startTracking s0) i) with (instance_at s0 i). rewrite Hi.
  cbn [inst_fn inst_name].
  destruct (run_getters_only (f VUndefined) Hf n (record name (startTracking s0)))
    as (t & Hrun); [done..|].
  rewrite Hrun. cbn [bind].
  destruct (stopTracking _) as [tracked s1] eqn:Hstop.
  eexists. split; [reflexivity|].
  rewrite trace_foldl_watch. unfold stopTracking in Hstop. by simplify_eq.
Qed.

(** The construction of a derived ref whose function only reads returns
    the getter and its [clear], after one call of the function; the ref
    holds what the function returned. *)
Lemma derived_ref_reads_only n name f s :
  reads_only (f VUndefined) → getters_known (f VUndefined) (refs s) →
  steps (f VUndefined) (refs s) ≤ n →
  ∃ s', computed (S (S (S n))) name f s
        = Normal (Pair (Accessor (length (refs s))) (Disposer (length (instances s)))) s' ∧
        trace s' = trace s ++ [name] ∧
        data (ref_at s' (length (refs s))) = value_of (f VUndefined) (refs s).
Proof.
  intros Hf Hknown Hn.
  set (g := length (refs s)). set (i := length (instances s)).
  set (sa := (ref VUndefined s).2).
  set (s0 := State (tracklist sa) (refs sa) (instances sa ++ [Instance name f (Some g) []])
               (trace sa)).
  destruct (clear_new_instance sa name f (Some g)) as (Hclear & Hi).
  change (length (instances sa)) with i in Hclear, Hi. fold s0 in Hclear, Hi.
  change (computed (S (S (S n))) name f s) with
    (let* _, s <- update (S (S n)) i s0 in Normal (Pair (Accessor g) (Disposer i)) s).
  change (update (S (S n)) i s0) with
    (let s := startTracking (clear i s0) in
     let x := instance_at s i in
     match inst_getter x with
     | None => Unsupported
     | Some g =>
         let* _, s <- setter (S n) g (λ _, inst_fn x VUndefined) (record (inst_name x) s) in
         let '(tracked, s) := stopTracking s in
         Normal tt (foldl (watch i (CbUpdate i)) s tracked)
     end).
  cbv zeta. rewrite Hclear.
  change (instance_at (startTracking s0) i) with (instance_at s0 i). rewrite Hi.
  cbn [inst_fn inst_name inst_getter].
  set (s1 := record name (startTracking s0)).
  destruct (reads_only_refs_app _ Hf (refs s) [RefCell VUndefined None] Hknown)
    as (Hst & Hval & Hknown').
  destruct (run_getters_only (f VUndefined) Hf n s1) as (t & Hrun).
  { exact Hknown'. } { change (refs s1) with (refs s ++ [RefCell VUndefined None]). lia. }
  change (refs s1) with (refs s ++ [RefCell VUndefined None]) in Hrun.
  rewrite Hval in Hrun.
  set (v := value_of (f VUndefined) (refs s)) in *.
  set (s2 := State t (refs s ++ [RefCell VUndefined None]) (instances s1) (trace s1)) in Hrun.
  assert (ref_at (with_ref g (set_data v) s2) g = RefCell v None) as Hg.
  { rewrite ref_at_with_ref. rewrite decide_True.
    - unfold ref_at, s2, g; simpl. by rewrite lookup_app_r, Nat.sub_diag.
    - split; [done|]. unfold s2, g; simpl. rewrite length_app; simpl. lia. }
  assert (setter (S n) g (λ _, f VUndefined) s1 = Normal tt (with_ref g (set_data v) s2)) as ->.
  { change (setter (S n) g (λ _, f VUndefined) s1) with
      (let* v, s <- run n (f VUndefined) s1 in
       let s := with_ref g (set_data v) s in dispatch n g v s).
    rewrite Hrun. cbn [bind]. cbv zeta.
    destruct n as [|n]; [destruct Hf; simpl in Hn; lia|].
    change (dispatch (S n) g v ?t) with
      (match callbacks (ref_at t g) with
       | None => Normal tt t
       | Some l =>
           forEach (λ fn s,
                      match fn with
                      | CbEffect i => effect_run n i s
                      | CbUpdate i => update n i s
                      | CbFn name body =>
                          let* _, s <- run n (body v) (record name s) in Normal tt s
                      end) l t
       end).
    by rewrite Hg. }
  cbn [bind].
  destruct (stopTracking _) as [tracked s3] eqn:Hstop.
  eexists. split_and!; [reflexivity| |].
  - rewrite trace_foldl_watch. unfold stopTracking in Hstop. by simplify_eq.
  - rewrite data_foldl_watch. unfold stopTracking in Hstop. simplify_eq.
    change (ref_at (with_tracklist tail ?t) g) with (ref_at t g). by rewrite Hg.
Qed.

(** ** The setter of a ref *)

(** The claim C2 as it is stated fails for the refs of [reactive.js]: a ref
    holds 0 and has a tracking subscriber; a setter call whose function
    returns the value it was given runs the subscriber again. *)
Lemma setter_never_compares :
  ¬ (∀ n g f s v s1 s',
       run n (f (data (ref_at s g))) s = Normal v s1 →
       strict_eq v (data (ref_at s1 g)) = true →
       setter (S n) g f s = Normal tt s' →
       trace s' = trace s1).
Proof.
  intros H.
  set (s := state_after 10 (NewRef (VNum 0) (λ r,
               NewEffect 1 (λ _, CallGetter r (λ _, Return VUndefined)) None
                 (λ _, Return VUndefined)))).
  specialize (H 5 0 (λ v, Return v) s (VNum 0) s (state_of (setter 6 0 (λ v, Return v) s))).
  vm_compute in H. specialize (H eq_refl eq_refl eq_refl). done.
Qed.

(** ** What a tracking frame collects *)

Lemma elem_of_tracked_set g frame l : g ∈ tracked_set frame l ↔ g ∈ frame ∨ g ∈ l.
Proof.
  unfold tracked_set. revert frame. induction l as [|a l IH]; intros frame; simpl.
  - rewrite elem_of_nil. tauto.
  - rewrite IH, elem_of_cons. unfold set_add. case_bool_decide as H.
    + split; [tauto|]. intros [?|[->|?]]; auto.
    + rewrite elem_of_app, list_elem_of_singleton. tauto.
Qed.

Lemma track_frame g s :
  tracklist (track g s) =
  match tracklist s with [] => [] | top :: rest => set_add g top :: rest end ∧
  refs (track g s) = refs s ∧ instances (track g s) = instances s ∧
  trace (track g s) = trace s.
Proof. done. Qed.

(** A function that only reads adds the getters it calls to the top frame,
    if there is one, and changes nothing else. *)
Lemma run_getters_tracked p :
  reads_only p → ∀ n s, getters_known p (refs s) → steps p (refs s) ≤ n →
  run n p s =
  Normal (value_of p (refs s))
    (State match tracklist s with
           | [] => []
           | top :: rest => tracked_set top (getters p (refs s)) :: rest
           end (refs s) (instances s) (trace s)).
Proof.
  induction 1 as [v|g k Hk IH]; intros n s Hknown Hn; simpl in *.
  - destruct n as [|n]; [lia|]. simpl. destruct s as [[|top rest] ? ? ?]; done.
  - destruct n as [|n]; [lia|]. destruct Hknown as [Hg Hknown]. simpl.
    unfold known_ref. rewrite bool_decide_eq_true_2 by done.
    rewrite (IH (data (ref_at s g)) n (track g s)); [|done|simpl; unfold ref_at; lia].
    simpl. unfold ref_at. by destruct (tracklist s).
Qed.

(** ** [clear] *)

Lemma existsb_cb_delete cb f l :
  existsb (same_fn cb) (cb_delete f l) = existsb (same_fn cb) l && negb (same_fn f cb).
Proof.
  unfold cb_delete. induction l as [|y l IH]; [done|].
  rewrite filter_cons. simpl. destruct (same_fn f cb) eqn:E.
  - rewrite andb_false_r in *. case_decide as Hy; [|done].
    simpl. rewrite IH. rewrite orb_false_r.
    destruct (same_fn cb y) eqn:E'; [|done].
    by rewrite (same_fn_trans f cb y) in Hy.
  - rewrite andb_true_r in *. case_decide as Hy; simpl; [by rewrite IH|].
    rewrite IH. destruct (same_fn cb y) eqn:E'; [|done].
    apply not_false_is_true in Hy.
    rewrite same_fn_sym in E'. by rewrite (same_fn_trans f y cb) in E.
Qed.

Lemma watches_unwatch s g0 f0 g cb :
  watches (with_ref g0 (λ r, RefCell (data r) (cb_delete f0 <$> callbacks r)) s) g cb =
  watches s g cb && negb (bool_decide (g = g0) && same_fn f0 cb).
Proof.
  unfold watches. rewrite ref_at_with_ref. case_decide as H.
  - destruct H as [-> H]. rewrite bool_decide_eq_true_2 by done. simpl.
    destruct (callbacks (ref_at s g)) as [l|]; simpl; [apply existsb_cb_delete|done].
  - destruct (decide (g = g0)) as [->|Hne].
    + assert (callbacks (ref_at s g0) = None) as ->; [|done].
      unfold ref_at. rewrite lookup_ge_None_2; [done|].
      destruct (decide (g0 < length (refs s))); [tauto|lia].
    + rewrite (bool_decide_eq_false_2 (g = g0)) by done. simpl. by rewrite andb_true_r.
Qed.

Lemma watches_unwatch_all s (d : list unwatch) g cb :
  watches (foldl (λ s u, with_ref u.1 (λ r, RefCell (data r) (cb_delete u.2 <$> callbacks r)) s)
             s d) g cb =
  watches s g cb && negb (existsb (λ u, bool_decide (g = u.1) && same_fn u.2 cb) d).
Proof.
  revert s. induction d as [|u d IH]; intros s; simpl.
  - by rewrite andb_true_r.
  - rewrite IH, watches_unwatch, negb_orb. by rewrite andb_assoc.
Qed.

(** What [clear] of instance [i] changes: each function registered through
    [i] is taken out of the watcher set it was added to. *)
Lemma clear_unwatches i s :
  (∀ g cb, watches (clear i s) g cb =
           watches s g cb &&
           negb (existsb (λ u, bool_decide (g = u.1) && same_fn u.2 cb) (deps (instance_at s i)))) ∧
  (∀ g, data (ref_at (clear i s) g) = data (ref_at s g)) ∧
  trace (clear i s) = trace s ∧ tracklist (clear i s) = tracklist s ∧
  length (instances (clear i s)) = length (instances s) ∧
  (i < length (instances s) → deps (instance_at (clear i s) i) = []).
Proof.
  unfold clear. set (d := deps (instance_at s i)).
  set (t := foldl (λ s u, with_ref u.1 (λ r, RefCell (data r) (cb_delete u.2 <$> callbacks r)) s)
              s d).
  assert (tracklist t = tracklist s ∧ trace t = trace s ∧ instances t = instances s ∧
          ∀ g, data (ref_at t g) = data (ref_at s g)) as (T1 & T2 & T3 & T4).
  { unfold t. generalize d. clear. intros d. revert s.
    induction d as [|u d IH]; intros s; simpl; [done|].
    destruct (IH (with_ref u.1 (λ r, RefCell (data r) (cb_delete u.2 <$> callbacks r)) s))
      as (-> & -> & -> & H).
    split_and!; try done. intros g. rewrite H, ref_at_with_ref. by case_decide. }
  split_and!.
  - intros g cb. change (watches (with_instance i _ t) g cb) with (watches t g cb).
    apply watches_unwatch_all.
  - intros g. change (ref_at (with_instance i _ t) g) with (ref_at t g). apply T4.
  - exact T2.
  - exact T1.
  - simpl. by rewrite length_alter, T3.
  - intros Hi. rewrite instance_at_with_instance. rewrite decide_True; [done|].
    by rewrite T3.
Qed.

(** ** Functions that raise *)

Lemma run_getters_throws e p :
  reads_then_throws e p → ∀ n s, getters_known p (refs s) → steps p (refs s) ≤ n →
  run n p s =
  Thrown e
    (State match tracklist s with
           | [] => []
           | top :: rest => tracked_set top (getters p (refs s)) :: rest
           end (refs s) (instances s) (trace s)).
Proof.
  induction 1 as [|g k Hk IH]; intros n s Hknown Hn; simpl in *.
  - destruct n as [|n]; [lia|]. simpl. destruct s as [[|top rest] ? ? ?]; done.
  - destruct n as [|n]; [lia|]. destruct Hknown as [Hg Hknown]. simpl.
    unfold known_ref. rewrite bool_decide_eq_true_2 by done.
    rewrite (IH (data (ref_at s g)) n (track g s)); [|done|simpl; unfold ref_at; lia].
    simpl. unfold ref_at. by destruct (tracklist s).
Qed.

(** ** Lazy subscribers *)

Lemma forEach_app {A} (f : A → state → result unit) l1 l2 s :
  forEach f (l1 ++ l2) s = let* _, s1 <- forEach f l1 s in forEach f l2 s1.
Proof.
  revert s. induction l1 as [|a l1 IH]; intros s; simpl; [done|].
  destruct (f a s) as [[] s1|e s1| |]; simpl; [apply IH|done..].
Qed.

Lemma tracked_app l1 l2 frames : tracked (l1 ++ l2) frames = tracked l2 (tracked l1 frames).
Proof. destruct frames as [|top rest]; [done|]. simpl. unfold tracked_set. by rewrite foldl_app. Qed.

Lemma tracked_nil frames : tracked [] frames = frames.
Proof. by destruct frames. Qed.

Lemma dispatch_unfold n g v s :
  dispatch (S n) g v s =
  match callbacks (ref_at s g) with
  | None => Normal tt s
  | Some l => forEach (call_watcher n v) l s
  end.
Proof. done. Qed.

(** [dispatch] calling a watched function that only reads: the call is
    recorded, and the getters it calls are added to the innermost tracking
    frame, when one is open. *)
Lemma call_lazy_reader n v name body s :
  reads_only (body v) → getters_known (body v) (refs s) → steps (body v) (refs s) ≤ n →
  call_watcher n v (CbFn name body) s =
  Normal tt (State (tracked (getters (body v) (refs s)) (tracklist s)) (refs s)
               (instances s) (trace s ++ [name])).
Proof.
  intros Hro Hknown Hsteps. unfold call_watcher.
  rewrite (run_getters_tracked (body v) Hro n (record name s)) by done.
  done.
Qed.

Lemma forEach_lazy_tracked n v l t :
  Forall (lazy_reader n v (refs t)) l →
  forEach (call_watcher n v) l t =
  Normal tt (State (tracked (concat (fn_getters v (refs t) <$> l)) (tracklist t)) (refs t)
               (instances t) (trace t ++ map fn_name l)).
Proof.
  revert t. induction l as [|cb l IH]; intros t Hl.
  - simpl. rewrite tracked_nil, app_nil_r. by destruct t.
  - apply Forall_cons in Hl as [Hcb Hl]. destruct cb as [i|i|name body]; try done.
    destruct Hcb as (Hro & Hknown & Hsteps).
    cbn [forEach]. rewrite call_lazy_reader by done. cbn [bind].
    rewrite IH by done. cbn [refs tracklist instances trace fmap list_fmap concat fn_getters].
    rewrite tracked_app. simpl. by rewrite <-app_assoc.
Qed.

(** C9, as amended.  [effect(fn, refs)] with a list [refs] that is not
    empty returns its [clear] without calling [fn] and without a tracking
    frame; afterwards [fn] is a watcher of the listed refs, in addition to
    the watchers there were, and [deps] holds one entry per listed ref.
    While [fn] is in the watcher set of a ref, a setter call on that ref
    calls it once, in its turn, when the watchers before it have returned.
    The call pushes no frame: when [fn] only reads, it changes no watcher
    set and no [deps], those of the lazy subscriber included, and the
    getters it calls are added to the innermost tracking frame when one is
    open, so that the subscriber then running watches them; with no frame
    open they are recorded nowhere.  A setter call on a ref whose watchers
    are all such functions calls each of them once, in the order of the
    set.  For a listed ref that had no watcher, the history grows by the
    one call of [fn]. *)
Theorem lazy_subscription n name f r rs s :
  Forall (λ g, g < length (refs s)) (r :: rs) →
  let i := length (instances s) in
  ∃ s', effect (S n) name f (Some (r :: rs)) s = Normal (Disposer i) s' ∧
    trace s' = trace s ∧ tracklist s' = tracklist s ∧
    (∀ g, data (ref_at s' g) = data (ref_at s g)) ∧
    (∀ g cb, watches s' g cb =
             watches s g cb || (same_fn cb (CbFn name f) && bool_decide (g ∈ r :: rs))) ∧
    deps (instance_at s' i) = map (λ g, (g, CbFn name f)) (r :: rs) ∧
    (∀ g, g ∈ r :: rs → default [] (callbacks (ref_at s g)) = [] →
          callbacks (ref_at s' g) = Some [CbFn name f]) ∧
    (∀ t0 g u m v t l1 l2 t1,
       run (S m) (u (data (ref_at t0 g))) t0 = Normal v t →
       callbacks (ref_at t g) = Some (l1 ++ CbFn name f :: l2) →
       forEach (call_watcher m v) l1 (with_ref g (set_data v) t) = Normal tt t1 →
       reads_only (f v) → getters_known (f v) (refs t1) → steps (f v) (refs t1) ≤ m →
       setter (S (S m)) g u t0 =
       forEach (call_watcher m v) l2
         (State (tracked (getters (f v) (refs t1)) (tracklist t1)) (refs t1) (instances t1)
            (trace t1 ++ [name]))) ∧
    (∀ t g v m l,
       callbacks (ref_at t g) = Some l →
       let s1 := with_ref g (set_data v) t in
       Forall (lazy_reader m v (refs s1)) l →
       ∃ s2, setter (S (S m)) g (λ _, Return v) t = Normal tt s2 ∧
             trace s2 = trace t ++ map fn_name l ∧
             refs s2 = refs s1 ∧ instances s2 = instances t ∧
             callbacks (ref_at s2 g) = Some l ∧
             tracklist s2 = tracked (concat (fn_getters v (refs s1) <$> l)) (tracklist t)).
Proof.
  intros Hl i.
  set (s0 := State (tracklist s) (refs s) (instances s ++ [Instance name f None []]) (trace s)).
  destruct (foldl_watch i (CbFn name f) (r :: rs) s0) as (F1 & F2 & F3 & F4 & F5 & F6 & F7).
  { done. }
  { unfold s0, i; simpl. rewrite length_app; simpl. lia. }
  exists (foldl (watch i (CbFn name f)) s0 (r :: rs)). split_and!; try done.
  - rewrite F7. unfold instance_at, s0, i; simpl.
    by rewrite lookup_app_r, Nat.sub_diag.
  - intros g Hg Hnone. apply foldl_watch_callbacks; [done|]. by right.
  - intros t0 g u m v t l1 l2 t1 Hu Hcb Hl1 Hro Hknown Hsteps.
    change (setter (S (S m)) g u t0) with
      (let* v, s <- run (S m) (u (data (ref_at t0 g))) t0 in
       dispatch (S m) g v (with_ref g (set_data v) s)).
    rewrite Hu. cbn [bind].
    assert (callbacks (ref_at (with_ref g (set_data v) t) g)
            = Some (l1 ++ CbFn name f :: l2)) as Hcb1.
    { rewrite ref_at_with_ref. by case_decide. }
    rewrite dispatch_unfold, Hcb1, forEach_app, Hl1. cbn [bind forEach].
    by rewrite call_lazy_reader.
  - intros t g v m l Hcb s1 Hlazy.
    assert (callbacks (ref_at s1 g) = Some l) as Hcb1.
    { unfold s1. rewrite ref_at_with_ref. by case_decide. }
    eexists. split.
    { change (setter (S (S m)) g (λ _, Return v) t) with (dispatch (S m) g v s1).
      rewrite dispatch_unfold, Hcb1. by apply forEach_lazy_tracked. }
    split_and!; try done.
Qed.

(** Two refs and a lazy subscriber of the first whose function reads the
    second: no call at construction, one call for each of two setter calls
    on the first ref, no watcher on the second and no frame.  With a frame
    open, the call made by [dispatch] records the second ref in it. *)
Lemma lazy_subscription_witness :
  let s := state_after 3 (NewRef (VNum 0) (λ _, NewRef (VNum 7) (λ _, Return VUndefined))) in
  let f := λ _ : value, CallGetter 1 (λ _, Return VUndefined) in
  ∃ s' s2 s3,
    effect 1 1 f (Some [0]) s = Normal (Disposer 0) s' ∧ trace s' = [] ∧
    setter 5 0 (λ _, Return (VNum 1)) s' = Normal tt s2 ∧ trace s2 = [1] ∧
    setter 5 0 (λ _, Return (VNum 2)) s2 = Normal tt s3 ∧ trace s3 = [1; 1] ∧
    callbacks (ref_at s3 1) = None ∧ deps (instance_at s3 0) = [(0, CbFn 1 f)] ∧
    tracklist s3 = [] ∧
    ∃ s4, setter 5 0 (λ _, Return (VNum 3)) (startTracking s3) = Normal tt s4 ∧
          tracklist s4 = [[1]] ∧ trace s4 = [1; 1; 1] ∧ instances s4 = instances s3.
Proof.
  intros s f.
  destruct (lazy_subscription 0 1 f 0 [] s)
    as (s' & He & Htr & Htl & _ & _ & Hdeps & Hcb & Hcall & Hset).
  { repeat constructor. }
  assert (s' = state_of (effect 1 1 f (Some [0]) s)) as Hs' by (by rewrite He).
  assert (∀ rs, 1 < length rs → ∀ v, lazy_reader 3 v rs (CbFn 1 f)) as Hf.
  { intros rs Hrs v. split_and!.
    - constructor. intros; constructor.
    - by split.
    - simpl. lia. }
  destruct (Hset s' 0 (VNum 1) 3 [CbFn 1 f])
    as (s2 & Hs2 & Htr2 & Hrefs2 & Hinst2 & Hcb2 & Htl2).
  { apply Hcb; [by left | reflexivity]. }
  { constructor; [|constructor]. apply Hf. unfold with_ref; cbn [refs].
    rewrite Hs'. vm_compute. lia. }
  destruct (Hset s2 0 (VNum 2) 3 [CbFn 1 f])
    as (s3 & Hs3 & Htr3 & Hrefs3 & Hinst3 & Hcb3 & Htl3).
  { exact Hcb2. }
  { constructor; [|constructor]. apply Hf. unfold with_ref; cbn [refs].
    rewrite Hrefs2, Hs'. vm_compute. lia. }
  assert (tracklist s3 = []) as Htl3'.
  { rewrite Htl3, Htl2, Htl. reflexivity. }
  assert (length (refs s3) = 2) as Hlen3.
  { rewrite Hrefs3. unfold with_ref; cbn [refs]. rewrite length_alter, Hrefs2.
    unfold with_ref; cbn [refs]. rewrite length_alter, Hs'. reflexivity. }
  exists s', s2, s3. split_and!; try done.
  - rewrite Htr2, Htr. done.
  - rewrite Htr3, Htr2, Htr. done.
  - unfold ref_at. rewrite Hrefs3. simpl. rewrite Hrefs2, Hs'. reflexivity.
  - unfold instance_at. rewrite Hinst3, Hinst2. exact Hdeps.
  - set (t := startTracking s3). set (t1 := with_ref 0 (set_data (VNum 3)) t).
    assert (length (refs t1) = 2) as Hlen1.
    { unfold t1, with_ref; cbn [refs]. by rewrite length_alter. }
    eexists. split_and!.
    + apply (Hcall t 0 (λ _, Return (VNum 3)) 3 (VNum 3) t [] [] t1).
      * reflexivity.
      * exact Hcb3.
      * reflexivity.
      * constructor. intros; constructor.
      * split; [lia | done].
      * simpl. lia.
    + cbn [forEach tracklist getters]. unfold t1, t; cbn [with_ref startTracking
        with_tracklist tracklist]. rewrite Htl3'. reflexivity.
    + cbn [forEach trace]. unfold t1, t; cbn [with_ref startTracking with_tracklist trace].
      rewrite Htr3, Htr2, Htr. reflexivity.
    + reflexivity.
Defined.

(** The claim C9 as it is stated fails for a ref that is read inside the
    lazy function only: when a tracking subscriber sets the listed ref, the
    lazy function is called while the frame of that subscriber is open, its
    read is tracked there, and the subscriber ends up watching the ref. *)
Lemma lazy_reads_are_tracked :
  ¬ (∀ n k r s', avoids 1 k → run n (lazy_program k) initial = Normal r s' →
                 default [] (callbacks (ref_at s' 1)) = []).
Proof.
  intros H.
  set (k := NewEffect 2 (λ _, CallSetter 0 (λ _, Return (VNum 1)) (Return VUndefined)) None
              (λ _, Return VUndefined)).
  specialize (H 12 k VUndefined (state_after 12 lazy_inside_tracking)).
  assert (avoids 1 k) as Hk.
  { constructor.
    - intros _. constructor; [done | intros; constructor | constructor].
    - apply not_elem_of_nil.
    - intros; constructor. }
  specialize (H Hk). vm_compute in H. specialize (H eq_refl). discriminate H.
Qed.

(** The construction of a tracking subscriber whose function only reads
    calls the function once and makes the subscriber a watcher of exactly
    the refs whose getters the function called, beside the watchers there
    were; [deps] holds one entry per such ref, in the order of their first
    call, and the tracklist is as before. *)
Theorem tracking_effect_discovers n name f rs s :
  rs = None ∨ rs = Some [] →
  reads_only (f VUndefined) → getters_known (f VUndefined) (refs s) →
  steps (f VUndefined) (refs s) ≤ n →
  let i := length (instances s) in
  let read := getters (f VUndefined) (refs s) in
  ∃ s', effect (S (S n)) name f rs s = Normal (Disposer i) s' ∧
        trace s' = trace s ++ [name] ∧ tracklist s' = tracklist s ∧
        (∀ g, data (ref_at s' g) = data (ref_at s g)) ∧
        (∀ g cb, watches s' g cb =
                 watches s g cb || (same_fn cb (CbEffect i) && bool_decide (g ∈ read))) ∧
        deps (instance_at s' i) = map (λ g, (g, CbEffect i)) (tracked_set [] read).
Proof.
  intros Hrs Hf Hknown Hn i read.
  set (s0 := State (tracklist s) (refs s) (instances s ++ [Instance name f None []]) (trace s)).
  destruct (clear_new_instance s name f None) as (Hclear & Hi). fold s0 i in Hclear, Hi.
  assert (effect (S (S n)) name f rs s =
          let* _, s <- effect_run (S n) i s0 in Normal (Disposer i) s) as ->.
  { by destruct Hrs as [-> | ->]. }
  change (effect_run (S n) i s0) with
    (let s := startTracking (clear i s0) in
     let x := instance_at s i in
     let* _, s <- run n (inst_fn x VUndefined) (record (inst_name x) s) in
     let '(tracked, s) := stopTracking s in
     Normal tt (foldl (watch i (CbEffect i)) s tracked)).
  cbv zeta. rewrite Hclear.
  change (instance_at (startTracking s0) i) with (instance_at s0 i). rewrite Hi.
  cbn [inst_fn inst_name].
  rewrite (run_getters_tracked (f VUndefined) Hf n (record name (startTracking s0)))
    by done.
  cbn [bind]. unfold stopTracking. cbn [tracklist record startTracking with_tracklist head tail].
  simpl.
  set (s1 := State (tracklist s) (refs s) (instances s ++ [Instance name f None []])
               (trace s ++ [name])).
  fold read.
  destruct (foldl_watch i (CbEffect i) (tracked_set [] read) s1)
    as (F1 & F2 & F3 & F4 & F5 & F6 & F7).
  { apply Forall_forall. intros g [Hg|Hg]%elem_of_tracked_set; [by apply not_elem_of_nil in Hg|].
    clear -Hf Hknown Hg. unfold read in Hg. simpl.
    revert Hknown Hg. generalize (refs s). intros l.
    induction Hf as [v|g' k Hk IH]; simpl; [by intros _ ?%not_elem_of_nil|].
    intros [Hg' Hknown] [->|Hin]%elem_of_cons; [done|]. by eapply IH. }
  { unfold s1, i; simpl. rewrite length_app; simpl. lia. }
  eexists. split; [reflexivity|].
  change (with_tracklist tail _) with s1. split_and!; try done.
  - intros g cb. rewrite F6. f_equal. f_equal. apply bool_decide_ext.
    rewrite elem_of_tracked_set, elem_of_nil. tauto.
  - rewrite F7. unfold instance_at, s1, i; simpl.
    by rewrite lookup_app_r, Nat.sub_diag.
Qed.

(** A subscriber whose function calls the getter of ref 1, then that of
    ref 0, then that of ref 1 again. *)
Lemma tracking_effect_discovers_witness :
  let s := state_after 3 (NewRef (VNum 0) (λ _, NewRef (VNum 7) (λ _, Return VUndefined))) in
  let f := λ _ : value, CallGetter 1 (λ _, CallGetter 0 (λ _, CallGetter 1 (λ v, Return v))) in
  ∃ s', effect 6 5 f None s = Normal (Disposer 0) s' ∧
        trace s' = trace s ++ [5] ∧ tracklist s' = tracklist s ∧
        (∀ g, data (ref_at s' g) = data (ref_at s g)) ∧
        (∀ g cb, watches s' g cb =
                 watches s g cb || (same_fn cb (CbEffect 0) && bool_decide (g ∈ [1; 0; 1]))) ∧
        deps (instance_at s' 0) = [(1, CbEffect 0); (0, CbEffect 0)].
Proof.
  intros s f. apply (tracking_effect_discovers 4 5 f None s).
  - by left.
  - repeat (constructor; intros).
  - vm_compute. repeat split; lia.
  - vm_compute. lia.
Defined.

Lemma existsb_registered g cb fn (l : list getter_id) :
  existsb (λ u : unwatch, bool_decide (g = u.1) && same_fn u.2 cb) (map (λ g0, (g0, fn)) l) =
  same_fn cb fn && bool_decide (g ∈ l).
Proof.
  induction l as [|g0 l IH]; simpl; [by rewrite andb_false_r|].
  rewrite IH, (same_fn_sym fn cb). destruct (same_fn cb fn); simpl.
  - rewrite andb_true_r. destruct (decide (g = g0)) as [->|Hne].
    + rewrite bool_decide_eq_true_2 by done. simpl. symmetry.
      apply bool_decide_eq_true_2. by left.
    + rewrite (bool_decide_eq_false_2 (g = g0)) by done. simpl.
      apply bool_decide_ext. rewrite elem_of_cons. tauto.
  - by rewrite andb_false_r.
Qed.

(** A lazy subscription followed by the [clear] that [effect] returned: the
    function watches none of the listed refs any more, also where it had
    been registered before by another subscriber, as a watcher set holds a
    function once; every other watcher is as it was before the
    construction, and no function was called. *)
Theorem lazy_effect_cleared n name f r rs s :
  Forall (λ g, g < length (refs s)) (r :: rs) →
  let i := length (instances s) in
  ∃ s', effect (S n) name f (Some (r :: rs)) s = Normal (Disposer i) s' ∧
        (∀ g cb, watches (clear i s') g cb =
                 watches s g cb &&
                 negb (same_fn cb (CbFn name f) && bool_decide (g ∈ r :: rs))) ∧
        deps (instance_at (clear i s') i) = [] ∧
        (∀ g, data (ref_at (clear i s') g) = data (ref_at s g)) ∧
        trace (clear i s') = trace s.
Proof.
  intros Hl i.
  set (s0 := State (tracklist s) (refs s) (instances s ++ [Instance name f None []]) (trace s)).
  destruct (foldl_watch i (CbFn name f) (r :: rs) s0) as (F1 & F2 & F3 & F4 & F5 & F6 & F7).
  { done. }
  { unfold s0, i; simpl. rewrite length_app; simpl. lia. }
  set (s' := foldl (watch i (CbFn name f)) s0 (r :: rs)) in *.
  destruct (clear_unwatches i s') as (C1 & C2 & C3 & C4 & C5 & C6).
  assert (deps (instance_at s' i) = map (λ g, (g, CbFn name f)) (r :: rs)) as Hdeps.
  { rewrite F7. unfold instance_at, s0, i; simpl. by rewrite lookup_app_r, Nat.sub_diag. }
  exists s'. split_and!.
  - reflexivity.
  - intros g cb. rewrite C1, Hdeps, existsb_registered, F6.
    change (watches s0 g cb) with (watches s g cb).
    destruct (watches s g cb), (same_fn cb (CbFn name f)), (bool_decide (g ∈ r :: rs)); done.
  - apply C6. rewrite F4. unfold s0, i; simpl. rewrite length_app; simpl. lia.
  - intros g. by rewrite C2, F5.
  - by rewrite C3, F2.
Qed.

(** Two lazy subscribers of ref 0 with the same function 1; the second is
    cleared, and a following setter call of ref 0 calls no function. *)
Lemma lazy_effect_cleared_witness :
  let f := λ _ : value, Return VUndefined in
  let s := state_after 5 (NewRef (VNum 0) (λ r, NewEffect 1 f (Some [r]) (λ _,
                            Return VUndefined))) in
  watches s 0 (CbFn 1 f) = true ∧
  ∃ s', effect 1 1 f (Some [0]) s = Normal (Disposer 1) s' ∧
        watches (clear 1 s') 0 (CbFn 1 f) = false ∧
        trace (state_after_from (clear 1 s') 6
                 (CallSetter 0 (λ _, Return (VNum 1)) (Return VUndefined))) = [] ∧
        deps (instance_at (clear 1 s') 0) = [(0, CbFn 1 f)].
Proof.
  intros f s. split; [vm_compute; reflexivity|].
  destruct (lazy_effect_cleared 0 1 f 0 [] s) as (s' & He & Hw & _).
  { repeat constructor. }
  assert (s' = state_of (effect 1 1 f (Some [0]) s)) as Hs' by (by rewrite He).
  exists s'. split_and!.
  - exact He.
  - rewrite Hw. vm_compute. reflexivity.
  - rewrite Hs'. vm_compute. reflexivity.
  - rewrite Hs'. vm_compute. reflexivity.
Defined.

(** When the function of a tracking subscriber raises during the
    construction, [effect] raises the same exception and the frame that was
    pushed for the run stays on the tracklist, holding the getters called so
    far; the subscriber watches nothing. *)
Theorem raising_effect_leaves_frame n name f rs e s :
  rs = None ∨ rs = Some [] →
  reads_then_throws e (f VUndefined) → getters_known (f VUndefined) (refs s) →
  steps (f VUndefined) (refs s) ≤ n →
  ∃ s', effect (S (S n)) name f rs s = Thrown e s' ∧
        tracklist s' = tracked_set [] (getters (f VUndefined) (refs s)) :: tracklist s ∧
        refs s' = refs s ∧ trace s' = trace s ++ [name] ∧
        instances s' = instances s ++ [Instance name f None []].
Proof.
  intros Hrs Hf Hknown Hn.
  set (i := length (instances s)).
  set (s0 := State (tracklist s) (refs s) (instances s ++ [Instance name f None []]) (trace s)).
  destruct (clear_new_instance s name f None) as (Hclear & Hi). fold s0 i in Hclear, Hi.
  assert (effect (S (S n)) name f rs s =
          let* _, s <- effect_run (S n) i s0 in Normal (Disposer i) s) as ->.
  { by destruct Hrs as [-> | ->]. }
  change (effect_run (S n) i s0) with
    (let s := startTracking (clear i s0) in
     let x := instance_at s i in
     let* _, s <- run n (inst_fn x VUndefined) (record (inst_name x) s) in
     let '(tracked, s) := stopTracking s in
     Normal tt (foldl (watch i (CbEffect i)) s tracked)).
  cbv zeta. rewrite Hclear.
  change (instance_at (startTracking s0) i) with (instance_at s0 i). rewrite Hi.
  cbn [inst_fn inst_name].
  rewrite (run_getters_throws e (f VUndefined) Hf n (record name (startTracking s0)))
    by done.
  cbn [bind]. eexists. split; [reflexivity|]. done.
Qed.

(** A subscriber that calls the getter of ref 0 and raises; afterwards a
    getter call outside of every subscriber is collected by the frame that
    was left. *)
Lemma raising_effect_leaves_frame_witness :
  let s := state_after 3 (NewRef (VNum 0) (λ _, NewRef (VNum 7) (λ _, Return VUndefined))) in
  let f := λ _ : value, CallGetter 0 (λ _, Throw (VStr "boom")) in
  tracklist s = [] ∧
  ∃ s', effect 4 5 f None s = Thrown (VStr "boom") s' ∧
        tracklist s' = [[0]] ∧ refs s' = refs s ∧ trace s' = trace s ++ [5] ∧
        instances s' = instances s ++ [Instance 5 f None []] ∧
        tracklist (getter 1 s').2 = [[0; 1]].
Proof.
  intros s f. split; [vm_compute; reflexivity|].
  destruct (raising_effect_leaves_frame 2 5 f None (VStr "boom") s)
    as (s' & He & H1 & H2 & H3 & H4).
  - by left.
  - constructor. intros; constructor.
  - vm_compute. lia.
  - vm_compute. lia.
  - exists s'. split_and!; try done.
    unfold getter, track. simpl. rewrite H1. reflexivity.
Defined.

(** ** Derived refs between two updates *)

(** What a function that only reads does depends on the data of the refs
    only. *)
Lemma reads_only_data_ext p :
  reads_only p → ∀ rs rs',
  length rs = length rs' →
  (∀ g, data (default empty_ref (rs !! g)) = data (default empty_ref (rs' !! g))) →
  value_of p rs = value_of p rs' ∧ getters p rs = getters p rs' ∧
  steps p rs = steps p rs' ∧ (getters_known p rs ↔ getters_known p rs').
Proof.
  induction 1 as [v|g k Hk IH]; intros rs rs' Hlen Hdata; [done|].
  cbn [value_of getters steps getters_known]. rewrite <-(Hdata g), Hlen.
  destruct (IH (data (default empty_ref (rs !! g))) rs rs' Hlen Hdata) as (-> & -> & -> & ->).
  done.
Qed.

Lemma clear_refs i s :
  length (refs (clear i s)) = length (refs s) ∧
  ∀ g, g ∉ (deps (instance_at s i)).*1 → ref_at (clear i s) g = ref_at s g.
Proof.
  unfold clear. generalize (deps (instance_at s i)). intros d.
  change (refs (with_instance i (set_deps []) ?t)) with (refs t).
  assert (∀ t g, ref_at (with_instance i (set_deps []) t) g = ref_at t g) as E by done.
  setoid_rewrite E. clear E.
  revert s. induction d as [|u d IH]; intros s; simpl; [done|].
  destruct (IH (with_ref u.1 (λ r, RefCell (data r) (cb_delete u.2 <$> callbacks r)) s))
    as (-> & H).
  split; [simpl; by rewrite length_alter|].
  intros g Hg. rewrite not_elem_of_cons in Hg. destruct Hg as [Hne Hg].
  rewrite H by done. rewrite ref_at_with_ref. rewrite decide_False; [done|].
  intros [? _]; congruence.
Qed.

Lemma reads_below_known p :
  reads_only p → ∀ rs b, reads_below p rs b → b ≤ length rs → getters_known p rs.
Proof.
  unfold reads_below. induction 1 as [v|g k Hk IH]; intros rs b Hb Hlen; [done|].
  cbn [getters getters_known] in *. apply Forall_cons in Hb as [Hg Hb].
  split; [lia | by eapply IH].
Qed.

Lemma callbacks_foldl_watch i cb l s g :
  g ∉ l → callbacks (ref_at (foldl (watch i cb) s l) g) = callbacks (ref_at s g).
Proof.
  revert s. induction l as [|g0 l IH]; intros s Hg; [done|].
  rewrite not_elem_of_cons in Hg. destruct Hg as [Hne Hg]. simpl. rewrite IH by done.
  unfold watch. change (ref_at (with_instance _ _ ?t) g) with (ref_at t g).
  rewrite ref_at_with_ref. rewrite decide_False; [done|]. intros [? _]; congruence.
Qed.

Lemma instance_foldl_watch i cb l s j :
  inst_fn (instance_at (foldl (watch i cb) s l) j) = inst_fn (instance_at s j) ∧
  inst_name (instance_at (foldl (watch i cb) s l) j) = inst_name (instance_at s j) ∧
  inst_getter (instance_at (foldl (watch i cb) s l) j) = inst_getter (instance_at s j).
Proof.
  revert s. induction l as [|g0 l IH]; intros s; [done|]. simpl.
  destruct (IH (watch i cb s g0)) as (-> & -> & ->).
  unfold watch. rewrite instance_at_with_instance.
  change (instance_at (with_ref _ _ s) j) with (instance_at s j). by case_decide.
Qed.

Lemma clear_sole i s g cb :
  callbacks (ref_at s g) = Some [cb] ∨ default [] (callbacks (ref_at s g)) = [] →
  callbacks (ref_at (clear i s) g) = Some [cb] ∨
  default [] (callbacks (ref_at (clear i s) g)) = [].
Proof.
  unfold clear. generalize (deps (instance_at s i)). intros d.
  change (ref_at (with_instance i (set_deps []) ?t) g) with (ref_at t g).
  revert s. induction d as [|u d IH]; intros s H; simpl; [done|].
  apply IH. rewrite ref_at_with_ref. case_decide; [|done]. simpl.
  destruct H as [->|H]; simpl.
  - unfold cb_delete. rewrite filter_cons, filter_nil. case_decide; [by left|by right].
  - right. destruct (callbacks (ref_at s g)) as [l|]; [|done]. simpl in *. by subst l.
Qed.

(** An update of a derived ref: the ref gets the value of the function on
    the refs as they are. *)
Lemma update_refreshes n i gi name f s :
  derived_ref s i gi name f → reads_only (f VUndefined) →
  reads_below (f VUndefined) (refs s) gi → steps (f VUndefined) (refs s) ≤ n →
  ∃ s', update (S (S n)) i s = Normal tt s' ∧
        data (ref_at s' gi) = value_of (f VUndefined) (refs s) ∧
        (∀ g, g ≠ gi → data (ref_at s' g) = data (ref_at s g)) ∧
        trace s' = trace s ++ [name] ∧ tracklist s' = tracklist s ∧
        length (refs s') = length (refs s) ∧
        derived_ref s' i gi name f ∧
        (∀ g cb, watches s' g cb =
                 watches (clear i s) g cb ||
                 (same_fn cb (CbUpdate i) &&
                  bool_decide (g ∈ getters (f VUndefined) (refs s)))) ∧
        ∀ g, g ∈ getters (f VUndefined) (refs s) →
             callbacks (ref_at s g) = Some [CbUpdate i] ∨
             default [] (callbacks (ref_at s g)) = [] →
             callbacks (ref_at s' g) = Some [CbUpdate i].
Proof.
  intros (Hi & Hgi & Hfn & Hname & Hget & Hcb & Hdeps) Hf Hbelow0 Hsteps0.
  destruct (clear_unwatches i s) as (C1 & C2 & C3 & C4 & C5 & C6).
  destruct (clear_refs i s) as (C7 & C8).
  set (t := clear i s) in *.
  assert (instance_at t i = set_deps [] (instance_at s i)) as Hti.
  { unfold t, clear. generalize (deps (instance_at s i)) at 1. intros d.
    assert (instances (foldl (λ s u, with_ref u.1
              (λ r, RefCell (data r) (cb_delete u.2 <$> callbacks r)) s) s d) = instances s) as E.
    { generalize s. clear. induction d as [|u d IH]; intros s; simpl; [done|]. by rewrite IH. }
    rewrite instance_at_with_instance. unfold instance_at at 1 2. rewrite E.
    fold (instance_at s i). by rewrite decide_True. }
  destruct (reads_only_data_ext _ Hf (refs s) (refs t)) as (E1 & E2 & E3 & E4).
  { by rewrite C7. } { intros g. symmetry. apply C2. }
  assert (reads_below (f VUndefined) (refs t) gi) as Hbelow.
  { unfold reads_below. by rewrite <-E2. }
  assert (steps (f VUndefined) (refs t) ≤ n) as Hsteps by (by rewrite <-E3).
  assert (getters_known (f VUndefined) (refs t)) as Hknown.
  { eapply reads_below_known; [done..|]. rewrite C7. lia. }
  set (v := value_of (f VUndefined) (refs s)).
  set (read := getters (f VUndefined) (refs s)).
  assert (gi ∉ read) as Hgr.
  { unfold read. rewrite E2. intros Hin. unfold reads_below in Hbelow.
    rewrite Forall_forall in Hbelow. specialize (Hbelow gi Hin). lia. }
  set (t1 := record name (startTracking t)).
  set (t2 := State (tracked_set [] read :: tracklist t) (refs t) (instances t) (trace t1)).
  assert (run n (f VUndefined) t1 = Normal v t2) as Hrun.
  { rewrite (run_getters_tracked _ Hf n t1) by done.
    change (refs t1) with (refs t). rewrite <-E1, <-E2. done. }
  set (t3 := with_ref gi (set_data v) t2).
  assert (callbacks (ref_at t3 gi) = callbacks (ref_at s gi)) as Hcb3.
  { unfold t3. rewrite ref_at_with_ref. change (ref_at t2 gi) with (ref_at t gi).
    rewrite C8 by done. by case_decide. }
  assert (setter (S n) gi (λ _, f VUndefined) t1 = Normal tt t3) as Hset.
  { change (setter (S n) gi (λ _, f VUndefined) t1) with
      (let* v, s <- run n (f VUndefined) t1 in
       let s := with_ref gi (set_data v) s in dispatch n gi v s).
    rewrite Hrun. cbn [bind]. cbv zeta. fold t3.
    destruct n as [|n]; [destruct Hf; simpl in Hsteps; lia|].
    change (dispatch (S n) gi v t3) with
      (match callbacks (ref_at t3 gi) with
       | None => Normal tt t3
       | Some l =>
           forEach (λ fn s,
                      match fn with
                      | CbEffect i => effect_run n i s
                      | CbUpdate i => update n i s
                      | CbFn name body =>
                          let* _, s <- run n (body v) (record name s) in Normal tt s
                      end) l t3
       end).
    rewrite Hcb3. destruct (callbacks (ref_at s gi)) as [l|]; [|done].
    simpl in Hcb. by subst l. }
  set (t4 := with_tracklist tail t3).
  destruct (foldl_watch i (CbUpdate i) (tracked_set [] read) t4)
    as (F1 & F2 & F3 & F4 & F5 & F6 & F7).
  { apply Forall_forall. intros g [Hg|Hg]%elem_of_tracked_set; [by apply not_elem_of_nil in Hg|].
    unfold read in Hg. rewrite E2 in Hg. unfold reads_below in Hbelow.
    rewrite Forall_forall in Hbelow. specialize (Hbelow g Hg).
    change (refs t4) with (alter (set_data v) gi (refs t)). rewrite length_alter, C7. lia. }
  { change (instances t4) with (instances t). by rewrite C5. }
  exists (foldl (watch i (CbUpdate i)) t4 (tracked_set [] read)). split_and!.
  - change (update (S (S n)) i s) with
      (let s := startTracking (clear i s) in
       let x := instance_at s i in
       match inst_getter x with
       | None => Unsupported
       | Some g =>
           let* _, s <- setter (S n) g (λ _, inst_fn x VUndefined) (record (inst_name x) s) in
           let '(tracked, s) := stopTracking s in
           Normal tt (foldl (watch i (CbUpdate i)) s tracked)
       end).
    cbv zeta. fold t.
    change (instance_at (startTracking t) i) with (instance_at t i). rewrite Hti.
    cbn [set_deps inst_getter inst_fn inst_name]. rewrite Hget, Hfn, Hname.
    fold t1. rewrite Hset. cbn [bind]. reflexivity.
  - rewrite F5. unfold t4. change (ref_at (with_tracklist tail t3) gi) with (ref_at t3 gi).
    unfold t3. rewrite ref_at_with_ref. rewrite decide_True; [done|].
    split; [done|]. change (refs t2) with (refs t). by rewrite C7.
  - intros g Hne. rewrite F5. unfold t4.
    change (ref_at (with_tracklist tail t3) g) with (ref_at t3 g).
    unfold t3. rewrite ref_at_with_ref. rewrite decide_False by (intros [? _]; congruence).
    change (ref_at t2 g) with (ref_at t g). apply C2.
  - rewrite F2. change (trace t4) with (trace t ++ [name]). by rewrite C3.
  - rewrite F1. change (tracklist t4) with (tracklist t). exact C4.
  - rewrite F3. change (refs t4) with (alter (set_data v) gi (refs t)).
    by rewrite length_alter, C7.
  - destruct (instance_foldl_watch i (CbUpdate i) (tracked_set [] read) t4 i) as (I1 & I2 & I3).
    assert (instance_at t4 i = set_deps [] (instance_at s i)) as Ht4 by exact Hti.
    split_and!.
    + rewrite F4. change (instances t4) with (instances t). by rewrite C5.
    + rewrite F3. change (refs t4) with (alter (set_data v) gi (refs t)).
      by rewrite length_alter, C7.
    + by rewrite I1, Ht4.
    + by rewrite I2, Ht4.
    + by rewrite I3, Ht4.
    + rewrite callbacks_foldl_watch.
      * change (ref_at t4 gi) with (ref_at t3 gi). by rewrite Hcb3.
      * intros [?|?]%elem_of_tracked_set; [by eapply not_elem_of_nil|done].
    + rewrite F7, Ht4. simpl. rewrite <-list_fmap_compose.
      intros (g & -> & [?|?]%elem_of_tracked_set)%list_elem_of_fmap;
        [by eapply not_elem_of_nil|done].
  - intros g cb. rewrite F6.
    assert (watches t4 g cb = watches t g cb) as ->.
    { unfold watches. change (ref_at t4 g) with (ref_at t3 g). unfold t3.
      rewrite ref_at_with_ref. change (ref_at t2 g) with (ref_at t g). by case_decide. }
    f_equal. f_equal. apply bool_decide_ext.
    rewrite elem_of_tracked_set, elem_of_nil. tauto.
  - intros g Hg Hsole. apply foldl_watch_callbacks.
    { apply Forall_forall. intros g' [Hg'|Hg']%elem_of_tracked_set;
        [by apply not_elem_of_nil in Hg'|].
      unfold read in Hg'. rewrite E2 in Hg'. unfold reads_below in Hbelow.
      rewrite Forall_forall in Hbelow. specialize (Hbelow g' Hg').
      change (refs t4) with (alter (set_data v) gi (refs t)). rewrite length_alter, C7. lia. }
    assert (callbacks (ref_at t4 g) = callbacks (ref_at t g)) as ->.
    { change (ref_at t4 g) with (ref_at t3 g). unfold t3.
      rewrite ref_at_with_ref. change (ref_at t2 g) with (ref_at t g). by case_decide. }
    destruct (clear_sole i s g (CbUpdate i) Hsole) as [H|H]; [by left|right].
    split; [done|]. apply elem_of_tracked_set. by right.
Qed.

(** What a function that only reads does depends on the data of the refs
    it may read. *)
Lemma reads_below_data_ext p :
  reads_only p → ∀ rs rs' b, reads_below p rs b →
  (∀ g, g < b → data (default empty_ref (rs !! g)) = data (default empty_ref (rs' !! g))) →
  value_of p rs = value_of p rs' ∧ getters p rs = getters p rs' ∧ steps p rs = steps p rs'.
Proof.
  unfold reads_below. induction 1 as [v|g k Hk IH]; intros rs rs' b Hb Hdata; [done|].
  cbn [value_of getters steps] in *. apply Forall_cons in Hb as [Hg Hb].
  rewrite <-(Hdata g Hg). destruct (IH _ rs rs' b Hb Hdata) as (-> & -> & ->). done.
Qed.

Lemma derived_ref_set_data s i gi name f g w :
  g ≠ gi → derived_ref s i gi name f → derived_ref (with_ref g (set_data w) s) i gi name f.
Proof.
  intros Hne (Hi & Hgi & Hfn & Hname & Hget & Hcb & Hdeps).
  assert (ref_at (with_ref g (set_data w) s) gi = ref_at s gi) as E.
  { rewrite ref_at_with_ref. rewrite decide_False; [done|]. by intros [? _]. }
  unfold derived_ref. rewrite E.
  change (instance_at (with_ref g (set_data w) s) i) with (instance_at s i).
  split_and!; try done. simpl. by rewrite length_alter.
Qed.

(** When a ref that a derived ref reads, and that nothing else watches, is
    set to a new value, the setter returns with the derived ref holding the
    value of its function on the new data: the function ran a second
    time.  The function only calls getters of refs that exist. *)
Theorem derived_ref_follows n name f s g w :
  let gi := length (refs s) in
  let i := length (instances s) in
  let rs' := alter (set_data w) g (refs s) in
  reads_only (f VUndefined) →
  reads_below (f VUndefined) (refs s) gi → steps (f VUndefined) (refs s) ≤ n →
  reads_below (f VUndefined) rs' gi → steps (f VUndefined) rs' ≤ n →
  g ∈ getters (f VUndefined) (refs s) →
  default [] (callbacks (ref_at s g)) = [] →
  ∃ s1 s2,
    computed (S (S (S n))) name f s = Normal (Pair (Accessor gi) (Disposer i)) s1 ∧
    data (ref_at s1 gi) = value_of (f VUndefined) (refs s) ∧
    setter (S (S (S (S n)))) g (λ _, Return w) s1 = Normal tt s2 ∧
    data (ref_at s2 g) = w ∧
    data (ref_at s2 gi) = value_of (f VUndefined) rs' ∧
    trace s2 = trace s ++ [name; name].
Proof.
  intros gi i rs' Hf Hb Hn Hb' Hn' Hg Hcb.
  assert (g < gi) as Hlt.
  { unfold reads_below in Hb. rewrite Forall_forall in Hb. by apply Hb. }
  set (sa := State (tracklist s) (refs s ++ [RefCell VUndefined None])
               (instances s ++ [Instance name f (Some gi) []]) (trace s)).
  assert (∀ g', g' < gi → ref_at sa g' = ref_at s g') as Hsa.
  { intros g' Hg'. unfold ref_at, sa; simpl. by rewrite lookup_app_l. }
  assert (derived_ref sa i gi name f) as Dsa.
  { assert (instance_at sa i = Instance name f (Some gi) []) as E.
    { unfold instance_at, sa, i; simpl. by rewrite lookup_app_r, Nat.sub_diag. }
    assert (ref_at sa gi = RefCell VUndefined None) as E'.
    { unfold ref_at, sa, gi; simpl. by rewrite lookup_app_r, Nat.sub_diag. }
    unfold derived_ref. rewrite E, E'. simpl. rewrite !length_app; simpl.
    split_and!; try done; try (unfold i, gi; lia). apply not_elem_of_nil. }
  destruct (reads_below_data_ext _ Hf (refs s) (refs sa) gi Hb) as (V1 & G1 & S1).
  { intros g' Hg'. change (data (ref_at s g') = data (ref_at sa g')). by rewrite Hsa. }
  destruct (update_refreshes n i gi name f sa Dsa Hf)
    as (s1 & Hup & D1 & O1 & T1 & _ & L1 & Ds1 & _ & W1).
  { unfold reads_below. by rewrite <-G1. } { by rewrite <-S1. }
  set (s1' := with_ref g (set_data w) s1).
  assert (g ≠ gi) as Hne by lia.
  assert (∀ g', g' < gi →
            data (default empty_ref (rs' !! g')) = data (default empty_ref (refs s1' !! g')))
    as Hdata.
  { intros g' Hg'. change (data (ref_at (with_ref g (set_data w) s) g') = data (ref_at s1' g')).
    unfold s1'. rewrite !ref_at_with_ref. destruct (decide (g = g')) as [<-|Hne'].
    - rewrite !decide_True; [done| |done]. split; [done|]. rewrite L1. simpl.
      rewrite length_app. unfold gi in Hlt. lia.
    - rewrite !decide_False by (by intros [? _]).
      rewrite O1 by lia. by rewrite Hsa. }
  destruct (reads_below_data_ext _ Hf rs' (refs s1') gi Hb' Hdata) as (V2 & G2 & S2).
  destruct (update_refreshes n i gi name f s1' (derived_ref_set_data _ _ _ _ _ _ w Hne Ds1) Hf)
    as (s2 & Hup2 & D2 & O2 & T2 & _ & _ & _ & _ & _).
  { unfold reads_below. by rewrite <-G2. } { by rewrite <-S2. }
  exists s1, s2. split_and!.
  - change (computed (S (S (S n))) name f s) with
      (let* _, s <- update (S (S n)) i sa in Normal (Pair (Accessor gi) (Disposer i)) s).
    by rewrite Hup.
  - by rewrite D1, <-V1.
  - change (setter (S (S (S (S n)))) g (λ _, Return w) s1) with
      (match callbacks (ref_at s1' g) with
       | None => Normal tt s1'
       | Some l =>
           forEach (λ fn s,
                      match fn with
                      | CbEffect i => effect_run (S (S n)) i s
                      | CbUpdate i => update (S (S n)) i s
                      | CbFn name body =>
                          let* _, s <- run (S (S n)) (body w) (record name s) in Normal tt s
                      end) l s1'
       end).
    assert (callbacks (ref_at s1' g) = Some [CbUpdate i]) as ->.
    { unfold s1'. rewrite ref_at_with_ref. rewrite decide_True.
      - simpl. apply W1; [by rewrite <-G1|]. right. by rewrite Hsa.
      - split; [done|]. rewrite L1. simpl. rewrite length_app. unfold gi in Hlt. lia. }
    cbn [forEach]. by rewrite Hup2.
  - rewrite O2 by done. unfold s1'. rewrite ref_at_with_ref. rewrite decide_True; [done|].
    split; [done|]. rewrite L1. simpl. rewrite length_app. unfold gi in Hlt. lia.
  - by rewrite D2, <-V2.
  - rewrite T2. change (trace s1') with (trace s1). rewrite T1. simpl.
    by rewrite <-app_assoc.
Qed.

(** A derived ref that doubles ref 0, which holds 3 and is then set to 5. *)
Lemma derived_ref_follows_witness :
  let s := state_after 3 (NewRef (VNum 3) (λ _, Return VUndefined)) in
  let f := λ _ : value,
             CallGetter 0 (λ v, Return match v with VNum z => VNum (2 * z) | _ => VUndefined end) in
  ∃ s1 s2,
    computed 5 7 f s = Normal (Pair (Accessor 1) (Disposer 0)) s1 ∧
    data (ref_at s1 1) = VNum 6 ∧
    setter 6 0 (λ _, Return (VNum 5)) s1 = Normal tt s2 ∧
    data (ref_at s2 0) = VNum 5 ∧
    data (ref_at s2 1) = VNum 10 ∧
    trace s2 = [7; 7].
Proof.
  intros s f. apply (derived_ref_follows 2 7 f s 0 (VNum 5)).
  - repeat (constructor; intros).
  - vm_compute. repeat constructor.
  - vm_compute. lia.
  - vm_compute. repeat constructor.
  - vm_compute. lia.
  - vm_compute. by left.
  - vm_compute. reflexivity.
Defined.

(** ** Tracking subscribers between two runs *)

Lemma getters_known_below p :
  reads_only p → ∀ rs, getters_known p rs → Forall (λ g, g < length rs) (getters p rs).
Proof.
  induction 1 as [v|g k Hk IH]; intros rs; simpl; [by constructor|].
  intros [Hg Hknown]. constructor; [done|]. by apply IH.
Qed.

Lemma instance_at_clear i s : instance_at (clear i s) i = set_deps [] (instance_at s i) ∨
                              i ≥ length (instances s).
Proof.
  destruct (decide (i < length (instances s))) as [Hi|Hi]; [left|right; lia].
  unfold clear. generalize (deps (instance_at s i)) at 1. intros d.
  assert (instances (foldl (λ s u, with_ref u.1
            (λ r, RefCell (data r) (cb_delete u.2 <$> callbacks r)) s) s d) = instances s) as E.
  { generalize s. clear. induction d as [|u d IH]; intros s; simpl; [done|]. by rewrite IH. }
  rewrite instance_at_with_instance. unfold instance_at at 1 2. rewrite E.
  fold (instance_at s i). by rewrite decide_True.
Qed.

(** A run of a tracking subscriber whose function only reads: the function
    is called once, and the subscriber watches what it read. *)
Lemma effect_run_refreshes n i name f s :
  i < length (instances s) →
  inst_fn (instance_at s i) = f → inst_name (instance_at s i) = name →
  reads_only (f VUndefined) →
  getters_known (f VUndefined) (refs s) → steps (f VUndefined) (refs s) ≤ n →
  ∃ s', effect_run (S n) i s = Normal tt s' ∧
        (∀ g, data (ref_at s' g) = data (ref_at s g)) ∧
        trace s' = trace s ++ [name] ∧ tracklist s' = tracklist s ∧
        length (refs s') = length (refs s) ∧
        length (instances s') = length (instances s) ∧
        inst_fn (instance_at s' i) = f ∧ inst_name (instance_at s' i) = name ∧
        deps (instance_at s' i) =
          map (λ g, (g, CbEffect i)) (tracked_set [] (getters (f VUndefined) (refs s))) ∧
        (∀ g cb, watches s' g cb =
                 watches (clear i s) g cb ||
                 (same_fn cb (CbEffect i) &&
                  bool_decide (g ∈ getters (f VUndefined) (refs s)))) ∧
        ∀ g, g ∈ getters (f VUndefined) (refs s) →
             callbacks (ref_at s g) = Some [CbEffect i] ∨
             default [] (callbacks (ref_at s g)) = [] →
             callbacks (ref_at s' g) = Some [CbEffect i].
Proof.
  intros Hi Hfn Hname Hf Hknown0 Hsteps0.
  destruct (clear_unwatches i s) as (C1 & C2 & C3 & C4 & C5 & C6).
  destruct (clear_refs i s) as (C7 & C8).
  destruct (instance_at_clear i s) as [Hti|?]; [|lia].
  set (t := clear i s) in *.
  destruct (reads_only_data_ext _ Hf (refs s) (refs t)) as (E1 & E2 & E3 & E4).
  { by rewrite C7. } { intros g. symmetry. apply C2. }
  assert (getters_known (f VUndefined) (refs t)) as Hknown by (by apply E4).
  assert (steps (f VUndefined) (refs t) ≤ n) as Hsteps by (by rewrite <-E3).
  set (read := getters (f VUndefined) (refs s)).
  assert (Forall (λ g, g < length (refs t)) read) as Hread.
  { unfold read. rewrite E2. by apply getters_known_below. }
  set (t1 := record name (startTracking t)).
  set (t2 := State (tracked_set [] read :: tracklist t) (refs t) (instances t) (trace t1)).
  assert (run n (f VUndefined) t1 = Normal (value_of (f VUndefined) (refs s)) t2) as Hrun.
  { rewrite (run_getters_tracked _ Hf n t1) by done.
    change (refs t1) with (refs t). rewrite <-E1, <-E2. done. }
  set (t4 := with_tracklist tail t2).
  assert (Forall (λ g, g < length (refs t4)) (tracked_set [] read)) as Htracked.
  { apply Forall_forall. intros g [Hg|Hg]%elem_of_tracked_set; [by apply not_elem_of_nil in Hg|].
    rewrite Forall_forall in Hread. by apply Hread. }
  destruct (foldl_watch i (CbEffect i) (tracked_set [] read) t4 Htracked)
    as (F1 & F2 & F3 & F4 & F5 & F6 & F7).
  { change (instances t4) with (instances t). by rewrite C5. }
  destruct (instance_foldl_watch i (CbEffect i) (tracked_set [] read) t4 i) as (I1 & I2 & I3).
  assert (instance_at t4 i = set_deps [] (instance_at s i)) as Ht4 by exact Hti.
  exists (foldl (watch i (CbEffect i)) t4 (tracked_set [] read)). split_and!.
  - change (effect_run (S n) i s) with
      (let s := startTracking (clear i s) in
       let x := instance_at s i in
       let* _, s <- run n (inst_fn x VUndefined) (record (inst_name x) s) in
       let '(tracked, s) := stopTracking s in
       Normal tt (foldl (watch i (CbEffect i)) s tracked)).
    cbv zeta. fold t.
    change (instance_at (startTracking t) i) with (instance_at t i). rewrite Hti.
    cbn [set_deps inst_fn inst_name]. rewrite Hfn, Hname.
    fold t1. rewrite Hrun. cbn [bind]. reflexivity.
  - intros g. rewrite F5. change (ref_at t4 g) with (ref_at t g). apply C2.
  - rewrite F2. change (trace t4) with (trace t ++ [name]). by rewrite C3.
  - rewrite F1. change (tracklist t4) with (tracklist t). exact C4.
  - rewrite F3. change (refs t4) with (refs t). exact C7.
  - rewrite F4. change (instances t4) with (instances t). exact C5.
  - by rewrite I1, Ht4.
  - by rewrite I2, Ht4.
  - by rewrite F7, Ht4.
  - intros g cb. rewrite F6. change (watches t4 g cb) with (watches t g cb).
    f_equal. f_equal. apply bool_decide_ext.
    rewrite elem_of_tracked_set, elem_of_nil. tauto.
  - intros g Hg Hsole. apply foldl_watch_callbacks; [done|].
    change (ref_at t4 g) with (ref_at t g).
    destruct (clear_sole i s g (CbEffect i) Hsole) as [H|H]; [by left|right].
    split; [done|]. apply elem_of_tracked_set. by right.
Qed.

(** When a ref that a tracking subscriber read, and that nothing else
    watches, is set to a new value, the setter returns after the function
    of the subscriber has run a second time, and the subscriber then
    watches exactly the refs whose getters the function called in that
    second run: what it read in the first run only is no longer watched.
    The function only calls getters of refs that exist; the closure of the
    subscriber is in no watcher set before the construction. *)
Theorem tracking_effect_follows n name f rs s g w :
  let i := length (instances s) in
  let after := alter (set_data w) g (refs s) in
  rs = None ∨ rs = Some [] →
  reads_only (f VUndefined) →
  getters_known (f VUndefined) (refs s) → steps (f VUndefined) (refs s) ≤ n →
  getters_known (f VUndefined) after → steps (f VUndefined) after ≤ n →
  g ∈ getters (f VUndefined) (refs s) →
  default [] (callbacks (ref_at s g)) = [] →
  (∀ g', watches s g' (CbEffect i) = false) →
  ∃ s1 s2,
    effect (S (S n)) name f rs s = Normal (Disposer i) s1 ∧
    setter (S (S (S n))) g (λ _, Return w) s1 = Normal tt s2 ∧
    data (ref_at s2 g) = w ∧
    (∀ g', g' ≠ g → data (ref_at s2 g') = data (ref_at s g')) ∧
    trace s2 = trace s ++ [name; name] ∧
    ∀ g', watches s2 g' (CbEffect i) = bool_decide (g' ∈ getters (f VUndefined) after).
Proof.
  intros i after Hrs Hf Hk Hn Hk' Hn' Hg Hcb Hfresh.
  assert (g < length (refs s)) as Hlt.
  { pose proof (getters_known_below _ Hf _ Hk) as H. rewrite Forall_forall in H. by apply H. }
  set (s0 := State (tracklist s) (refs s) (instances s ++ [Instance name f None []]) (trace s)).
  destruct (clear_new_instance s name f None) as (Hclear & Hi). fold s0 i in Hclear, Hi.
  destruct (effect_run_refreshes n i name f s0)
    as (s1 & Hrun1 & D1 & T1 & _ & L1 & N1 & Fn1 & Nm1 & Dp1 & W1 & S1).
  { unfold s0, i; simpl. rewrite length_app; simpl. lia. }
  { by rewrite Hi. } { by rewrite Hi. } { done. } { done. } { done. }
  rewrite Hclear in W1. change (refs s0) with (refs s) in *.
  set (s1' := with_ref g (set_data w) s1).
  assert (∀ g', ref_at s1' g' =
                if decide (g = g') then set_data w (ref_at s1 g') else ref_at s1 g') as Hs1'.
  { intros g'. unfold s1'. rewrite ref_at_with_ref.
    destruct (decide (g = g')) as [<-|Hne].
    - rewrite decide_True; [done|]. split; [done|]. by rewrite L1.
    - rewrite decide_False; [done|]. by intros [? _]. }
  destruct (reads_only_data_ext _ Hf after (refs s1')) as (E1 & E2 & E3 & E4).
  { unfold after, s1'; simpl. by rewrite !length_alter, L1. }
  { intros g'. change (data (ref_at (with_ref g (set_data w) s) g') = data (ref_at s1' g')).
    rewrite Hs1', ref_at_with_ref. destruct (decide (g = g')) as [<-|Hne].
    - by rewrite decide_True.
    - rewrite decide_False by (by intros [? _]). rewrite D1. done. }
  destruct (effect_run_refreshes n i name f s1')
    as (s2 & Hrun2 & D2 & T2 & _ & _ & _ & _ & _ & _ & W2 & _).
  { change (instances s1') with (instances s1). rewrite N1.
    unfold s0, i; simpl. rewrite length_app; simpl. lia. }
  { exact Fn1. } { exact Nm1. } { done. } { by apply E4. } { by rewrite <-E3. }
  exists s1, s2. split_and!.
  - assert (effect (S (S n)) name f rs s =
            let* _, s <- effect_run (S n) i s0 in Normal (Disposer i) s) as ->.
    { by destruct Hrs as [-> | ->]. }
    by rewrite Hrun1.
  - change (setter (S (S (S n))) g (λ _, Return w) s1) with
      (match callbacks (ref_at s1' g) with
       | None => Normal tt s1'
       | Some l =>
           forEach (λ fn s,
                      match fn with
                      | CbEffect i => effect_run (S n) i s
                      | CbUpdate i => update (S n) i s
                      | CbFn name body =>
                          let* _, s <- run (S n) (body w) (record name s) in Normal tt s
                      end) l s1'
       end).
    assert (callbacks (ref_at s1' g) = Some [CbEffect i]) as ->.
    { rewrite Hs1', decide_True by done. simpl. apply S1; [done|]. by right. }
    cbn [forEach]. by rewrite Hrun2.
  - rewrite D2, Hs1'. by rewrite decide_True.
  - intros g' Hne. rewrite D2, Hs1'. rewrite decide_False by done. by rewrite D1.
  - rewrite T2. change (trace s1') with (trace s1). rewrite T1. simpl.
    by rewrite <-app_assoc.
  - intros g'. rewrite W2, <-E2.
    destruct (clear_unwatches i s1') as (C1 & _).
    rewrite C1. change (instance_at s1' i) with (instance_at s1 i).
    rewrite Dp1, existsb_registered.
    assert (watches s1' g' (CbEffect i) = watches s1 g' (CbEffect i)) as ->.
    { unfold watches. rewrite Hs1'. by case_decide. }
    rewrite W1. change (watches s0 g' (CbEffect i)) with (watches s g' (CbEffect i)).
    rewrite Hfresh, same_fn_refl. simpl.
    assert (bool_decide (g' ∈ tracked_set [] (getters (f VUndefined) (refs s))) =
            bool_decide (g' ∈ getters (f VUndefined) (refs s))) as ->.
    { apply bool_decide_ext. rewrite elem_of_tracked_set, elem_of_nil. tauto. }
    by destruct (bool_decide (g' ∈ getters (f VUndefined) (refs s))).
Qed.

(** A subscriber that reads ref 0 and then ref 1 when that held 0, ref 2
    otherwise; ref 0 is set to 1. *)
Lemma tracking_effect_follows_witness :
  let s := state_after 4 (NewRef (VNum 0) (λ _, NewRef (VNum 10) (λ _,
             NewRef (VNum 20) (λ _, Return VUndefined)))) in
  let f := λ _ : value,
             CallGetter 0 (λ v, match v with
                                | VNum 0 => CallGetter 1 (λ x, Return x)
                                | _ => CallGetter 2 (λ x, Return x)
                                end) in
  ∃ s1 s2,
    effect 5 9 f None s = Normal (Disposer 0) s1 ∧
    setter 6 0 (λ _, Return (VNum 1)) s1 = Normal tt s2 ∧
    data (ref_at s2 0) = VNum 1 ∧
    (∀ g', g' ≠ 0 → data (ref_at s2 g') = data (ref_at s g')) ∧
    trace s2 = [9; 9] ∧
    ∀ g', watches s2 g' (CbEffect 0) = bool_decide (g' ∈ [0; 2]).
Proof.
  intros s f. apply (tracking_effect_follows 3 9 f None s 0 (VNum 1)).
  - by left.
  - constructor. intros v. destruct v as [| |b|z| |t]; try (repeat (constructor; intros)).
    destruct z; repeat (constructor; intros).
  - vm_compute. repeat split; lia.
  - vm_compute. lia.
  - vm_compute. repeat split; lia.
  - vm_compute. lia.
  - vm_compute. by left.
  - vm_compute. reflexivity.
  - intros g'. do 3 (destruct g' as [|g']; [vm_compute; reflexivity|]).
    vm_compute. reflexivity.
Defined.

End ReactiveProofs.

(** * What the constructors of the two engines return *)
Module Engines.

(** C4, as amended.  In [signal.js], [effect(fn)] returns [undefined] and
    [computed(fn)] returns the read accessor of its internal cell and
    nothing else.  In [reactive.js], [effect(fn, refs)] returns its [clear]
    and [computed(fn)] returns the getter of its internal ref together with
    its [clear].  Each of these constructions does return when [fn] only
    reads (and, for a lazy subscriber, whatever [fn] is). *)
Theorem constructor_returns :
  (∀ n f s r s', SignalJs.effect n f s = Normal r s' → r = Undefined) ∧
  (∀ n f s r s', SignalJs.computed n f s = Normal r s' →
                 r = Accessor (length (SignalJs.cells s))) ∧
  (∀ n name f rs s r s', ReactiveJs.effect n name f rs s = Normal r s' →
                         r = Disposer (length (ReactiveJs.instances s))) ∧
  (∀ n name f s r s', ReactiveJs.computed n name f s = Normal r s' →
                      r = Pair (Accessor (length (ReactiveJs.refs s)))
                               (Disposer (length (ReactiveJs.instances s)))) ∧
  (∀ n f s, SignalSpec.reads_only f →
            SignalSpec.reads_below f (SignalSpec.values s) (length (SignalJs.cells s)) →
            SignalSpec.steps f (SignalSpec.values s) + 5 ≤ n →
            (∃ s', SignalJs.effect n (λ _, f) s = Normal Undefined s') ∧
            (∃ s', SignalJs.computed n f s
                   = Normal (Accessor (length (SignalJs.cells s))) s')) ∧
  (∀ n name f s, ReactiveSpec.reads_only (f VUndefined) →
                 ReactiveSpec.getters_known (f VUndefined) (ReactiveJs.refs s) →
                 ReactiveSpec.steps (f VUndefined) (ReactiveJs.refs s) ≤ n →
                 (∃ s', ReactiveJs.effect (S (S n)) name f None s
                        = Normal (Disposer (length (ReactiveJs.instances s))) s') ∧
                 (∃ s', ReactiveJs.computed (S (S (S n))) name f s
                        = Normal (Pair (Accessor (length (ReactiveJs.refs s)))
                                       (Disposer (length (ReactiveJs.instances s)))) s')) ∧
  (∀ n name f r rs s,
     ∃ s', ReactiveJs.effect (S n) name f (Some (r :: rs)) s
           = Normal (Disposer (length (ReactiveJs.instances s))) s').
Proof.
  split_and!.
  - apply SignalProofs.effect_returns.
  - apply SignalProofs.computed_returns.
  - apply ReactiveProofs.effect_returns_clear.
  - apply ReactiveProofs.computed_returns_pair.
  - intros n f s Hf Hb Hn. split.
    + destruct (SignalProofs.effect_reads_only f n s Hf Hb) as (s' & He & _); [lia|eauto].
    + destruct (SignalProofs.computed_populated f n s Hf Hb Hn) as (s' & He & _). eauto.
  - intros n name f s Hf Hk Hn. split.
    + destruct (ReactiveProofs.tracking_effect_reads_only n name f None s) as (s' & He & _);
        eauto.
    + destruct (ReactiveProofs.derived_ref_reads_only n name f s) as (s' & He & _); eauto.
  - intros n name f r rs s. eexists. reflexivity.
Qed.

(** The four constructors on the freshly loaded modules, with functions
    that return at once. *)
Lemma constructor_returns_witness :
  (∃ s', SignalJs.effect 5 (λ _, SignalJs.Return VUndefined) SignalJs.initial
         = Normal Undefined s') ∧
  (∃ s', SignalJs.computed 5 (SignalJs.Return (VNum 1)) SignalJs.initial
         = Normal (Accessor 0) s') ∧
  (∃ s', ReactiveJs.effect 3 1 (λ _, ReactiveJs.Return VUndefined) None ReactiveJs.initial
         = Normal (Disposer 0) s') ∧
  (∃ s', ReactiveJs.computed 4 1 (λ _, ReactiveJs.Return (VNum 1)) ReactiveJs.initial
         = Normal (Pair (Accessor 0) (Disposer 0)) s').
Proof.
  destruct constructor_returns as (_ & _ & _ & _ & Hs & Hr & _).
  destruct (Hs 5 (SignalJs.Return VUndefined) SignalJs.initial) as (H1 & _);
    [constructor | exact I | vm_compute; lia |].
  destruct (Hs 5 (SignalJs.Return (VNum 1)) SignalJs.initial) as (_ & H2);
    [constructor | exact I | vm_compute; lia |].
  destruct (Hr 1 1 (λ _, ReactiveJs.Return VUndefined) ReactiveJs.initial) as (H3 & _);
    [constructor | exact I | vm_compute; lia |].
  destruct (Hr 1 1 (λ _, ReactiveJs.Return (VNum 1)) ReactiveJs.initial) as (_ & H4);
    [constructor | exact I | vm_compute; lia |].
  split_and!; [exact H1 | exact H2 | exact H3 | exact H4].
Defined.

(** The claim C4 as it is stated fails for both constructors of
    [signal.js]: what [effect] returns is not a [dispose], and what
    [computed] returns is not a pair. *)
Lemma signal_constructors_return_no_dispose :
  ¬ (∀ n f s r s', SignalJs.effect n f s = Normal r s' → ∃ x, r = Disposer x) ∧
  ¬ (∀ n f s r s', SignalJs.computed n f s = Normal r s' →
                   ∃ c x, r = Pair (Accessor c) (Disposer x)).
Proof.
  split; intros H.
  - destruct (H 4 (λ _, SignalJs.Return VUndefined) SignalJs.initial Undefined
                (SignalSpec.state_of
                   (SignalJs.effect 4 (λ _, SignalJs.Return VUndefined) SignalJs.initial)))
      as [x Hx]; [vm_compute; reflexivity | discriminate].
  - destruct (H 5 (SignalJs.Return (VNum 1)) SignalJs.initial (Accessor 0)
                (SignalSpec.state_of
                   (SignalJs.computed 5 (SignalJs.Return (VNum 1)) SignalJs.initial)))
      as (c & x & Hx); [vm_compute; reflexivity | discriminate].
Qed.

End Engines.

(** * Proofs about the paths of [html.js] *)
Module HtmlProofs.
Import HtmlJs.

Lemma item_indexOf l x : x ∈ l → item l (indexOf l x) = Some x.
Proof.
  intros Hx. unfold indexOf.
  destruct (list_find (λ y, y = x) l) as [[i y]|] eqn:E.
  - apply list_find_Some in E as (Hi & -> & _).
    unfold item. rewrite (proj2 (Z.leb_le _ _)) by lia. by rewrite Nat2Z.id.
  - apply list_find_None in E. rewrite Forall_forall in E. by destruct (E x Hx).
Qed.

Lemma item_fmap {A B} (f : A → B) l i : item (f <$> l) i = f <$> item l i.
Proof. unfold item. case_match; [apply list_lookup_fmap|done]. Qed.

Lemma item_of_nat {A} (l : list A) i : item l (Z.of_nat i) = l !! i.
Proof. unfold item. rewrite (proj2 (Z.leb_le _ _)) by lia. by rewrite Nat2Z.id. Qed.

(** The loop adds to the path it is started with. *)
Lemma createPath_loop_acc n d node acc :
  createPath_loop n d node acc = (acc ++.) <$> createPath_loop n d node [].
Proof.
  revert node acc. induction n as [|n IH]; intros node acc; [done|]. simpl.
  destruct (parentNode (node_at d node)) as [p|]; simpl; [|by rewrite app_nil_r].
  rewrite IH, (IH _ [_]).
  destruct (createPath_loop n d p []) as [q|]; simpl; [|done]. by rewrite <-app_assoc.
Qed.

Lemma createPath_index n d node i :
  createPath n d node (Z.of_nat i) = (Z.of_nat i ::.) <$> createPath n d node (-1).
Proof.
  unfold createPath. rewrite (proj2 (Z.leb_le _ _)) by lia. simpl.
  apply createPath_loop_acc.
Qed.

(** The path of a node resolves, in a copy, to the copy of the node. *)
Lemma createPath_loop_copy d root f g k :
  linked d → copied d root f g → ∀ node, below d k node root →
  ∃ p, createPath_loop (S k) d node [] = Some p ∧ length p = k ∧
       foldr (child d) (FNode (f root)) p = FNode (f node).
Proof.
  intros Hd Hc. induction k as [|k IH]; intros node Hk.
  - destruct Hk as [-> Hroot]. exists []. simpl. by rewrite Hroot.
  - destruct Hk as (p & Hp & Hk). destruct (IH p Hk) as (q & Hq & Hlen & Hres).
    exists (indexOf (childNodes (node_at d p)) node :: q). split_and!.
    + change (createPath_loop (S (S k)) d node []) with
        (match parentNode (node_at d node) with
         | Some p =>
             createPath_loop (S k) d p ([] ++ [indexOf (childNodes (node_at d p)) node])
         | None => Some []
         end).
      rewrite Hp, createPath_loop_acc, Hq. done.
    + simpl. by rewrite Hlen.
    + cbn [foldr]. rewrite Hres. simpl.
      rewrite (proj1 (Hc p k Hk)), item_fmap, item_indexOf by (by apply Hd). done.
Qed.

Lemma copied_id d root : copied d root id id.
Proof. intros n k _. by rewrite !list_fmap_id. Qed.

(** The path that [createPath] computes for a node leads back to the node:
    in a document where every node is among the children of its parent,
    the loop ends after as many steps as the node has ancestors, and
    [getNodeByToken] applied to the topmost ancestor and a token of type
    [Element] or [Text] with this path returns the node. *)
Theorem node_path_round_trip d k node root ty ind :
  linked d → below d k node root → ty ≠ Attribute →
  ∃ p, createPath (S k) d node (-1) = Some p ∧ length p = k ∧
       getNodeByToken d root (Token ty ind p) = FNode node.
Proof.
  intros Hd Hk Hty.
  destruct (createPath_loop_copy d root id id k Hd (copied_id d root) node Hk)
    as (p & Hp & Hlen & Hres).
  change (foldr (child d) (FNode root) p = FNode node) in Hres.
  exists p. split_and!; [done..|].
  unfold getNodeByToken. cbn [type path]. by destruct ty.
Qed.

Lemma sample_linked : linked sample.
Proof.
  intros n p. unfold sample, node_at.
  destruct n as [|[|[|[|n]]]]; simpl; intros [=<-]; simpl; rewrite !elem_of_cons; auto.
Qed.

Lemma node_path_round_trip_witness :
  ∃ p, createPath 3 sample 3 (-1) = Some p ∧ length p = 2 ∧
       getNodeByToken sample 0 (Token Element [0] p) = FNode 3.
Proof.
  apply (node_path_round_trip sample 2 3 0 Element [0]).
  - exact sample_linked.
  - simpl. eauto 10.
  - done.
Defined.

(** The path of a node finds, in a deep copy of the document, the copy of
    the node: [getNodeByToken] applied to the copy of the topmost ancestor
    and a token with the path that [createPath] computed in the original
    returns the copy of the node, and for a path made with the index of an
    attribute, the copy of that attribute. *)
Theorem path_resolves_in_copy d k node root f g :
  linked d → below d k node root → copied d root f g →
  ∃ p, createPath (S k) d node (-1) = Some p ∧
       (∀ ty ind, ty ≠ Attribute →
                  getNodeByToken d (f root) (Token ty ind p) = FNode (f node)) ∧
       (∀ i a ind, attributes (node_at d node) !! i = Some a →
                   createPath (S k) d node (Z.of_nat i) = Some (Z.of_nat i :: p) ∧
                   getNodeByToken d (f root) (Token Attribute ind (Z.of_nat i :: p))
                   = FAttr (g a)).
Proof.
  intros Hd Hk Hc.
  destruct (createPath_loop_copy d root f g k Hd Hc node Hk) as (p & Hp & _ & Hres).
  exists p. split_and!; [done| |].
  - intros ty ind Hty. unfold getNodeByToken. cbn [type path]. by destruct ty.
  - intros i a ind Ha. split.
    + rewrite createPath_index. change (createPath (S k) d node (-1)) with
        (createPath_loop (S k) d node []). by rewrite Hp.
    + unfold getNodeByToken. cbn [type path].
      change (drop 1 (Z.of_nat i :: p)) with p. rewrite Hres.
      rewrite (proj2 (Hc node k Hk)), item_fmap, item_of_nat, Ha. done.
Qed.

(** Node 3 of the sample document and its attribute 8, found in the copy
    as node 7 and attribute 18. *)
Lemma path_resolves_in_copy_witness :
  ∃ p, createPath 3 sample_with_copy 3 (-1) = Some p ∧
       (∀ ty ind, ty ≠ Attribute →
                  getNodeByToken sample_with_copy 4 (Token ty ind p) = FNode 7) ∧
       (∀ i a ind, attributes (node_at sample_with_copy 3) !! i = Some a →
                   createPath 3 sample_with_copy 3 (Z.of_nat i) = Some (Z.of_nat i :: p) ∧
                   getNodeByToken sample_with_copy 4 (Token Attribute ind (Z.of_nat i :: p))
                   = FAttr (10 + a)).
Proof.
  apply (path_resolves_in_copy sample_with_copy 2 3 0 (λ n, 4 + n) (λ a, 10 + a)).
  - intros n p. unfold sample_with_copy, sample, node_at.
    do 8 (destruct n as [|n]; [simpl; intros [=<-]; simpl; rewrite !elem_of_cons; auto|]).
    done.
  - simpl. eauto 10.
  - intros n k Hk.
    assert (n < 4) as Hn.
    { unfold sample_with_copy, sample in Hk.
      do 4 (destruct n as [|n]; [lia|]). exfalso.
      do 4 (destruct n as [|n];
            [repeat (destruct k as [|k]; simpl in Hk;
                     [by destruct Hk | destruct Hk as (? & [=<-] & Hk)]);
             try (destruct k; simpl in Hk; [by destruct Hk|by destruct Hk as (? & ? & _)])|]).
      destruct k; simpl in Hk; [by destruct Hk|by destruct Hk as (? & ? & _)]. }
    do 4 (destruct n as [|n]; [done|]). lia.
Defined.

End HtmlProofs.

(** * Proofs about the earlier [html.js] *)
Module HtmlReactiveProofs.
Import HtmlReactiveJs.

Lemma zip_loop_spec {A} (left right : list A) len k :
  ∀ i items, i + k = len → length items = 2 * i →
  ∃ items', zip_loop (S k) left right len i items = Some (len, items') ∧
            length items' = 2 * len ∧
            (∀ j, j < 2 * i → items' !! j = items !! j) ∧
            (∀ j, i ≤ j < len →
                  items' !! (2 * j) = Some (left !! j) ∧
                  items' !! (2 * j + 1) = Some (right !! j)).
Proof.
  induction k as [|k IH]; intros i items Hi Hlen.
  - exists items. simpl. rewrite bool_decide_false by lia.
    assert (i = len) as -> by lia. split_and!; try done. intros j ?; lia.
  - destruct (IH (i + 1) (items ++ [left !! i; right !! i])) as (items' & Hrun & L & Old & New).
    { lia. } { rewrite length_app; simpl; lia. }
    exists items'. split_and!; try done.
    + change (zip_loop (S (S k)) left right len i items) with
        (if bool_decide (i < len)
         then zip_loop (S k) left right len (i + 1) (items ++ [left !! i; right !! i])
         else Some (i, items)).
      by rewrite bool_decide_true by lia.
    + intros j Hj. rewrite Old by lia. apply lookup_app_l. lia.
    + intros j Hj. destruct (decide (j = i)) as [->|Hne]; [|apply New; lia].
      rewrite !Old by lia. rewrite !lookup_app_r by lia. rewrite Hlen.
      replace (2 * i - 2 * i) with 0 by lia. replace (2 * i + 1 - 2 * i) with 1 by lia.
      done.
Qed.

(** [zip] returns, for [m] the length of the shorter array, [2 * m + 1]
    items: the first [m] items of the two arrays in turn, then
    [left[m]], which is [undefined] unless [left] is the longer array.
    What either array holds after that is not in the result. *)
Theorem zip_items {A} (left right : list A) :
  let m := length left `min` length right in
  ∃ items, zip left right = Some items ∧ length items = 2 * m + 1 ∧
           (∀ j, j < m → items !! (2 * j) = Some (left !! j) ∧
                         items !! (2 * j + 1) = Some (right !! j)) ∧
           items !! (2 * m) = Some (left !! m) ∧
           (length left ≤ length right → last items = Some None).
Proof.
  intros m.
  destruct (zip_loop_spec left right m m 0 []) as (items & Hrun & L & _ & New); [done..|].
  exists (items ++ [left !! m]). split_and!.
  - unfold zip. fold m. by rewrite Hrun.
  - rewrite length_app; simpl; lia.
  - intros j Hj. destruct (New j) as [E1 E2]; [lia|].
    rewrite !lookup_app_l by lia. done.
  - rewrite lookup_app_r by lia. rewrite L, Nat.sub_diag. done.
  - intros Hle. rewrite last_snoc. f_equal. apply lookup_ge_None_2. unfold m. lia.
Qed.

(** ** The loop of [processEvents] over the live attributes *)

Lemma is_event_name name :
  is_event name = true → name = String.append "@" (substring1 name).
Proof.
  destruct name as [|c name]; [done|].
  change (is_event (String c name)) with
    (if Ascii.ascii_dec (Ascii.Ascii false false false false false false true false) c
     then String.prefix "" name else false).
  by destruct (Ascii.ascii_dec _ c) as [<-|].
Qed.

Lemma remove_named_lookup l i a :
  NoDup l.*1 → l !! i = Some a → remove_named a.1 l = take i l ++ drop (S i) l.
Proof.
  revert i. induction l as [|b l IH]; intros i Hnd Hi; [done|].
  apply NoDup_cons in Hnd as [Hb Hnd]. destruct i as [|i]; simpl in *.
  - injection Hi as ->. by rewrite String.eqb_refl.
  - destruct (String.eqb_spec b.1 a.1) as [E|_].
    + destruct Hb. rewrite E. apply list_elem_of_fmap_2. by eapply list_elem_of_lookup_2.
    + f_equal. by apply IH.
Qed.

Lemma elem_of_drop_le {A} (l : list A) i j x : i ≤ j → x ∈ drop j l → x ∈ drop i l.
Proof.
  intros Hij Hx. replace j with (i + (j - i)) in Hx by lia. rewrite <-drop_drop in Hx.
  by apply (subseteq_drop (j - i)).
Qed.

Lemma NoDup_remove_at (l : list attr) i :
  NoDup l.*1 → NoDup (take i l ++ drop (S i) l).*1.
Proof.
  intros H. rewrite fmap_app, fmap_take, fmap_drop.
  rewrite <-(take_drop i l.*1) in H. apply NoDup_app in H as (H1 & H2 & H3).
  apply NoDup_app. split_and!; [done| |].
  - intros x Hx Hx'. apply (H2 x Hx). by apply (elem_of_drop_le _ i (S i)); [lia|].
  - replace (S i) with (i + 1) by lia. rewrite <-drop_drop.
    destruct (drop i l.*1) as [|? ?]; [done|]. simpl. rewrite drop_0.
    by apply NoDup_cons in H3 as [_ ?].
Qed.

(** From index [i] on, the loop leaves the attributes before [i] alone,
    and every listener it adds is that of an event attribute at or after
    [i]. *)
Lemma processEvents_loop_tail n :
  ∀ i node, NoDup (attributes node).*1 → length (attributes node) - i < n →
  ∃ node', processEvents_loop n i node = Some node' ∧
           handle node' = handle node ∧
           take i (attributes node') = take i (attributes node) ∧
           (∀ a, a ∈ attributes node' → a ∈ attributes node) ∧
           ∃ added, listeners node' = listeners node ++ added ∧
                    ∀ e key, (e, key) ∈ added →
                             ∃ name, is_event name = true ∧ e = substring1 name ∧
                                     name ∈ (drop i (attributes node)).*1.
Proof.
  induction n as [|n IH]; intros i node Hnd Hlen; [lia|]. simpl.
  destruct (attributes node !! i) as [a|] eqn:Ha.
  - assert (i < length (attributes node)) as Hi by (by eapply lookup_lt_Some).
    destruct (is_event a.1) eqn:Hev.
    + set (node1 := addEventListener (substring1 a.1) a.2 (removeAttribute a.1 node)).
      assert (attributes node1 = take i (attributes node) ++ drop (S i) (attributes node)) as E.
      { unfold node1; simpl. by apply remove_named_lookup. }
      destruct (IH (i + 1) node1) as (node' & Hrun & Hh & Htake & Hsub & added & Hl & Hadded).
      { rewrite E. by apply NoDup_remove_at. }
      { rewrite E, length_app, length_take, length_drop. lia. }
      exists node'. split_and!; [done|done| | |].
      * assert (take i (attributes node') = take i (take (i + 1) (attributes node'))) as ->.
        { rewrite take_take. f_equal. lia. }
        rewrite Htake, take_take, E. replace (i `min` (i + 1)) with i by lia.
        rewrite take_app_le by (rewrite length_take; lia).
        rewrite take_take. f_equal. lia.
      * intros b Hb%Hsub. rewrite E in Hb. rewrite <-(take_drop i (attributes node)).
        apply elem_of_app in Hb as [Hb|Hb]; apply elem_of_app; [by left|right].
        by apply (elem_of_drop_le _ i (S i)); [lia|].
      * exists ((substring1 a.1, a.2) :: added). split.
        { rewrite Hl. unfold node1; simpl. by rewrite <-app_assoc. }
        intros e key [[= -> ->]|Hin]%elem_of_cons.
        { exists a.1. split_and!; [done..|]. apply list_elem_of_fmap_2.
          apply list_elem_of_lookup. exists 0. by rewrite lookup_drop, Nat.add_0_r. }
        destruct (Hadded e key Hin) as (name & H1 & H2 & H3).
        exists name. split_and!; [done..|].
        rewrite E in H3. rewrite drop_app_ge in H3 by (rewrite length_take; lia).
        rewrite length_take, drop_drop in H3.
        apply list_elem_of_fmap in H3 as (b & -> & Hb). apply list_elem_of_fmap_2.
        eapply elem_of_drop_le; [|exact Hb]. lia.
    + destruct (IH (i + 1) node) as (node' & Hrun & Hh & Htake & Hsub & added & Hl & Hadded);
        [done|lia|].
      exists node'. split_and!; [done|done| |done|].
      * assert (take i (attributes node') = take i (take (i + 1) (attributes node'))) as ->.
        { rewrite take_take. f_equal. lia. }
        rewrite Htake, take_take. f_equal. lia.
      * exists added. split; [done|]. intros e key Hin.
        destruct (Hadded e key Hin) as (name & H1 & H2 & H3).
        exists name. split_and!; [done..|].
        apply list_elem_of_fmap in H3 as (b & -> & Hb). apply list_elem_of_fmap_2.
        eapply elem_of_drop_le; [|exact Hb]. lia.
  - exists node. split_and!; [done..|]. exists []. split; [by rewrite app_nil_r|].
    by intros e key ?%not_elem_of_nil.
Qed.

(** Attributes that are no event attributes are passed one by one. *)
Lemma processEvents_loop_skip pre :
  Forall (λ a : attr, is_event a.1 = false) pre →
  ∀ done rest n h ls,
  processEvents_loop (length pre + n) (length done) (Element h (done ++ pre ++ rest) ls) =
  processEvents_loop n (length done + length pre) (Element h (done ++ pre ++ rest) ls).
Proof.
  induction 1 as [|a pre Ha Hpre IH]; intros done rest n h ls.
  - simpl. by rewrite Nat.add_0_r.
  - change (length (a :: pre) + n) with (S (length pre + n)).
    cbn [processEvents_loop attributes].
    match goal with
    | |- context [@lookup ?K ?A ?M ?I ?i ?l] => assert (@lookup K A M I i l = Some a) as ->
    end.
    { by apply list_lookup_middle. }
    rewrite Ha.
    specialize (IH (done ++ [a]) rest n h ls).
    rewrite <-!app_assoc, length_app in IH. simpl in *. rewrite IH. f_equal. lia.
Qed.

(** Of two event attributes that follow each other, only the first is
    bound.  When the attributes before them are no event attributes,
    [processEvents] returns with the first removed and its listener added,
    and with the second still an attribute of the node: removing the first
    moved it to the index the iterator had just been at, so no listener of
    its type is added.  Attribute names are distinct. *)
Theorem adjacent_event_attribute_skipped n h pre a1 a2 post ls :
  NoDup (pre ++ a1 :: a2 :: post).*1 →
  Forall (λ a : attr, is_event a.1 = false) pre →
  is_event a1.1 = true → is_event a2.1 = true →
  length (pre ++ a1 :: a2 :: post) < n →
  ∃ node' added,
    processEvents n (Element h (pre ++ a1 :: a2 :: post) ls) = Some node' ∧
    a2 ∈ attributes node' ∧ (a1 ∉ attributes node') ∧
    listeners node' = ls ++ added ∧
    (substring1 a1.1, a1.2) ∈ added ∧
    ∀ key, (substring1 a2.1, key) ∉ added.
Proof.
  intros Hnd Hpre H1 H2 Hn.
  set (l := pre ++ a1 :: a2 :: post) in *.
  set (node := Element h l ls).
  assert (l !! length pre = Some a1) as Ha1.
  { unfold l. by rewrite lookup_app_r, Nat.sub_diag by lia. }
  set (node1 := addEventListener (substring1 a1.1) a1.2 (removeAttribute a1.1 node)).
  assert (attributes node1 = pre ++ a2 :: post) as E.
  { unfold node1; simpl. rewrite (remove_named_lookup l (length pre) a1 Hnd Ha1).
    unfold l. rewrite take_app_length. f_equal.
    rewrite drop_app_ge by lia. by replace (S (length pre) - length pre) with 1 by lia. }
  destruct n as [|n]; [lia|].
  assert (∃ m, S n = length pre + S m ∧ length l - length pre ≤ m + 1) as (m & Hm & Hlen).
  { exists (n - length pre). unfold l in *. rewrite length_app in *. simpl in *. lia. }
  destruct (processEvents_loop_tail m (length pre + 1) node1)
    as (node' & Hrun & _ & Htake & Hsub & added & Hl & Hadded).
  { rewrite E. unfold l in Hnd. rewrite !fmap_app, !fmap_cons in *.
    apply NoDup_app in Hnd as (N1 & N2 & N3). apply NoDup_cons in N3 as [_ N3].
    apply NoDup_app. split_and!; [done| |done].
    intros x Hx Hx'. apply (N2 x Hx). by right. }
  { rewrite E. unfold l in Hlen. rewrite !length_app in *. simpl in *. lia. }
  exists node', ((substring1 a1.1, a1.2) :: added). split_and!.
  - unfold processEvents. rewrite Hm.
    pose proof (processEvents_loop_skip pre Hpre [] (a1 :: a2 :: post) (S m) h ls) as Hskip.
    etrans; [exact Hskip|]. change (length [] + length pre) with (length pre).
    cbn [processEvents_loop app].
    match goal with
    | |- context [@lookup ?K ?A ?M ?I ?i ?l] => assert (@lookup K A M I i l = Some a1) as ->
    end.
    { exact Ha1. }
    rewrite H1. exact Hrun.
  - assert (a2 ∈ take (length pre + 1) (attributes node')) as Hin.
    { rewrite Htake, E.
      rewrite take_app_ge by lia. replace (length pre + 1 - length pre) with 1 by lia.
      simpl. rewrite take_0. apply elem_of_app. right. by left. }
    by apply elem_of_take in Hin as (j & ?%list_elem_of_lookup_2 & _).
  - intros Hin%Hsub. rewrite E in Hin.
    unfold l in Hnd. rewrite fmap_app, !fmap_cons in Hnd.
    apply NoDup_app in Hnd as (_ & N2 & N3). apply NoDup_cons in N3 as [N3 _].
    apply elem_of_app in Hin as [Hin|Hin].
    + apply (N2 a1.1); [by apply list_elem_of_fmap_2|by left].
    + apply N3. change (a1.1 ∈ (a2 :: post).*1). by apply list_elem_of_fmap_2.
  - rewrite Hl. unfold node1; simpl. by rewrite <-app_assoc.
  - by left.
  - intros key [[= Hs _]|Hin]%elem_of_cons.
    + unfold l in Hnd. rewrite fmap_app, !fmap_cons in Hnd.
      apply NoDup_app in Hnd as (_ & _ & N3). apply NoDup_cons in N3 as [N3 _].
      apply N3. apply elem_of_cons. left.
      by rewrite (is_event_name _ H1), (is_event_name _ H2), Hs.
    + destruct (Hadded _ _ Hin) as (name & Hev & Hs & Hname).
      rewrite E in Hname. rewrite drop_app_ge in Hname by lia.
      replace (length pre + 1 - length pre) with 1 in Hname by lia. simpl in Hname.
      rewrite drop_0 in Hname.
      unfold l in Hnd. rewrite fmap_app, !fmap_cons in Hnd.
      apply NoDup_app in Hnd as (_ & _ & N3). apply NoDup_cons in N3 as [_ N3].
      apply NoDup_cons in N3 as [N3 _]. apply N3.
      by rewrite (is_event_name _ H2), Hs, <-(is_event_name _ Hev).
Qed.

(** The attributes [class], [@click] and [@focus] of one element: the
    listener of [click] is added, and [@focus] stays an attribute. *)
Lemma adjacent_event_attribute_skipped_witness :
  ∃ node' added,
    processEvents 4 (Element 0 [class_attribute; click_attribute; focus_attribute] [])
    = Some node' ∧
    focus_attribute ∈ attributes node' ∧ (click_attribute ∉ attributes node') ∧
    listeners node' = [] ++ added ∧
    ("click", "$$t0$$")%string ∈ added ∧
    ∀ key, ("focus"%string, key) ∉ added.
Proof.
  apply (adjacent_event_attribute_skipped 4 0 [class_attribute] click_attribute
           focus_attribute [] []).
  - simpl.
    repeat (apply NoDup_cons; split;
            [intros H; repeat (apply elem_of_cons in H as [H|H]; [discriminate H|]);
             by apply elem_of_nil in H|]).
    apply NoDup_nil_2.
  - by repeat constructor.
  - reflexivity.
  - reflexivity.
  - simpl. lia.
Defined.

(** ** [refs] *)

Lemma get_own_set_own key entry refs key' :
  get_own (set_own key entry refs) key' =
  if String.eqb key key' then Some entry else get_own refs key'.
Proof.
  unfold get_own. induction refs as [|p refs IH]; simpl.
  - by destruct (String.eqb_spec key key').
  - destruct (String.eqb_spec p.1 key) as [E|E]; simpl.
    + rewrite E. by destruct (String.eqb_spec key key').
    + destruct (String.eqb_spec p.1 key') as [E'|E']; [|done].
      destruct (String.eqb_spec key key'); [congruence|done].
Qed.

Lemma collected_snoc ns n :
  collected (ns ++ [n]) =
  match collected ns with
  | None => Some (One (MElement n))
  | Some (One m) => Some (Many [m; MElement n])
  | Some (Many l) => Some (Many (l ++ [MElement n]))
  end.
Proof.
  destruct ns as [|a [|b ns]]; simpl; [done..|].
  rewrite !fmap_app. simpl. by destruct (ns ++ [n]) eqn:E; [by destruct ns|].
Qed.

Lemma collected_many ns l : collected ns = Some (Many l) → l = MElement <$> ns.
Proof. destruct ns as [|a [|b ns]]; simpl; by intros [=]. Qed.

(** One call of [processRefs]. *)
Lemma processRefs_step node refs key seen :
  inherited key = false → get_own refs key = collected seen →
  getAttribute "ref" node ≠ Some "__proto__"%string →
  ∃ node' refs', processRefs node refs = Some (node', refs') ∧
                 get_own refs' key =
                 collected (seen ++ if has_ref key node then [handle node] else []).
Proof.
  intros Hkey Hown Hproto. unfold processRefs, has_ref.
  destruct (getAttribute "ref" node) as [k|]; [|eexists _, _; split; [done|by rewrite app_nil_r]].
  destruct (String.eqb_spec k key) as [->|Hne].
  - rewrite Hown, Hkey, collected_snoc.
    destruct (collected seen) as [[m|l]|]; (eexists _, _; split; [reflexivity|]);
      by rewrite get_own_set_own, String.eqb_refl.
  - assert (∀ e, get_own (set_own k e refs) key = collected (seen ++ [])) as Hset.
    { intros e. rewrite get_own_set_own, app_nil_r.
      by destruct (String.eqb_spec k key). }
    destruct (get_own refs k) as [[m|l]|]; [by eexists _, _..|].
    destruct (inherited k); [|by eexists _, _].
    destruct (String.eqb_spec k "__proto__") as [->|_]; [done|by eexists _, _].
Qed.

Lemma processRefs_each_collects key nodes :
  inherited key = false →
  Forall (λ node, getAttribute "ref" node ≠ Some "__proto__"%string) nodes →
  ∀ refs seen, get_own refs key = collected seen →
  ∃ nodes' refs', processRefs_each nodes refs = Some (nodes', refs') ∧
                  get_own refs' key = collected (seen ++ handles_with_ref key nodes).
Proof.
  intros Hkey. induction 1 as [|node nodes Hnode Hnodes IH]; intros refs seen Hown.
  - eexists _, _. split; [done|]. by rewrite app_nil_r.
  - destruct (processRefs_step node refs key seen Hkey Hown Hnode) as (node' & refs1 & Hp & H1).
    destruct (IH refs1 _ H1) as (nodes' & refs' & Hrun & H2).
    exists (node' :: nodes'), refs'. split.
    + simpl. rewrite Hp. simpl. by rewrite Hrun.
    + rewrite H2. f_equal. rewrite <-app_assoc. f_equal.
      unfold handles_with_ref. simpl. by destruct (has_ref key node).
Qed.

(** [refs] collects the elements by their [ref] attribute: after the calls
    of [processRefs] for the elements in their order, a key that [refs]
    did not have and that is no property name of [Object.prototype] holds
    the one element with that [ref], not wrapped, or the array of all the
    elements with that [ref] in their order; it is absent when there is
    none. *)
Theorem refs_collected key nodes refs :
  inherited key = false → get_own refs key = None →
  Forall (λ node, getAttribute "ref" node ≠ Some "__proto__"%string) nodes →
  ∃ nodes' refs', processRefs_each nodes refs = Some (nodes', refs') ∧
                  get_own refs' key = collected (handles_with_ref key nodes).
Proof.
  intros Hkey Hown Hnodes.
  exact (processRefs_each_collects key nodes Hkey Hnodes refs [] Hown).
Qed.

(** Three elements, the first and the third with [ref="item"], the second
    with [ref="title"]. *)
Lemma refs_collected_witness :
  ∃ nodes' refs',
    processRefs_each [Element 1 [ref_item] []; Element 2 [ref_title] []; Element 3 [ref_item] []]
      [] = Some (nodes', refs') ∧
    get_own refs' "item" = Some (Many [MElement 1; MElement 3]).
Proof.
  apply (refs_collected "item"
           [Element 1 [ref_item] []; Element 2 [ref_title] []; Element 3 [ref_item] []] []).
  - reflexivity.
  - reflexivity.
  - by repeat constructor.
Defined.

End HtmlReactiveProofs.
